(** * Batch transfers: the on-chain executor and its JavaScript client

    A shallow embedding of

    - [contracts/BatchTransfer.sol]: the three entry points [multiSendETH],
      [multiSendToken] and [multiTokenTransfer] (module [Executor]);
    - [batchTransactions.js]: the batch manager returned by
      [createBatchManager] (module [Client]).

    Solidity's [uint256] values are naturals of [N] below [2^256], with the
    checked arithmetic of Solidity 0.8 written out.  JavaScript's [BigInt]
    values are integers of [Z]. *)

From Stdlib Require Import ZArith NArith Lia String Ascii List.
From Stdlib Require Import QArith.QArith_base QArith.Qround.
From stdpp Require Import base gmap strings list pretty.

Set Warnings "-clear-no-such-hyp,-unused-intro-pattern".

Local Open Scope string_scope.
Local Open Scope list_scope.

(** ** The executor contract *)

Module Executor.

Local Open Scope N_scope.

Definition address := N.

(** [address(0)] *)
Definition zero_address : address := 0.

Definition MAX_UINT256 : N := 2 ^ 256 - 1.

(** Why a call is reverted. *)
Inductive Revert :=
| Require_failed (reason : string)  (* require(cond, reason) with cond false *)
| Panic (code : N)                  (* 0x11: arithmetic overflow, 0x32: index out of range *)
| Token_call_failed                 (* the token's allowance view or SafeERC20's transferFrom failed *)
| Out_of_funds.                     (* the caller cannot pay the attached value *)

Inductive result (A : Type) :=
| Success (a : A)
| Reverted (r : Revert).
Arguments Success {A} a.
Arguments Reverted {A} r.

(** event MultiSendExecuted(address indexed sender, address tokenAddress,
    uint256 totalAmount, uint256 recipientCount) *)
Record Event := MultiSendExecuted {
  sender : address;
  tokenAddress : address;
  totalAmount : N;
  recipientCount : N
}.

(** The token contracts the executor talks to, seen through [IERC20].  [T] is
    the storage of all token contracts; a [None] is a call that reverted (or,
    for [transferFrom], that SafeERC20 rejected).  The arguments are the
    token's address, then for [allowance] the owner and the spender, for
    [transferFrom] the caller, the source, the destination and the amount.  A
    token call changes the token storage only. *)
Class IERC20 (T : Type) := {
  allowance : T -> address -> address -> address -> option N;
  transferFrom : T -> address -> address -> address -> address -> N -> option T
}.

Section Contract.

Context {T : Type} `{Tok : IERC20 T}.

(** The executor's own address, [address(this)]. *)
Variable this : address.

(** Whether the code at a recipient accepts a plain value transfer of the
    given amount (an account without code accepts every transfer).  The
    recipient's code is taken to do nothing else to the balances, the tokens
    and the events kept in [State]. *)
Variable accepts : address -> N -> bool.

Record State := {
  balances : gmap address N;   (* native balances *)
  tokens : T;                   (* storage of the token contracts *)
  logs : list Event             (* events emitted so far *)
}.

Definition balance (st : State) (a : address) : N :=
  default 0 (balances st !! a).

Definition set_balance (a : address) (v : N) (st : State) : State :=
  {| balances := <[a := v]> (balances st); tokens := tokens st; logs := logs st |}.

Definition credit (a : address) (v : N) (st : State) : State :=
  set_balance a (balance st a + v) st.

Definition debit (a : address) (v : N) (st : State) : State :=
  set_balance a (balance st a - v) st.

(** Execution of a function body: a revert discards the state. *)
Definition M (A : Type) : Type := State -> result (A * State).

Definition ret {A} (a : A) : M A := fun st => Success (a, st).

Definition bind {A B} (m : M A) (k : A -> M B) : M B :=
  fun st =>
    match m st with
    | Success (a, st') => k a st'
    | Reverted r => Reverted r
    end.

Notation "x <- m ;; k" := (bind m (fun x => k))
  (at level 100, m at next level, right associativity).
Notation "m ;; k" := (bind m (fun _ => k))
  (at level 100, right associativity).

Definition revert {A} (r : Revert) : M A := fun _ => Reverted r.

Definition require (cond : bool) (reason : string) : M unit :=
  if cond then ret tt else revert (Require_failed reason).

(** [a[i]] on a calldata array: out of range panics with code 0x32. *)
Definition index {A} (a : list A) (i : nat) : M A :=
  match a !! i with
  | Some x => ret x
  | None => revert (Panic 50)
  end.

(** [x + y] on [uint256]: overflow panics with code 0x11. *)
Definition checked_add (x y : N) : M N :=
  if x + y <=? MAX_UINT256 then ret (x + y) else revert (Panic 17).

Definition emit (e : Event) : M unit :=
  fun st =>
    Success (tt, {| balances := balances st; tokens := tokens st;
                    logs := logs st ++ [e] |}).

(** [for (uint256 i = start; i < start + n; i++) body(i)] *)
Fixpoint for_range (i n : nat) (body : nat -> M unit) : M unit :=
  match n with
  | O => ret tt
  | S k => body i ;; for_range (S i) k body
  end.

(** [for (i = start; i < start + n; i++) totalAmount += amounts[i]] *)
Fixpoint sum_from (i n : nat) (amounts : list N) (totalAmount : N) : M N :=
  match n with
  | O => ret totalAmount
  | S k =>
      a <- index amounts i ;;
      totalAmount' <- checked_add totalAmount a ;;
      sum_from (S i) k amounts totalAmount'
  end.

(** [(bool success, ) = to.call{value: amount}] with empty calldata.  The
    call fails when the executor does not hold [amount], when [to] is the
    executor itself (its [receive()] reverts) or when the recipient's code
    rejects the transfer. *)
Definition call_value (to : address) (amount : N) : M bool :=
  fun st =>
    if balance st this <? amount then Success (false, st)
    else if to =? this then Success (false, st)
    else if accepts to amount
         then Success (true, credit to amount (debit this amount st))
         else Success (false, st).

(** [erc20.allowance(owner, spender)]: a high-level call, a failure of the
    callee reverts the caller. *)
Definition erc20_allowance (token owner spender : address) : M N :=
  fun st =>
    match allowance (tokens st) token owner spender with
    | Some a => Success (a, st)
    | None => Reverted Token_call_failed
    end.

(** [erc20.safeTransferFrom(from, to, amount)], called by the executor. *)
Definition safeTransferFrom (token from to : address) (amount : N) : M unit :=
  fun st =>
    match transferFrom (tokens st) token this from to amount with
    | Some t' =>
        Success (tt, {| balances := balances st; tokens := t'; logs := logs st |})
    | None => Reverted Token_call_failed
    end.

Definition multiSendETH (msg_sender : address) (msg_value : N)
    (recipients : list address) (amounts : list N) : M unit :=
  require (length recipients =? length amounts)%nat
    "Recipients and amounts arrays must be the same length" ;;
  require (0 <? length recipients)%nat "Must provide at least one recipient" ;;
  totalAmount <- sum_from 0 (length amounts) amounts 0 ;;
  require (msg_value =? totalAmount) "Sent ETH value must match total amount" ;;
  for_range 0 (length recipients) (fun i =>
    r <- index recipients i ;;
    require (negb (r =? zero_address)) "Invalid recipient address" ;;
    a <- index amounts i ;;
    success <- call_value r a ;;
    require success "ETH transfer failed") ;;
  emit (MultiSendExecuted msg_sender zero_address totalAmount
          (N.of_nat (length recipients))).

Definition multiSendToken (msg_sender : address) (token : address)
    (recipients : list address) (amounts : list N) : M unit :=
  require (negb (token =? zero_address)) "Invalid token address" ;;
  require (length recipients =? length amounts)%nat
    "Recipients and amounts arrays must be the same length" ;;
  require (0 <? length recipients)%nat "Must provide at least one recipient" ;;
  totalAmount <- sum_from 0 (length amounts) amounts 0 ;;
  allowed <- erc20_allowance token msg_sender this ;;
  require (totalAmount <=? allowed) "Insufficient token allowance" ;;
  for_range 0 (length recipients) (fun i =>
    r <- index recipients i ;;
    require (negb (r =? zero_address)) "Invalid recipient address" ;;
    a <- index amounts i ;;
    require (0 <? a) "Amount must be greater than 0" ;;
    safeTransferFrom token msg_sender r a) ;;
  emit (MultiSendExecuted msg_sender token totalAmount
          (N.of_nat (length recipients))).

Definition multiTokenTransfer (msg_sender : address) (tokens_ : list address)
    (recipient : address) (amounts : list N) : M unit :=
  require (length tokens_ =? length amounts)%nat
    "Tokens and amounts arrays must be the same length" ;;
  require (0 <? length tokens_)%nat "Must provide at least one token" ;;
  require (negb (recipient =? zero_address)) "Invalid recipient address" ;;
  for_range 0 (length tokens_) (fun i =>
    t <- index tokens_ i ;;
    require (negb (t =? zero_address)) "Invalid token address" ;;
    a <- index amounts i ;;
    require (0 <? a) "Amount must be greater than 0" ;;
    allowed <- erc20_allowance t msg_sender this ;;
    require (a <=? allowed) "Insufficient token allowance" ;;
    safeTransferFrom t msg_sender recipient a ;;
    emit (MultiSendExecuted msg_sender t a 1)).

(** An external call of an entry point: the attached value moves from the
    caller to the executor, the body runs, and a revert restores the state
    the call started from. *)
Definition transact (msg_sender : address) (msg_value : N) (body : M unit)
    (st : State) : result unit * State :=
  if balance st msg_sender <? msg_value then (Reverted Out_of_funds, st)
  else
    match body (credit this msg_value (debit msg_sender msg_value st)) with
    | Success (_, st') => (Success tt, st')
    | Reverted r => (Reverted r, st)
    end.

Definition call_multiSendETH (st : State) (msg_sender : address) (msg_value : N)
    (recipients : list address) (amounts : list N) : result unit * State :=
  transact msg_sender msg_value
    (multiSendETH msg_sender msg_value recipients amounts) st.

(** [multiSendToken] and [multiTokenTransfer] are not payable: no value
    moves, and a revert restores the state the call started from. *)
Definition call_nonpayable (body : M unit) (st : State) : result unit * State :=
  match body st with
  | Success (_, st') => (Success tt, st')
  | Reverted r => (Reverted r, st)
  end.

Definition call_multiSendToken (st : State) (msg_sender token : address)
    (recipients : list address) (amounts : list N) : result unit * State :=
  call_nonpayable (multiSendToken msg_sender token recipients amounts) st.

Definition call_multiTokenTransfer (st : State) (msg_sender : address)
    (tokens_ : list address) (recipient : address) (amounts : list N)
    : result unit * State :=
  call_nonpayable (multiTokenTransfer msg_sender tokens_ recipient amounts) st.

End Contract.

End Executor.

(** ** The batch manager of [batchTransactions.js] *)

Module Client.

Local Open Scope Z_scope.

(** The outcome of a call: a value, or a thrown [Error] with its message. *)
Inductive Result (A : Type) :=
| Return (a : A)
| Throw (message : string).
Arguments Return {A} a.
Arguments Throw {A} message.

(** The functions of ethers.js the manager calls.  [parseEther] and
    [parseUnits] receive [value.toString()]. *)
Class Ethers := {
  isAddress : string -> bool;
  parseEther : string -> Result Z;
  parseUnits : string -> Z -> Result Z;
  formatEther : Z -> string
}.

(** A queued transfer: [{to, value}] in the ETH group, [{to, value, decimals}]
    in a token group. *)
Record Tx := {
  to : string;
  value : Z;
  decimals : option Z
}.

(** A JavaScript object used as a map from token address to a value: the keys
    are kept in insertion order, which is the order [for ... in] visits them. *)
Definition JsObject (V : Type) : Type := list (string * V).

Fixpoint obj_get {V} (k : string) (o : JsObject V) : option V :=
  match o with
  | [] => None
  | (k', v) :: o' => if String.eqb k k' then Some v else obj_get k o'
  end.

(** [o[k] = v] *)
Fixpoint obj_set {V} (k : string) (v : V) (o : JsObject V) : JsObject V :=
  match o with
  | [] => [(k, v)]
  | (k', v') :: o' =>
      if String.eqb k k' then (k, v) :: o' else (k', v') :: obj_set k v o'
  end.

(** [Object.keys(o)] *)
Definition obj_keys {V} (o : JsObject V) : list string := map fst o.

(** [transactionGroups] *)
Record TransactionGroups := {
  eth : list Tx;
  erc20 : JsObject (list Tx)
}.

Definition empty_groups : TransactionGroups := {| eth := []; erc20 := [] |}.

Module Status.
(** The object returned by [getBatchStatus]. *)
Record t := {
  totalTransactions : nat;
  ethTransactions : nat;
  erc20Transactions : nat;
  erc20TokenCount : nat;
  totalEthValue : string;
  uniqueRecipients : nat
}.
End Status.

Section Manager.

Context `{E : Ethers}.

Definition addEthTransaction (to_ value_ : string) (g : TransactionGroups)
    : Result bool * TransactionGroups :=
  if negb (isAddress to_) then
    (Throw ("Invalid recipient address: " +:+ to_), g)
  else
    match parseEther value_ with
    | Return valueInWei =>
        (Return true,
         {| eth := eth g ++ [{| to := to_; value := valueInWei; decimals := None |}];
            erc20 := erc20 g |})
    | Throw message =>
        (Throw ("Error adding ETH transaction: " +:+ message), g)
    end.

(** [decimals_] is [None] when the caller leaves the argument out; the
    default is 18. *)
Definition addErc20Transaction (tokenAddress to_ value_ : string)
    (decimals_ : option Z) (g : TransactionGroups)
    : Result bool * TransactionGroups :=
  let decimals_ := default 18 decimals_ in
  if negb (isAddress tokenAddress) then
    (Throw ("Invalid token address: " +:+ tokenAddress), g)
  else if negb (isAddress to_) then
    (Throw ("Invalid recipient address: " +:+ to_), g)
  else
    (* Initialize token group if it doesn't exist *)
    let g1 :=
      match obj_get tokenAddress (erc20 g) with
      | Some _ => g
      | None => {| eth := eth g; erc20 := obj_set tokenAddress [] (erc20 g) |}
      end in
    match parseUnits value_ decimals_ with
    | Return valueWithDecimals =>
        let group := default [] (obj_get tokenAddress (erc20 g1)) in
        (Return true,
         {| eth := eth g1;
            erc20 := obj_set tokenAddress
                       (group ++ [{| to := to_; value := valueWithDecimals;
                                     decimals := Some decimals_ |}])
                       (erc20 g1) |})
    | Throw message =>
        (Throw ("Error adding ERC-20 transaction: " +:+ message), g1)
    end.

Definition clearTransactions (g : TransactionGroups)
    : bool * TransactionGroups :=
  (true, empty_groups).

(** The two loops of [getBatchStatus]; the state of the first is
    [(uniqueRecipients, totalEthValue)], of the second
    [(erc20Count, uniqueRecipients)]. *)
Definition status_eth_loop (txs : list Tx) (acc : gset string * Z)
    : gset string * Z :=
  foldl (fun '(uniqueRecipients, totalEthValue) tx =>
           (uniqueRecipients ∪ {[ to tx ]}, totalEthValue + value tx))
        acc txs.

Definition status_erc20_loop (groups : JsObject (list Tx))
    (acc : nat * gset string) : nat * gset string :=
  foldl (fun '(erc20Count, uniqueRecipients) '(_, tokenTxs) =>
           ((erc20Count + length tokenTxs)%nat,
            foldl (fun s tx => s ∪ {[ to tx ]}) uniqueRecipients tokenTxs))
        acc groups.

Definition getBatchStatus (g : TransactionGroups) : Status.t :=
  let ethCount := length (eth g) in
  let '(uniqueRecipients, totalEthValue) := status_eth_loop (eth g) (∅, 0) in
  let '(erc20Count, uniqueRecipients) :=
    status_erc20_loop (erc20 g) (0%nat, uniqueRecipients) in
  {| Status.totalTransactions := (ethCount + erc20Count)%nat;
     Status.ethTransactions := ethCount;
     Status.erc20Transactions := erc20Count;
     Status.erc20TokenCount := length (obj_keys (erc20 g));
     Status.totalEthValue := formatEther totalEthValue;
     Status.uniqueRecipients := size uniqueRecipients |}.

End Manager.

(** *** The asynchronous operations *)

(** The options [createBatchManager] reads (the ABI override is left out). *)
Record Config := {
  providerUrl : option string;
  privateKey : option string;
  multiSendContractAddress : option string
}.

(** JavaScript truthiness of an optional string and of an optional number. *)
Definition truthy_string (o : option string) : bool :=
  match o with
  | Some s => negb (String.eqb s EmptyString)
  | None => false
  end.

Definition truthy_number (o : option Z) : bool :=
  match o with
  | Some n => negb (n =? 0)
  | None => false
  end.

Inductive Provider :=
| BrowserProvider
| JsonRpcProvider (url : string).

Inductive Signer :=
| InjectedSigner
| Wallet (key : string).

(** [{ provider, signer, multiSendContract }] *)
Record Connection := {
  provider : Provider;
  signer : Signer;
  multiSendContract : string
}.

Module Options.
(** The [options] argument of [estimateGas] and [sendBatchTransaction]. *)
Record t := {
  ethGasLimit : option Z;
  tokenGasLimits : option (JsObject Z);
  gasPrice : option Z
}.
End Options.

Module TxOptions.
(** The overrides passed with a contract call. *)
Record t := {
  value : option Z;
  gasLimit : Z;
  gasPrice : option Z
}.
End TxOptions.

Module Response.
(** A submitted transaction, as returned by a contract call. *)
Record t := { hash : string }.
End Response.

Module Receipt.
(** What [tx.wait()] resolves to. *)
Record t := {
  hash : string;
  blockNumber : Z;
  gasUsed : Z;
  status : option Z
}.
End Receipt.

Module Info.
(** The summary of a receipt stored in the results.  [gasUsed] stands for
    its decimal rendering [gasUsed.toString()]. *)
Record t := {
  transactionHash : string;
  blockNumber : Z;
  gasUsed : Z;
  status : string;
  recipients : nat
}.
End Info.

Module Estimate.
(** [results.gasEstimates.eth]; the two gas figures stand for their decimal
    renderings. *)
Record t := {
  gasEstimate : Z;
  gasWithBuffer : Z;
  totalValue : string
}.
End Estimate.

Module GasResults.
(** The object returned by [estimateGas]. *)
Record t := {
  ethTransactions : nat;
  erc20Transactions : nat;
  totalTransactions : nat;
  gasEstimates : option Estimate.t;
  gasPrice : Z
}.
End GasResults.

Module Results.
(** The object returned by [sendBatchTransaction]. *)
Record t := {
  ethTransaction : option Info.t;
  erc20Transactions : JsObject Info.t;
  totalTransactions : nat
}.
End Results.

(** The lines written with [console.log]. *)
Inductive ConsoleLine :=
| Approving (tokenAddress : string)
| ApprovalSubmitted (hash : string)
| ApprovalConfirmed
| SendingEth (recipients : nat) (totalValue : string)
| EthSubmitted (hash : string)
| SendingToken (tokenAddress : string) (recipients : nat)
| TokenSubmitted (hash : string).

(** What is outside the manager: the wallet, the node and the chain behind
    it.  [W] is the state of that world; every operation may throw. *)
Class Network (W : Type) := {
  hasWindowEthereum : W -> bool;
  provider_getSigner : W -> Result unit * W;
  new_Wallet : string -> W -> Result unit * W;
  provider_getFeeData : W -> Result (option Z) * W;
  signer_getAddress : W -> Result string * W;
  contract_getAddress : W -> Result string * W;
  token_balanceOf : string -> string -> W -> Result Z * W;
  token_allowance : string -> string -> string -> W -> Result Z * W;
  token_approve : string -> string -> Z -> W -> Result Response.t * W;
  tx_wait : Response.t -> W -> Result Receipt.t * W;
  multiSendETH_estimateGas :
    list string -> list Z -> Z -> W -> Result Z * W;
  multiSendETH_send :
    list string -> list Z -> TxOptions.t -> W -> Result Response.t * W;
  multiSendToken_estimateGas :
    string -> list string -> list Z -> W -> Result Z * W;
  multiSendToken_send :
    string -> list string -> list Z -> TxOptions.t -> W -> Result Response.t * W
}.

(** Every awaited operation and every console line, with its outcome, in the
    order they happen. *)
Inductive Event :=
| EvGetSigner (r : Result unit)
| EvNewWallet (key : string) (r : Result unit)
| EvGetFeeData (r : Result (option Z))
| EvSignerAddress (r : Result string)
| EvContractAddress (r : Result string)
| EvBalanceOf (token owner : string) (r : Result Z)
| EvAllowance (token owner spender : string) (r : Result Z)
| EvApprove (token spender : string) (amount : Z) (r : Result Response.t)
| EvWait (tx : Response.t) (r : Result Receipt.t)
| EvEstimateETH (recipients : list string) (amounts : list Z) (value : Z)
    (r : Result Z)
| EvSendETH (recipients : list string) (amounts : list Z)
    (txOptions : TxOptions.t) (r : Result Response.t)
| EvEstimateToken (token : string) (recipients : list string)
    (amounts : list Z) (r : Result Z)
| EvSendToken (token : string) (recipients : list string) (amounts : list Z)
    (txOptions : TxOptions.t) (r : Result Response.t)
| EvConsole (line : ConsoleLine).

(** The state an asynchronous operation runs in: the world, the trace of
    what happened, and the memoized [connection] of the manager. *)
Record St (W : Type) := {
  world : W;
  trace : list Event;
  connection : option Connection
}.
Arguments world {W} s.
Arguments trace {W} s.
Arguments connection {W} s.

(** [(estimate * BigInt(110)) / BigInt(100)]: BigInt division truncates. *)
Definition add_buffer (estimate : Z) : Z := (estimate * 110) `quot` 100.

(** [receipt.status === 1 ? 'success' : 'failed'] *)
Definition status_text (status : option Z) : string :=
  match status with
  | Some 1 => "success"
  | _ => "failed"
  end.

(** [amounts.reduce((sum, value) => sum + BigInt(value.toString()), BigInt(0))] *)
Definition total (amounts : list Z) : Z :=
  foldl (fun sum value => sum + value) 0 amounts.

Section Async.

Context `{E : Ethers} {W : Type} `{Net : Network W}.

(** The configuration given to [createBatchManager]. *)
Variable config : Config.

(** An operation runs on the state and returns or throws; what it did before
    throwing stays done. *)
Definition Async (A : Type) : Type := St W -> Result A * St W.

Definition ret {A} (a : A) : Async A := fun s => (Return a, s).

Definition bind {A B} (m : Async A) (k : A -> Async B) : Async B :=
  fun s =>
    match m s with
    | (Return a, s') => k a s'
    | (Throw message, s') => (Throw message, s')
    end.

Notation "x <- m ;; k" := (bind m (fun x => k))
  (at level 100, m at next level, right associativity).
Notation "m ;; k" := (bind m (fun _ => k))
  (at level 100, right associativity).

Definition throw {A} (message : string) : Async A :=
  fun s => (Throw message, s).

(** [try { body } catch (error) { handler(error.message) }] *)
Definition try_catch {A} (body : Async A) (handler : string -> Async A)
    : Async A :=
  fun s =>
    match body s with
    | (Return a, s') => (Return a, s')
    | (Throw message, s') => handler message s'
    end.

(** An awaited operation of the world, recorded in the trace. *)
Definition io {R} (op : W -> Result R * W) (ev : Result R -> Event) : Async R :=
  fun s =>
    let '(r, w) := op (world s) in
    (r, {| world := w; trace := trace s ++ [ev r]; connection := connection s |}).

(** [console.log(line)] *)
Definition log (line : ConsoleLine) : Async unit :=
  fun s =>
    (Return tt,
     {| world := world s; trace := trace s ++ [EvConsole line];
        connection := connection s |}).

Definition initializeConnection : Async Connection :=
  if negb (truthy_string (multiSendContractAddress config)) then
    throw "MultiSend contract address is required"
  else
    fun s =>
      (if hasWindowEthereum (world s) then
         io provider_getSigner EvGetSigner ;;
         ret {| provider := BrowserProvider; signer := InjectedSigner;
                multiSendContract := default EmptyString (multiSendContractAddress config) |}
       else if negb (truthy_string (providerUrl config)) then
         throw "Provider URL is required when window.ethereum is not available"
       else if negb (truthy_string (privateKey config)) then
         throw "Private key is required when window.ethereum is not available"
       else
         let key := default EmptyString (privateKey config) in
         io (new_Wallet key) (EvNewWallet key) ;;
         ret {| provider := JsonRpcProvider (default EmptyString (providerUrl config));
                signer := Wallet key;
                multiSendContract := default EmptyString (multiSendContractAddress config) |}) s.

Definition getConnection : Async Connection :=
  fun s =>
    match connection s with
    | Some c => (Return c, s)
    | None =>
        match initializeConnection s with
        | (Return c, s') =>
            (Return c,
             {| world := world s'; trace := trace s'; connection := Some c |})
        | (Throw message, s') => (Throw message, s')
        end
    end.

Definition checkAndApproveToken (tokenAddress : string) (tokenTxs : list Tx)
    : Async bool :=
  getConnection ;;
  let totalAmount := total (map value tokenTxs) in
  signerAddress <- io signer_getAddress EvSignerAddress ;;
  balance <- io (token_balanceOf tokenAddress signerAddress)
               (EvBalanceOf tokenAddress signerAddress) ;;
  if balance <? totalAmount then
    throw ("Insufficient " +:+ tokenAddress +:+ " token balance")
  else
    spender <- io contract_getAddress EvContractAddress ;;
    allowance <- io (token_allowance tokenAddress signerAddress spender)
                   (EvAllowance tokenAddress signerAddress spender) ;;
    (if allowance <? totalAmount then
       log (Approving tokenAddress) ;;
       spender' <- io contract_getAddress EvContractAddress ;;
       approveTx <- io (token_approve tokenAddress spender' totalAmount)
                      (EvApprove tokenAddress spender' totalAmount) ;;
       log (ApprovalSubmitted (Response.hash approveTx)) ;;
       io (tx_wait approveTx) (EvWait approveTx) ;;
       log ApprovalConfirmed
     else ret tt) ;;
    ret true.

(** [erc20Count], the sum of the lengths of the token groups. *)
Definition erc20_count (groups : JsObject (list Tx)) : nat :=
  foldl (fun erc20Count '(_, tokenTxs) => (erc20Count + length tokenTxs)%nat)
        0%nat groups.

(** [estimateGas] past the check of the count: the gas price, then the
    [try] block. *)
Definition estimateQueued (options : Options.t) (g : TransactionGroups)
    (ethTransactions erc20Transactions totalTransactions : nat)
    : Async GasResults.t :=
  gasPrice <- (if truthy_number (Options.gasPrice options)
               then ret (default 0 (Options.gasPrice options))
               else fees <- io provider_getFeeData EvGetFeeData ;;
                    ret (if truthy_number fees then default 0 fees else 0)) ;;
  try_catch
    (estimates <-
       (if (0 <? length (eth g))%nat then
          let recipients := map to (eth g) in
          let amounts := map value (eth g) in
          let totalValue := total amounts in
          ethGasEstimate <-
            io (multiSendETH_estimateGas recipients amounts totalValue)
               (EvEstimateETH recipients amounts totalValue) ;;
          let ethGasWithBuffer := add_buffer ethGasEstimate in
          ret (Some {| Estimate.gasEstimate := ethGasEstimate;
                       Estimate.gasWithBuffer := ethGasWithBuffer;
                       Estimate.totalValue := formatEther totalValue |})
        else ret None) ;;
     ret {| GasResults.ethTransactions := ethTransactions;
            GasResults.erc20Transactions := erc20Transactions;
            GasResults.totalTransactions := totalTransactions;
            GasResults.gasEstimates := estimates;
            GasResults.gasPrice := gasPrice |})
    (fun message => throw ("Gas estimation failed: " +:+ message)).

Definition estimateGas (options : Options.t) (g : TransactionGroups)
    : Async GasResults.t :=
  getConnection ;;
  let ethTransactions := length (eth g) in
  let erc20Transactions := erc20_count (erc20 g) in
  let totalTransactions := (ethTransactions + erc20Transactions)%nat in
  if (totalTransactions =? 0)%nat then
    throw "No transactions to estimate gas for"
  else
    estimateQueued options g ethTransactions erc20Transactions totalTransactions.

(** [txOptions.gasPrice] is set only when [options.gasPrice] is truthy. *)
Definition price_override (options : Options.t) : option Z :=
  if truthy_number (Options.gasPrice options) then Options.gasPrice options
  else None.

Definition summary (receipt : Receipt.t) (recipients : nat) : Info.t :=
  {| Info.transactionHash := Receipt.hash receipt;
     Info.blockNumber := Receipt.blockNumber receipt;
     Info.gasUsed := Receipt.gasUsed receipt;
     Info.status := status_text (Receipt.status receipt);
     Info.recipients := recipients |}.

(** The block of [sendBatchTransaction] guarded by
    [transactionGroups.eth.length > 0]. *)
Definition sendEthGroup (options : Options.t) (ethTxs : list Tx)
    : Async Info.t :=
  let recipients := map to ethTxs in
  let amounts := map value ethTxs in
  let totalValue := total amounts in
  gasLimit <-
    (if truthy_number (Options.ethGasLimit options)
     then ret (default 0 (Options.ethGasLimit options))
     else ethGasEstimate <-
            io (multiSendETH_estimateGas recipients amounts totalValue)
               (EvEstimateETH recipients amounts totalValue) ;;
          ret (add_buffer ethGasEstimate)) ;;
  let txOptions := {| TxOptions.value := Some totalValue;
                      TxOptions.gasLimit := gasLimit;
                      TxOptions.gasPrice := price_override options |} in
  log (SendingEth (length recipients) (formatEther totalValue)) ;;
  ethTx <- io (multiSendETH_send recipients amounts txOptions)
              (EvSendETH recipients amounts txOptions) ;;
  log (EthSubmitted (Response.hash ethTx)) ;;
  ethReceipt <- io (tx_wait ethTx) (EvWait ethTx) ;;
  ret (summary ethReceipt (length recipients)).

(** [options.tokenGasLimits && options.tokenGasLimits[tokenAddress]] *)
Definition token_gas_override (options : Options.t) (tokenAddress : string)
    : option Z :=
  match Options.tokenGasLimits options with
  | Some limits => obj_get tokenAddress limits
  | None => None
  end.

(** The body of the loop over the token groups, for a group with entries. *)
Definition sendTokenGroup (options : Options.t) (tokenAddress : string)
    (tokenTxs : list Tx) : Async Info.t :=
  checkAndApproveToken tokenAddress tokenTxs ;;
  let recipients := map to tokenTxs in
  let amounts := map value tokenTxs in
  gasLimit <-
    (if truthy_number (token_gas_override options tokenAddress)
     then ret (default 0 (token_gas_override options tokenAddress))
     else tokenGasEstimate <-
            io (multiSendToken_estimateGas tokenAddress recipients amounts)
               (EvEstimateToken tokenAddress recipients amounts) ;;
          ret (add_buffer tokenGasEstimate)) ;;
  let txOptions := {| TxOptions.value := None;
                      TxOptions.gasLimit := gasLimit;
                      TxOptions.gasPrice := price_override options |} in
  log (SendingToken tokenAddress (length recipients)) ;;
  tokenTx <- io (multiSendToken_send tokenAddress recipients amounts txOptions)
                (EvSendToken tokenAddress recipients amounts txOptions) ;;
  log (TokenSubmitted (Response.hash tokenTx)) ;;
  tokenReceipt <- io (tx_wait tokenTx) (EvWait tokenTx) ;;
  ret (summary tokenReceipt (length recipients)).

(** [for (const tokenAddress in transactionGroups.erc20) { ... }], threading
    [results.erc20Transactions]. *)
Fixpoint sendTokenGroups (options : Options.t) (groups : JsObject (list Tx))
    (erc20Transactions : JsObject Info.t) : Async (JsObject Info.t) :=
  match groups with
  | [] => ret erc20Transactions
  | (tokenAddress, tokenTxs) :: groups' =>
      if (0 <? length tokenTxs)%nat then
        info <- sendTokenGroup options tokenAddress tokenTxs ;;
        sendTokenGroups options groups'
          (obj_set tokenAddress info erc20Transactions)
      else sendTokenGroups options groups' erc20Transactions
  end.

(** [if (transactionGroups.eth.length > 0) { ... }], giving
    [results.ethTransaction]. *)
Definition sendEthPart (options : Options.t) (ethTxs : list Tx)
    : Async (option Info.t) :=
  if (0 <? length ethTxs)%nat then
    info <- sendEthGroup options ethTxs ;; ret (Some info)
  else ret None.

(** [sendBatchTransaction] past the check of the count: the [try] block. *)
Definition sendQueued (options : Options.t) (g : TransactionGroups)
    (totalTransactions : nat) : Async Results.t :=
  try_catch
    (ethTransaction <- sendEthPart options (eth g) ;;
     erc20Transactions <- sendTokenGroups options (erc20 g) [] ;;
     ret {| Results.ethTransaction := ethTransaction;
            Results.erc20Transactions := erc20Transactions;
            Results.totalTransactions := totalTransactions |})
    (fun message => throw ("Failed to send batch transaction: " +:+ message)).

Definition sendBatchTransaction (options : Options.t) (g : TransactionGroups)
    : Async Results.t :=
  getConnection ;;
  let totalTransactions := (length (eth g) + erc20_count (erc20 g))%nat in
  if (totalTransactions =? 0)%nat then
    throw "No transactions to send"
  else
    sendQueued options g totalTransactions.

End Async.

End Client.

(** ** Concrete collaborators, to run the two programs on examples *)

(** A plain ERC-20 ledger: [transferFrom] needs the balance and the
    allowance, and lowers both. *)
Module Ledger.

Import Executor.
Local Open Scope N_scope.

Record t := {
  holdings : gmap (address * address) N;            (* (token, holder) *)
  approvals : gmap (address * address * address) N  (* (token, owner, spender) *)
}.

Definition holding (l : t) (token holder : address) : N :=
  default 0 (holdings l !! (token, holder)).

Definition approved (l : t) (token owner spender : address) : N :=
  default 0 (approvals l !! (token, owner, spender)).

Definition ledger_transferFrom (l : t) (token caller from to : address)
    (amount : N) : option t :=
  if (amount <=? holding l token from) && (amount <=? approved l token from caller)
  then
    let h1 := <[(token, from) := holding l token from - amount]> (holdings l) in
    let l1 := {| holdings := h1; approvals := approvals l |} in
    Some {| holdings := <[(token, to) := holding l1 token to + amount]> h1;
            approvals := <[(token, from, caller) :=
                             approved l token from caller - amount]> (approvals l) |}
  else None.

Definition erc20 : IERC20 t :=
  {| allowance := fun l token owner spender => Some (approved l token owner spender);
     transferFrom := ledger_transferFrom |}.

End Ledger.

(** The part of ethers v6 that needs no Keccak-256: [isAddress] on addresses
    written in one letter case, [parseUnits] and [formatEther] through the
    decimal syntax of [FixedNumber].  The error messages are shortened. *)
Module EthersModel.

Import Client.
Local Open Scope Z_scope.

Definition code (c : ascii) : Z := Z.of_nat (nat_of_ascii c).

Definition is_digit (c : ascii) : bool := (48 <=? code c) && (code c <=? 57).
Definition is_lower_hex (c : ascii) : bool := (97 <=? code c) && (code c <=? 102).
Definition is_upper_hex (c : ascii) : bool := (65 <=? code c) && (code c <=? 70).
Definition is_hex (c : ascii) : bool :=
  is_digit c || is_lower_hex c || is_upper_hex c.

(** The address without its optional [0x]. *)
Definition hex_body (s : string) : list ascii :=
  match list_ascii_of_string s with
  | "0"%char :: "x"%char :: body => body
  | body => body
  end.

(** [/^(0x)?[0-9a-fA-F]{40}$/], and no mix of upper and lower case letters
    (a mixed-case address is accepted by ethers only with a valid checksum,
    given here by [checksum_ok]). *)
Definition isAddress_with (checksum_ok : string -> bool) (s : string) : bool :=
  let body := hex_body s in
  (length body =? 40)%nat && forallb is_hex body &&
  (negb (existsb is_upper_hex body && existsb is_lower_hex body) || checksum_ok s).

Fixpoint span_digits (l : list ascii) : list ascii * list ascii :=
  match l with
  | c :: l' =>
      if is_digit c then let '(ds, rest) := span_digits l' in (c :: ds, rest)
      else ([], l)
  | [] => ([], [])
  end.

Definition digits_value (ds : list ascii) : Z :=
  foldl (fun acc c => acc * 10 + (code c - 48)) 0 ds.

(** [FixedNumber.fromString(value, { decimals, width: 512 }).value] *)
Definition parse_fixed (s : string) (decimals_ : Z) : Result Z :=
  let chars := list_ascii_of_string s in
  let '(negative, chars) :=
    match chars with
    | "-"%char :: rest => (true, rest)
    | _ => (false, chars)
    end in
  let '(whole, chars) := span_digits chars in
  let chars := match chars with "."%char :: rest => rest | _ => chars end in
  let '(fraction, chars) := span_digits chars in
  match chars with
  | _ :: _ => Throw "invalid FixedNumber string value"
  | [] =>
      if (length whole + length fraction =? 0)%nat then
        Throw "invalid FixedNumber string value"
      else
        let d := Z.to_nat decimals_ in
        let padded := fraction ++ replicate (d - length fraction)%nat "0"%char in
        if negb (forallb (fun c => Ascii.eqb c "0"%char) (drop d padded)) then
          Throw "too many decimals for format"
        else
          let v := digits_value (whole ++ take d padded) in
          let v := if negative then - v else v in
          if (- 2 ^ 511 <=? v) && (v <? 2 ^ 511) then Return v
          else Throw "overflow"
  end.

Definition digit_char (n : Z) : ascii := ascii_of_nat (Z.to_nat (48 + n)).

(** The [n] low decimal digits of [v], most significant first. *)
Fixpoint low_digits (n : nat) (v : Z) (acc : list ascii) : list ascii :=
  match n with
  | O => acc
  | S k => low_digits k (v `div` 10) (digit_char (v `mod` 10) :: acc)
  end.

Fixpoint trim_zeros (rev_digits : list ascii) : list ascii :=
  match rev_digits with
  | c :: (_ :: _) as rest => if Ascii.eqb c "0"%char then trim_zeros rest else rev_digits
  | _ => rev_digits
  end.

(** [formatUnits(v, decimals)] for a positive number of decimals. *)
Definition format_units (v : Z) (decimals_ : nat) : string :=
  let a := Z.abs v in
  let whole := a `div` 10 ^ Z.of_nat decimals_ in
  let fraction := rev (trim_zeros (rev (low_digits decimals_ a []))) in
  (if v <? 0 then "-" else EmptyString)
    +:+ pretty.pretty whole +:+ "." +:+ string_of_list_ascii fraction.

Definition ethers : Ethers :=
  {| isAddress := isAddress_with (fun _ => false);
     parseEther := fun s => parse_fixed s 18;
     parseUnits := parse_fixed;
     formatEther := fun v => format_units v 18 |}.

End EthersModel.

(** A scripted node: one signer, one executor, the same balance and allowance
    for every token, and a list of tokens whose [multiSendToken] calls the
    node refuses. *)
Module Mock.

Import Client.
Local Open Scope Z_scope.

Record World := {
  injectedWallet : bool;       (* window.ethereum is present *)
  tokenBalance : Z;            (* the signer's balance of every token *)
  tokenAllowance : Z;          (* the signer's allowance to the executor *)
  simulatedGas : Z;            (* what every gas estimation answers *)
  receiptGas : Z;              (* gasUsed of every receipt *)
  blockHeight : Z;             (* the last block *)
  refusedTokens : list string  (* the node rejects multiSendToken on these *)
}.

Definition signerAddress : string := "0x1111111111111111111111111111111111111111".
Definition executorAddress : string := "0x34d10d1ab8204d51e5dc5dcc31b6a7b14be697c3".

Definition approve (amount : Z) (w : World) : World :=
  {| injectedWallet := injectedWallet w; tokenBalance := tokenBalance w;
     tokenAllowance := amount; simulatedGas := simulatedGas w;
     receiptGas := receiptGas w; blockHeight := blockHeight w;
     refusedTokens := refusedTokens w |}.

Definition mine (w : World) : World :=
  {| injectedWallet := injectedWallet w; tokenBalance := tokenBalance w;
     tokenAllowance := tokenAllowance w; simulatedGas := simulatedGas w;
     receiptGas := receiptGas w; blockHeight := blockHeight w + 1;
     refusedTokens := refusedTokens w |}.

Definition wait (tx : Response.t) (w : World) : Result Receipt.t * World :=
  (Return {| Receipt.hash := Response.hash tx;
             Receipt.blockNumber := blockHeight w + 1;
             Receipt.gasUsed := receiptGas w;
             Receipt.status := Some 1 |},
   mine w).

Definition refuses (w : World) (token : string) : bool :=
  existsb (String.eqb token) (refusedTokens w).

Definition network : Network World :=
  {| hasWindowEthereum := injectedWallet;
     provider_getSigner := fun w => (Return tt, w);
     new_Wallet := fun _ w => (Return tt, w);
     provider_getFeeData := fun w => (Return (Some 1000000000), w);
     signer_getAddress := fun w => (Return signerAddress, w);
     contract_getAddress := fun w => (Return executorAddress, w);
     token_balanceOf := fun _ _ w => (Return (tokenBalance w), w);
     token_allowance := fun _ _ _ w => (Return (tokenAllowance w), w);
     token_approve := fun _ _ amount w =>
       (Return {| Response.hash := "0xa1" |}, approve amount w);
     tx_wait := wait;
     multiSendETH_estimateGas := fun _ _ _ w => (Return (simulatedGas w), w);
     multiSendETH_send := fun _ _ _ w => (Return {| Response.hash := "0xe1" |}, w);
     multiSendToken_estimateGas := fun token _ _ w =>
       if refuses w token then (Throw "execution reverted", w)
       else (Return (simulatedGas w), w);
     multiSendToken_send := fun token _ _ _ w =>
       if refuses w token then (Throw "execution reverted", w)
       else (Return {| Response.hash := "0xf1" |}, w) |}.

Definition start (w : World) : St World :=
  {| world := w; trace := []; connection := None |}.

End Mock.

(** ** What the specification compares the code with *)

Module Spec.

Import Client.
Local Open Scope Z_scope.

(** The mathematical ceiling of [simulatedCost * 1.10]. *)
Definition ceil_with_margin (simulatedCost : Z) : Z :=
  Qceiling (Qmult (inject_Z simulatedCost) (Qmake 110 100)).

(** The mathematical floor of [simulatedCost * 1.10]. *)
Definition floor_with_margin (simulatedCost : Z) : Z :=
  Qfloor (Qmult (inject_Z simulatedCost) (Qmake 110 100)).

Definition lower_char (c : ascii) : ascii :=
  let n := nat_of_ascii c in
  if (65 <=? n)%nat && (n <=? 90)%nat then ascii_of_nat (n + 32) else c.

(** An address with its letters in lower case. *)
Definition normalize_case (s : string) : string :=
  string_of_list_ascii (map lower_char (list_ascii_of_string s)).

(** The recipients of all queued entries, native entries first. *)
Definition all_recipients (g : TransactionGroups) : list string :=
  map to (eth g) ++ concat (map (fun '(_, tokenTxs) => map to tokenTxs) (erc20 g)).

(** The unique-recipient count as the specification words it: the size of
    the set of case-normalized recipient addresses. *)
Definition unique_recipients_normalized (g : TransactionGroups) : nat :=
  size (list_to_set (map normalize_case (all_recipients g)) : gset string).

(** The number of distinct recipient strings, compared as they were given. *)
Definition unique_recipients_exact (g : TransactionGroups) : nat :=
  size (list_to_set (all_recipients g) : gset string).

End Spec.

(** What the theorems on the executor are stated with. *)
Module ExecutorSpec.

Import Executor.
Local Open Scope N_scope.

(** The exact sum of the amounts, without overflow. *)
Definition sum_amounts (amounts : list N) : N := foldr N.add 0 amounts.

(** What the entries addressed to [x] add up to. *)
Fixpoint received (x : address) (entries : list (address * N)) : N :=
  match entries with
  | [] => 0
  | (r, a) :: entries' =>
      (if r =? x then a else 0) + received x entries'
  end.

Section Contract.

Context {T : Type} `{Tok : IERC20 T}.
Variable this : address.
Variable accepts : address -> N -> bool.

(** The value transfer to [r] fails: [r] is the executor, whose [receive()]
    reverts, or the code at [r] rejects the transfer. *)
Definition transfer_fails (r : address) (a : N) : Prop :=
  r = this \/ accepts r a = false.

(** The calls of [multiSendETH] that are to revert. *)
Definition must_revert (msg_value : N) (recipients : list address)
    (amounts : list N) : Prop :=
  length recipients <> length amounts \/
  length recipients = 0%nat \/
  msg_value <> sum_amounts amounts \/
  zero_address ∈ recipients \/
  Exists (fun '(r, a) => transfer_fails r a) (zip recipients amounts).

(** A loop over the pairs of two parallel arrays. *)
Fixpoint each {A B} (step : A -> B -> M (T:=T) unit) (entries : list (A * B))
    : M (T:=T) unit :=
  match entries with
  | [] => ret tt
  | (x, y) :: entries' => bind (step x y) (fun _ => each step entries')
  end.

(** One round of the loop of [multiSendETH]. *)
Definition eth_step (r : address) (a : N) : M (T:=T) unit :=
  bind (require (negb (r =? zero_address)) "Invalid recipient address") (fun _ =>
  bind (call_value this accepts r a) (fun success =>
  require success "ETH transfer failed")).

(** One round of the loop of [multiSendToken]. *)
Definition token_step (msg_sender token r : address) (a : N) : M (T:=T) unit :=
  bind (require (negb (r =? zero_address)) "Invalid recipient address") (fun _ =>
  bind (require (0 <? a) "Amount must be greater than 0") (fun _ =>
  safeTransferFrom this token msg_sender r a)).

(** One round of the loop of [multiTokenTransfer]. *)
Definition multi_step (msg_sender recipient t : address) (a : N) : M (T:=T) unit :=
  bind (require (negb (t =? zero_address)) "Invalid token address") (fun _ =>
  bind (require (0 <? a) "Amount must be greater than 0") (fun _ =>
  bind (erc20_allowance t msg_sender this) (fun allowed =>
  bind (require (a <=? allowed) "Insufficient token allowance") (fun _ =>
  bind (safeTransferFrom this t msg_sender recipient a) (fun _ =>
  emit (MultiSendExecuted msg_sender t a 1)))))).

(** An entry of [multiTokenTransfer] that fails when its turn comes with the
    token storage [t]. *)
Definition entry_fails (from recipient : address) (t : T) (tk : address) (a : N)
    : Prop :=
  tk = zero_address \/ a = 0 \/
  allowance t tk from this = None \/
  (exists allowed, allowance t tk from this = Some allowed /\ allowed < a) \/
  transferFrom t tk this from recipient a = None.

(** The token storage after the executor moved every entry out of [from], in
    order; [None] if the token refuses one of them. *)
Fixpoint transfer_all (token from : address) (entries : list (address * N))
    (t : T) : option T :=
  match entries with
  | [] => Some t
  | (r, a) :: entries' =>
      match transferFrom t token this from r a with
      | Some t' => transfer_all token from entries' t'
      | None => None
      end
  end.

(** The run of [multiTokenTransfer]'s loop, entry by entry: every entry is
    checked against the allowance of its own token in the storage the
    entries before it left, then transferred, then announced. *)
Inductive token_steps (from recipient : address)
    : list (address * N) -> T -> list Event -> T -> list Event -> Prop :=
| token_steps_nil t evs : token_steps from recipient [] t evs t evs
| token_steps_cons tk a entries t evs allowed t1 t' evs' :
    tk <> zero_address ->
    0 < a ->
    allowance t tk from this = Some allowed ->
    a <= allowed ->
    transferFrom t tk this from recipient a = Some t1 ->
    token_steps from recipient entries t1
      (evs ++ [MultiSendExecuted from tk a 1]) t' evs' ->
    token_steps from recipient ((tk, a) :: entries) t evs t' evs'.

End Contract.

End ExecutorSpec.

(** What the theorems on the manager are stated with. *)
Module ClientSpec.

Import Client.

(** The events of [initializeConnection]. *)
Definition connection_event (ev : Event) : Prop :=
  match ev with
  | EvGetSigner _ | EvNewWallet _ _ => True
  | _ => False
  end.

(** [e1] happens before [e2] in the trace [evs]. *)
Definition precedes (e1 e2 : Event) (evs : list Event) : Prop :=
  exists l1 l2 l3, evs = l1 ++ e1 :: l2 ++ e2 :: l3.

(** The console lines of a trace. *)
Definition console (evs : list Event) : list ConsoleLine :=
  omap (fun ev => match ev with EvConsole line => Some line | _ => None end) evs.

Local Open Scope Z_scope.


(** The token groups that have entries, in the order of their keys. *)
Definition groups_with_entries (groups : JsObject (list Tx)) : JsObject (list Tx) :=
  List.filter (fun '(_, tokenTxs) => (0 <? length tokenTxs)%nat) groups.

(** What the operations [evs] of one token group, ending in [r], obey. *)
Definition group_protocol (tokenAddress : string) (tokenTxs : list Tx)
    (r : Result Info.t) (evs : list Event) : Prop :=
  let required := total (map value tokenTxs) in
  (forall owner b,
     In (EvBalanceOf tokenAddress owner (Return b)) evs -> b < required ->
     r = Throw ("Insufficient " +:+ tokenAddress +:+ " token balance") /\
     exists pre, evs = pre ++ [EvBalanceOf tokenAddress owner (Return b)]) /\
  (forall tk spender amount res,
     In (EvApprove tk spender amount res) evs ->
     tk = tokenAddress /\ amount = required /\
     exists owner b sp a, required <= b /\ a < required /\
       precedes (EvBalanceOf tokenAddress owner (Return b))
                (EvAllowance tokenAddress owner sp (Return a)) evs /\
       precedes (EvAllowance tokenAddress owner sp (Return a))
                (EvApprove tk spender amount res) evs) /\
  (forall tk rc am txo res,
     In (EvSendToken tk rc am txo res) evs ->
     tk = tokenAddress /\ rc = map to tokenTxs /\ am = map value tokenTxs /\
     exists owner b sp a, required <= b /\
       precedes (EvBalanceOf tokenAddress owner (Return b))
                (EvAllowance tokenAddress owner sp (Return a)) evs /\
       precedes (EvAllowance tokenAddress owner sp (Return a))
                (EvSendToken tk rc am txo res) evs /\
       if a <? required then
         exists spender tx receipt,
           precedes (EvAllowance tokenAddress owner sp (Return a))
                    (EvApprove tokenAddress spender required (Return tx)) evs /\
           precedes (EvApprove tokenAddress spender required (Return tx))
                    (EvWait tx (Return receipt)) evs /\
           precedes (EvWait tx (Return receipt))
                    (EvSendToken tk rc am txo res) evs
       else forall tk' sp' am' res', ~ In (EvApprove tk' sp' am' res') evs).
(** *** The run of a token group, as the specification words it *)

(** One phase after another: the events of the first phase and, when it
    returns, those of the next; the first phase that throws ends the run
    with its error. *)
Definition followed_by {A B} (first : list Event -> Result A -> Prop)
    (next : A -> list Event -> Result B -> Prop)
    (evs : list Event) (r : Result B) : Prop :=
  exists evs1 r1, first evs1 r1 /\
    match r1 with
    | Throw message => evs = evs1 /\ r = Throw message
    | Return a => exists evs2, next a evs2 r /\ evs = evs1 ++ evs2
    end.

(** The balance comes first: the address of the signer is asked, then its
    balance of the token, and a balance below the required total fails the
    group with the insufficient-balance error. *)
Inductive balance_check (tokenAddress : string) (required : Z)
    : list Event -> Result string -> Prop :=
| no_signer_address message :
    balance_check tokenAddress required
      [EvSignerAddress (Throw message)] (Throw message)
| no_balance owner message :
    balance_check tokenAddress required
      [EvSignerAddress (Return owner);
       EvBalanceOf tokenAddress owner (Throw message)] (Throw message)
| insufficient_balance owner b :
    b < required ->
    balance_check tokenAddress required
      [EvSignerAddress (Return owner);
       EvBalanceOf tokenAddress owner (Return b)]
      (Throw ("Insufficient " +:+ tokenAddress +:+ " token balance"))
| sufficient_balance owner b :
    required <= b ->
    balance_check tokenAddress required
      [EvSignerAddress (Return owner);
       EvBalanceOf tokenAddress owner (Return b)] (Return owner).

(** Then the allowance of the executor on the signer's tokens. *)
Inductive allowance_check (tokenAddress owner : string)
    : list Event -> Result Z -> Prop :=
| no_spender message :
    allowance_check tokenAddress owner
      [EvContractAddress (Throw message)] (Throw message)
| no_allowance spender message :
    allowance_check tokenAddress owner
      [EvContractAddress (Return spender);
       EvAllowance tokenAddress owner spender (Throw message)] (Throw message)
| allowance_read spender a :
    allowance_check tokenAddress owner
      [EvContractAddress (Return spender);
       EvAllowance tokenAddress owner spender (Return a)] (Return a).

(** Then, only when the allowance is below the required total, an approval
    of exactly the required total, whose finalization is awaited. *)
Inductive approval (tokenAddress : string) (required allowance : Z)
    : list Event -> Result unit -> Prop :=
| approval_not_needed :
    required <= allowance ->
    approval tokenAddress required allowance [] (Return tt)
| approval_without_spender message :
    allowance < required ->
    approval tokenAddress required allowance
      [EvConsole (Approving tokenAddress);
       EvContractAddress (Throw message)] (Throw message)
| approval_refused spender message :
    allowance < required ->
    approval tokenAddress required allowance
      [EvConsole (Approving tokenAddress);
       EvContractAddress (Return spender);
       EvApprove tokenAddress spender required (Throw message)] (Throw message)
| approval_not_finalized spender tx message :
    allowance < required ->
    approval tokenAddress required allowance
      [EvConsole (Approving tokenAddress);
       EvContractAddress (Return spender);
       EvApprove tokenAddress spender required (Return tx);
       EvConsole (ApprovalSubmitted (Response.hash tx));
       EvWait tx (Throw message)] (Throw message)
| approval_finalized spender tx receipt :
    allowance < required ->
    approval tokenAddress required allowance
      [EvConsole (Approving tokenAddress);
       EvContractAddress (Return spender);
       EvApprove tokenAddress spender required (Return tx);
       EvConsole (ApprovalSubmitted (Response.hash tx));
       EvWait tx (Return receipt);
       EvConsole ApprovalConfirmed] (Return tt).

(** Then the gas limit of the transfer: the one given for the token, or the
    simulated cost with its margin. *)
Inductive gas_limit (options : Options.t) (tokenAddress : string)
    (recipients : list string) (amounts : list Z)
    : list Event -> Result Z -> Prop :=
| gas_limit_given :
    truthy_number (token_gas_override options tokenAddress) = true ->
    gas_limit options tokenAddress recipients amounts []
      (Return (default 0 (token_gas_override options tokenAddress)))
| simulation_fails message :
    truthy_number (token_gas_override options tokenAddress) = false ->
    gas_limit options tokenAddress recipients amounts
      [EvEstimateToken tokenAddress recipients amounts (Throw message)]
      (Throw message)
| simulated cost :
    truthy_number (token_gas_override options tokenAddress) = false ->
    gas_limit options tokenAddress recipients amounts
      [EvEstimateToken tokenAddress recipients amounts (Return cost)]
      (Return (add_buffer cost)).

(** The overrides of a token transfer. *)
Definition token_options (options : Options.t) (gasLimit : Z) : TxOptions.t :=
  {| TxOptions.value := None;
     TxOptions.gasLimit := gasLimit;
     TxOptions.gasPrice := price_override options |}.

(** And last the transfer: it is submitted, and its finalization awaited. *)
Inductive transfer (options : Options.t) (tokenAddress : string)
    (recipients : list string) (amounts : list Z) (gasLimit : Z)
    : list Event -> Result Info.t -> Prop :=
| transfer_refused message :
    transfer options tokenAddress recipients amounts gasLimit
      [EvConsole (SendingToken tokenAddress (length recipients));
       EvSendToken tokenAddress recipients amounts
         (token_options options gasLimit) (Throw message)] (Throw message)
| transfer_not_finalized tx message :
    transfer options tokenAddress recipients amounts gasLimit
      [EvConsole (SendingToken tokenAddress (length recipients));
       EvSendToken tokenAddress recipients amounts
         (token_options options gasLimit) (Return tx);
       EvConsole (TokenSubmitted (Response.hash tx));
       EvWait tx (Throw message)] (Throw message)
| transfer_finalized tx receipt :
    transfer options tokenAddress recipients amounts gasLimit
      [EvConsole (SendingToken tokenAddress (length recipients));
       EvSendToken tokenAddress recipients amounts
         (token_options options gasLimit) (Return tx);
       EvConsole (TokenSubmitted (Response.hash tx));
       EvWait tx (Return receipt)]
      (Return (summary receipt (length recipients))).

(** The operations [evs] and the outcome [r] of a token group. *)
Definition group_run (options : Options.t) (tokenAddress : string)
    (tokenTxs : list Tx) : list Event -> Result Info.t -> Prop :=
  let required := total (map value tokenTxs) in
  let recipients := map to tokenTxs in
  let amounts := map value tokenTxs in
  followed_by (balance_check tokenAddress required) (fun owner =>
  followed_by (allowance_check tokenAddress owner) (fun allowance =>
  followed_by (approval tokenAddress required allowance) (fun _ =>
  followed_by (gas_limit options tokenAddress recipients amounts) (fun gasLimit =>
  transfer options tokenAddress recipients amounts gasLimit)))).

(** A token group of a run: its key, its entries, its operations and its
    outcome. *)
Record Segment := {
  group : string * list Tx;
  events : list Event;
  outcome : Result Info.t
}.

(** What holds of every token group of a run: its operations and its outcome
    are a run of the group, and obey the order of the protocol. *)
Definition obeys (options : Options.t) (segment : Segment) : Prop :=
  group_run options (fst (group segment)) (snd (group segment))
    (events segment) (outcome segment) /\
  group_protocol (fst (group segment)) (snd (group segment))
    (outcome segment) (events segment).

Definition completed (segment : Segment) : Prop :=
  exists info, outcome segment = Return info.


(** The search for the phases of a run on an explicit trace. *)
Ltac derive_run :=
  lazymatch goal with
  | |- followed_by _ _ _ _ =>
      unfold followed_by at 1; eexists _, _; split;
      [ econstructor; shelve
      | cbv beta iota;
        first [ (split; reflexivity)
              | (eexists; split; [derive_run|reflexivity]) ] ]
  | |- transfer _ _ _ _ _ _ _ => econstructor
  end.

(** Proof search on explicit traces: membership, order (given the lemmas
    that prepend a trace, take the head and skip an event), and the cases of
    a membership hypothesis (given the lemma on connection events). *)
Ltac in_trace := simpl; repeat first [left; reflexivity | right].

Ltac find_precedes prepend head skip :=
  try apply prepend;
  repeat first [ (eapply head; solve [in_trace]) | apply skip ].

Ltac split_in connecting H :=
  try (apply in_app_or in H as [H|H];
       [ by eapply connecting in H; [|eassumption] | ]);
  simpl in H; repeat (destruct H as [H|H]; [try discriminate H|]); try done.

End ClientSpec.

(** ** Concrete inputs *)

Module Examples.

Import Client.
Local Open Scope Z_scope.

Definition config : Config :=
  {| providerUrl := Some "https://sepolia.base.org";
     privateKey := Some "0x0123";
     multiSendContractAddress := Some Mock.executorAddress |}.

Definition config_without_executor : Config :=
  {| providerUrl := Some "https://sepolia.base.org";
     privateKey := Some "0x0123";
     multiSendContractAddress := None |}.

Definition no_options : Options.t :=
  {| Options.ethGasLimit := None; Options.tokenGasLimits := None;
     Options.gasPrice := None |}.

Definition lower_R1 : string := "0xe5c9d14d4d59ce293f3b5562c7ca7e19b0164df5".
Definition upper_R1 : string := "0xE5C9D14D4D59CE293F3B5562C7CA7E19B0164DF5".
Definition R2 : string := "0xad57aacad13d86daa8ad55f0e18b1b62377c0496".
Definition token_T : string := "0x132aad982184489d78420756785f9a395c14dd15".
Definition token_U : string := "0x2222222222222222222222222222222222222222".

(** A node that refuses the calls on [token_U] and reports [gasUsed] in its
    receipts. *)
Definition node (gasUsed : Z) : Mock.World :=
  {| Mock.injectedWallet := false; Mock.tokenBalance := 1000000000;
     Mock.tokenAllowance := 0; Mock.simulatedGas := 96394;
     Mock.receiptGas := gasUsed; Mock.blockHeight := 10;
     Mock.refusedTokens := [token_U] |}.

(** Two native entries whose recipients differ only in letter case. *)
Definition same_recipient_twice : TransactionGroups :=
  snd (addEthTransaction (E:=EthersModel.ethers) upper_R1 "0.00005"
    (snd (addEthTransaction (E:=EthersModel.ethers) lower_R1 "0.00001"
       empty_groups))).

(** The batch of [example.js]. *)
Definition example_batch : TransactionGroups :=
  snd (addErc20Transaction (E:=EthersModel.ethers) token_T R2 "100" (Some 6)
    (snd (addEthTransaction (E:=EthersModel.ethers) R2 "0.00005"
      (snd (addEthTransaction (E:=EthersModel.ethers) lower_R1 "0.00001"
         empty_groups))))).

(** The same batch with an entry of a second token, which the node refuses. *)
Definition two_token_batch : TransactionGroups :=
  snd (addErc20Transaction (E:=EthersModel.ethers) token_U R2 "7" (Some 6)
         example_batch).

(** An executor at address 1000 among accounts that accept every transfer,
    and a caller, account 1, holding 100 wei and 50 units of token 77, of
    which the executor may spend 30. *)
Definition executor : Executor.address := 1000%N.
Definition everyone_accepts : Executor.address -> N -> bool := fun _ _ => true.

Definition chain : Executor.State (T:=Ledger.t) :=
  {| Executor.balances := {[ 1%N := 100%N ]};
     Executor.tokens :=
       {| Ledger.holdings := {[ (77%N, 1%N) := 50%N ]};
          Ledger.approvals := {[ (77%N, 1%N, executor) := 30%N ]} |};
     Executor.logs := [] |}.

End Examples.


(** ** The executor as a whole: every way to call it *)

Module ExecutorCalls.

Import Executor ExecutorSpec.
Local Open Scope N_scope.

Section Contract.

Context {T : Type} `{Tok : IERC20 T}.
Variable this : address.
Variable accepts : address -> N -> bool.

(** [receive() external payable { revert("Direct ETH transfers not allowed"); }] *)
Definition receive : M (T:=T) unit :=
  revert (Require_failed "Direct ETH transfers not allowed").

(** [fallback() external payable { revert("Direct ETH transfers not allowed"); }] *)
Definition fallback : M (T:=T) unit :=
  revert (Require_failed "Direct ETH transfers not allowed").

(** What a transaction to the executor can ask for: one of the three entry
    points, empty calldata, or any other calldata. *)
Inductive Call :=
| MultiSendETH (recipients : list address) (amounts : list N)
| MultiSendToken (token : address) (recipients : list address) (amounts : list N)
| MultiTokenTransfer (tokens_ : list address) (recipient : address) (amounts : list N)
| EmptyCalldata
| OtherCalldata.

(** How a transaction ends: with the outcome of the function it ran, or,
    when value comes with a call of a function that is not payable, with a
    revert without data before any function runs. *)
Inductive Outcome :=
| Ran (r : result unit)
| Reverted_without_data.

Definition ran (run : result unit * State (T:=T)) : Outcome * State (T:=T) :=
  (Ran (fst run), snd run).

Definition without_value (msg_sender : address) (msg_value : N)
    (run : State (T:=T) -> result unit * State (T:=T)) (st : State)
    : Outcome * State :=
  if balance st msg_sender <? msg_value then (Ran (Reverted Out_of_funds), st)
  else if 0 <? msg_value then (Reverted_without_data, st)
  else ran (run st).

Definition external_call (st : State) (msg_sender : address) (msg_value : N)
    (c : Call) : Outcome * State :=
  match c with
  | MultiSendETH recipients amounts =>
      ran (call_multiSendETH this accepts st msg_sender msg_value recipients amounts)
  | MultiSendToken token recipients amounts =>
      without_value msg_sender msg_value
        (fun st => call_multiSendToken this st msg_sender token recipients amounts) st
  | MultiTokenTransfer tokens_ recipient amounts =>
      without_value msg_sender msg_value
        (fun st => call_multiTokenTransfer this st msg_sender tokens_ recipient amounts) st
  | EmptyCalldata => ran (transact this msg_sender msg_value receive st)
  | OtherCalldata => ran (transact this msg_sender msg_value fallback st)
  end.

(** The state after a sequence of transactions. *)
Definition run_calls (st : State) (calls : list (address * N * Call)) : State :=
  foldl (fun st '(msg_sender, msg_value, c) =>
           snd (external_call st msg_sender msg_value c)) st calls.

(** All the native value there is. *)
Definition total_supply (st : State (T:=T)) : N :=
  map_fold (fun _ v acc => v + acc) 0 (balances st).

End Contract.

End ExecutorCalls.

(** ** The manager as a whole: sequences of its synchronous operations *)

Module ManagerOps.

Import Client.
Local Open Scope Z_scope.

(** A call of one of the three synchronous operations. *)
Inductive Op :=
| AddEth (to_ value_ : string)
| AddErc20 (tokenAddress to_ value_ : string) (decimals_ : option Z)
| Clear.

Section Manager.

Context `{E : Ethers}.

(** [transactionGroups] after the call, returned or thrown. *)
Definition apply_op (op : Op) (g : TransactionGroups) : TransactionGroups :=
  match op with
  | AddEth to_ value_ => snd (addEthTransaction to_ value_ g)
  | AddErc20 tokenAddress to_ value_ decimals_ =>
      snd (addErc20Transaction tokenAddress to_ value_ decimals_ g)
  | Clear => snd (clearTransactions g)
  end.

(** Whether the call returns (rather than throws). *)
Definition returns (op : Op) (g : TransactionGroups) : bool :=
  match op with
  | AddEth to_ value_ =>
      match fst (addEthTransaction to_ value_ g) with
      | Return _ => true
      | Throw _ => false
      end
  | AddErc20 tokenAddress to_ value_ decimals_ =>
      match fst (addErc20Transaction tokenAddress to_ value_ decimals_ g) with
      | Return _ => true
      | Throw _ => false
      end
  | Clear => true
  end.

(** [transactionGroups] after a sequence of calls on a manager in state [g];
    a fresh manager is in state [empty_groups]. *)
Definition run_ops (ops : list Op) (g : TransactionGroups) : TransactionGroups :=
  foldl (fun g op => apply_op op g) g ops.

(** The shape every state of a manager has: the token keys are distinct valid
    addresses, every recipient is a valid address, native entries carry no
    decimals and token entries do. *)
Definition well_formed (g : TransactionGroups) : Prop :=
  NoDup (obj_keys (erc20 g)) /\
  Forall (fun k => isAddress k = true) (obj_keys (erc20 g)) /\
  Forall (fun tx => isAddress (to tx) = true /\ decimals tx = None) (eth g) /\
  Forall (fun '(_, tokenTxs) =>
            Forall (fun tx => isAddress (to tx) = true /\ is_Some (decimals tx))
                   tokenTxs)
         (erc20 g).

(** The number of queued entries after a sequence of calls, counted from
    the calls alone: a call of [clearTransactions] resets it, an add that
    returns raises it by one, an add that throws leaves it. *)
Fixpoint queued_after (ops : list Op) (g : TransactionGroups) (n : nat) : nat :=
  match ops with
  | [] => n
  | op :: ops' =>
      queued_after ops' (apply_op op g)
        match op with
        | Clear => 0%nat
        | _ => if returns op g then S n else n
        end
  end.

End Manager.

End ManagerOps.
(** ** What an operation asks of the network *)

Module AsyncSpec.

Import Client.
Local Open Scope Z_scope.

(** From any state and whatever the network answers, [m] only adds to the
    trace, and every event it adds satisfies [P]. *)
Definition only {W A} (P : Event -> Prop) (m : St W -> Result A * St W) : Prop :=
  forall s, exists evs, trace (snd (m s)) = trace s ++ evs /\ Forall P evs.

(** From any state whose memoized connection is [c], [m] only adds to the
    trace, every event it adds satisfies [P], and the memoized connection is
    [c] afterwards. *)
Definition while_connected {W A} (c : Connection) (P : Event -> Prop)
    (m : St W -> Result A * St W) : Prop :=
  forall s, connection s = Some c ->
    exists evs, trace (snd (m s)) = trace s ++ evs /\ Forall P evs /\
                connection (snd (m s)) = Some c.

(** The operations open to [estimateGas] on the queue [g]. *)
Definition estimate_event (options : Options.t) (g : TransactionGroups)
    (ev : Event) : Prop :=
  match ev with
  | EvGetSigner _ | EvNewWallet _ _ => True
  | EvGetFeeData _ => truthy_number (Options.gasPrice options) = false
  | EvEstimateETH recipients amounts v _ =>
      eth g <> [] /\ recipients = map to (eth g) /\
      amounts = map value (eth g) /\ v = total amounts
  | _ => False
  end.

(** The group of [tokenAddress] in the queue has entries, and [recipients]
    and [amounts] are its two columns. *)
Definition token_columns (g : TransactionGroups) (tokenAddress : string)
    (recipients : list string) (amounts : list Z) : Prop :=
  exists tokenTxs, In (tokenAddress, tokenTxs) (erc20 g) /\ tokenTxs <> [] /\
    recipients = map to tokenTxs /\ amounts = map value tokenTxs.

(** What [sendBatchTransaction] may simulate, approve and submit for the
    queue [g]. *)
Definition send_event (options : Options.t) (g : TransactionGroups)
    (ev : Event) : Prop :=
  match ev with
  | EvEstimateETH recipients amounts v _ =>
      eth g <> [] /\ recipients = map to (eth g) /\
      amounts = map value (eth g) /\ v = total amounts
  | EvSendETH recipients amounts txOptions _ =>
      eth g <> [] /\ recipients = map to (eth g) /\
      amounts = map value (eth g) /\
      TxOptions.value txOptions = Some (total amounts) /\
      TxOptions.gasPrice txOptions = price_override options
  | EvEstimateToken tokenAddress recipients amounts _ =>
      token_columns g tokenAddress recipients amounts
  | EvSendToken tokenAddress recipients amounts txOptions _ =>
      token_columns g tokenAddress recipients amounts /\
      TxOptions.value txOptions = None /\
      TxOptions.gasPrice txOptions = price_override options
  | EvApprove tokenAddress _ amount _ =>
      exists recipients amounts,
        token_columns g tokenAddress recipients amounts /\ amount = total amounts
  | EvBalanceOf tokenAddress _ _ | EvAllowance tokenAddress _ _ _ =>
      exists recipients amounts, token_columns g tokenAddress recipients amounts
  | EvGetFeeData _ => False
  | _ => True
  end.

(** Where the gas limit of a submission comes from. *)
Definition gas_limit_event (options : Options.t) (ev : Event) : Prop :=
  match ev with
  | EvEstimateETH _ _ _ _ => truthy_number (Options.ethGasLimit options) = false
  | EvSendETH _ _ txOptions _ =>
      truthy_number (Options.ethGasLimit options) = true ->
      Some (TxOptions.gasLimit txOptions) = Options.ethGasLimit options
  | EvEstimateToken tokenAddress _ _ _ =>
      truthy_number (token_gas_override options tokenAddress) = false
  | EvSendToken tokenAddress _ _ txOptions _ =>
      truthy_number (token_gas_override options tokenAddress) = true ->
      Some (TxOptions.gasLimit txOptions) = token_gas_override options tokenAddress
  | _ => True
  end.

(** The operations of the native multi-send. *)
Definition native_event (ev : Event) : Prop :=
  match ev with
  | EvEstimateETH _ _ _ _ | EvSendETH _ _ _ _ | EvWait _ _
  | EvConsole (SendingEth _ _) | EvConsole (EthSubmitted _) => True
  | _ => False
  end.

(** The operations of the token groups. *)
Definition token_event (ev : Event) : Prop :=
  match ev with
  | EvSignerAddress _ | EvBalanceOf _ _ _ | EvContractAddress _
  | EvAllowance _ _ _ _ | EvApprove _ _ _ _ | EvWait _ _
  | EvEstimateToken _ _ _ _ | EvSendToken _ _ _ _ _
  | EvConsole (Approving _) | EvConsole (ApprovalSubmitted _)
  | EvConsole ApprovalConfirmed | EvConsole (SendingToken _ _)
  | EvConsole (TokenSubmitted _) => True
  | _ => False
  end.

(** An operation of the native multi-send that threw. *)
Definition native_failure (ev : Event) : Prop :=
  match ev with
  | EvEstimateETH _ _ _ (Throw _) | EvSendETH _ _ _ (Throw _)
  | EvWait _ (Throw _) => True
  | _ => False
  end.

(** The number of recipients of each token receipt, in the order of the
    results. *)
Definition recipients_of (erc20Transactions : JsObject Info.t) : JsObject nat :=
  map (fun '(tokenAddress, info) => (tokenAddress, Info.recipients info))
      erc20Transactions.

(** The recipients of all the receipts of a result. *)
Definition recipients_reported (results : Results.t) : nat :=
  (from_option Info.recipients 0 (Results.ethTransaction results) +
   sum_list (map snd (recipients_of (Results.erc20Transactions results))))%nat.

(** One step of a proof of [only], given the lemmas on the monad. *)
Ltac only_step Hbind Htry Hret Hthrow Hio Hlog :=
  first
    [ match goal with
      | |- only ?P (bind (ret ?a) ?k) => change (only P (k a)); cbv beta
      end
    | apply Hret
    | apply Hthrow
    | apply Hlog
    | apply Hio; intros ?
    | apply Hbind; [|intros ?]
    | apply Htry; [|intros ?]
    | match goal with
      | |- only _ (if ?b then _ else _) => destruct b eqn:?
      end ].

Ltac only_auto Hbind Htry Hret Hthrow Hio Hlog :=
  repeat only_step Hbind Htry Hret Hthrow Hio Hlog.

(** The same for [while_connected]. *)
Ltac while_connected_step Hbind Htry Hret Hthrow Hio Hlog :=
  first
    [ apply Hret
    | apply Hthrow
    | apply Hlog
    | apply Hio; intros ?
    | apply Hbind; [|intros ?]
    | apply Htry; [|intros ?]
    | match goal with
      | |- while_connected _ _ (if ?b then _ else _) => destruct b eqn:?
      end ].

Ltac connected_auto Hbind Htry Hret Hthrow Hio Hlog :=
  repeat while_connected_step Hbind Htry Hret Hthrow Hio Hlog.

(** An operation that threw. *)
Definition threw (ev : Event) : Prop :=
  match ev with
  | EvGetSigner (Throw _) | EvNewWallet _ (Throw _) | EvGetFeeData (Throw _)
  | EvSignerAddress (Throw _) | EvContractAddress (Throw _)
  | EvBalanceOf _ _ (Throw _) | EvAllowance _ _ _ (Throw _)
  | EvApprove _ _ _ (Throw _) | EvWait _ (Throw _)
  | EvEstimateETH _ _ _ (Throw _) | EvSendETH _ _ _ (Throw _)
  | EvEstimateToken _ _ _ (Throw _) | EvSendToken _ _ _ _ (Throw _) => True
  | _ => False
  end.

(** No operation of [evs] threw, or the last one did, and [r] is an error. *)
Definition ends_at_failure {A} (evs : list Event) (r : Result A) : Prop :=
  Forall (fun ev => ~ threw ev) evs \/
  exists pre ev message,
    evs = pre ++ [ev] /\ Forall (fun ev => ~ threw ev) pre /\ threw ev /\
    r = Throw message.

(** From any state, [m] only adds to the trace, and what it adds ends at the
    first operation that throws. *)
Definition stops_at_failure {W A} (m : St W -> Result A * St W) : Prop :=
  forall s, exists evs,
    trace (snd (m s)) = trace s ++ evs /\ ends_at_failure evs (fst (m s)).

(** One step of a proof of [stops_at_failure], given the lemmas on the
    monad. *)
Ltac stops_step Hbind Htry Hret Hthrow Hio Hlog :=
  first
    [ apply Hret
    | apply Hthrow
    | apply Hlog
    | apply Hio; intros [?|?]; simpl;
      (split; [first [by intros []|intros _; by eexists]|by intros [? ?]])
    | apply Hbind; [|intros ?]
    | apply Htry
    | match goal with
      | |- stops_at_failure (if ?b then _ else _) => destruct b eqn:?
      end ].

Ltac stops_auto Hbind Htry Hret Hthrow Hio Hlog :=
  repeat stops_step Hbind Htry Hret Hthrow Hio Hlog.

End AsyncSpec.

(** ** The balance check *)

(** [checkErc20Balances] of [createBatchManager].  It asks each token for
    its [decimals()], an operation the other functions do not use, so its
    trace has one more kind of event. *)
Module Checker.

Import Client.
Local Open Scope Z_scope.

(** [ethers.formatUnits(value, unit)]; the unit may be [undefined] and the
    call may throw. *)
Class Units := {
  formatUnits : Z -> option Z -> Result string
}.

(** [tokenContract.decimals()] *)
Class TokenMetadata (W : Type) := {
  token_decimals : string -> W -> Result Z * W
}.

Module Balance.
(** One entry of the results; [balance] and [required] stand for their
    decimal renderings. *)
Record t := {
  address : string;
  balance : Z;
  balanceFormatted : string;
  required : Z;
  requiredFormatted : string;
  sufficient : bool;
  recipients : nat
}.
End Balance.

(** The events of the manager, and the call of [decimals()]. *)
Inductive Event :=
| Shared (ev : Client.Event)
| EvDecimals (token : string) (r : Result Z).

Record St (W : Type) := {
  world : W;
  trace : list Event;
  connection : option Connection
}.
Arguments world {W} s.
Arguments trace {W} s.
Arguments connection {W} s.

Section Async.

Context `{E : Ethers} `{U : Units} {W : Type} `{Net : Network W}
        `{Meta : TokenMetadata W}.

Variable config : Config.

Definition Check (A : Type) : Type := St W -> Result A * St W.

Definition ret {A} (a : A) : Check A := fun s => (Return a, s).

Definition bind {A B} (m : Check A) (k : A -> Check B) : Check B :=
  fun s =>
    match m s with
    | (Return a, s') => k a s'
    | (Throw message, s') => (Throw message, s')
    end.

Notation "x <- m ;; k" := (bind m (fun x => k))
  (at level 100, m at next level, right associativity).
Notation "m ;; k" := (bind m (fun _ => k))
  (at level 100, right associativity).

(** [try { body } catch (e) { handler }] *)
Definition try_catch {A} (body : Check A) (handler : string -> Check A)
    : Check A :=
  fun s =>
    match body s with
    | (Return a, s') => (Return a, s')
    | (Throw message, s') => handler message s'
    end.

(** A value computed by a call that may throw. *)
Definition lift {A} (r : Result A) : Check A := fun s => (r, s).

(** An operation of the manager: it runs on the same world and the same
    memoized connection, and its events go to the trace. *)
Definition shared {A} (m : Client.St W -> Result A * Client.St W) : Check A :=
  fun s =>
    let '(r, s') := m {| Client.world := world s; Client.trace := [];
                         Client.connection := connection s |} in
    (r, {| world := Client.world s';
           trace := trace s ++ map Shared (Client.trace s');
           connection := Client.connection s' |}).

Definition decimals_io (tokenAddress : string) : Check Z :=
  fun s =>
    let '(r, w) := token_decimals tokenAddress (world s) in
    (r, {| world := w; trace := trace s ++ [EvDecimals tokenAddress r];
           connection := connection s |}).

(** [tokenTxs[0].decimals] *)
Definition first_decimals (tokenTxs : list Tx) : option Z :=
  match tokenTxs with
  | tx :: _ => decimals tx
  | [] => None
  end.

(** The body of the loop, for a group with entries. *)
Definition checkGroup (signerAddress tokenAddress : string) (tokenTxs : list Tx)
    : Check Balance.t :=
  let totalAmount := total (map value tokenTxs) in
  decimals <- try_catch (d <- decimals_io tokenAddress ;; ret (Some d))
                        (fun _ => ret (first_decimals tokenTxs)) ;;
  balance <- shared (io (token_balanceOf tokenAddress signerAddress)
                        (EvBalanceOf tokenAddress signerAddress)) ;;
  balanceFormatted <- lift (formatUnits balance decimals) ;;
  requiredFormatted <- lift (formatUnits totalAmount decimals) ;;
  ret {| Balance.address := tokenAddress;
         Balance.balance := balance;
         Balance.balanceFormatted := balanceFormatted;
         Balance.required := totalAmount;
         Balance.requiredFormatted := requiredFormatted;
         Balance.sufficient := balance >=? totalAmount;
         Balance.recipients := length tokenTxs |}.

(** [for (const tokenAddress in transactionGroups.erc20) { ... }], threading
    [results]. *)
Fixpoint checkGroups (signerAddress : string) (groups : JsObject (list Tx))
    (results : JsObject Balance.t) : Check (JsObject Balance.t) :=
  match groups with
  | [] => ret results
  | (tokenAddress, tokenTxs) :: groups' =>
      if (0 <? length tokenTxs)%nat then
        entry <- checkGroup signerAddress tokenAddress tokenTxs ;;
        checkGroups signerAddress groups' (obj_set tokenAddress entry results)
      else checkGroups signerAddress groups' results
  end.

Definition checkErc20Balances (g : TransactionGroups)
    : Check (JsObject Balance.t) :=
  shared (getConnection config) ;;
  signerAddress <- shared (io signer_getAddress EvSignerAddress) ;;
  checkGroups signerAddress (erc20 g) [].

End Async.

(** What [checkErc20Balances] may ask for the queue [g]. *)
Definition check_event (g : TransactionGroups) (ev : Event) : Prop :=
  match ev with
  | Shared (EvGetSigner _) | Shared (EvNewWallet _ _)
  | Shared (EvSignerAddress _) => True
  | Shared (EvBalanceOf tokenAddress _ _) | EvDecimals tokenAddress _ =>
      exists tokenTxs, In (tokenAddress, tokenTxs) (erc20 g) /\ tokenTxs <> []
  | _ => False
  end.

(** The entry of a group is made of the group, the balance [b] and the unit
    [unit]. *)
Definition entry_of `{U : Units} (tokenAddress : string) (tokenTxs : list Tx)
    (b : Z) (unit : option Z) (entry : Balance.t) : Prop :=
  let required := total (map value tokenTxs) in
  Balance.address entry = tokenAddress /\
  Balance.balance entry = b /\
  Balance.required entry = required /\
  Balance.recipients entry = length tokenTxs /\
  Balance.sufficient entry = negb (b <? required) /\
  formatUnits b unit = Return (Balance.balanceFormatted entry) /\
  formatUnits required unit = Return (Balance.requiredFormatted entry).

(** The unit used for a token: what [decimals()] answered, and the
    [decimals] of the first entry of the group when it threw. *)
Definition unit_of (tokenAddress : string) (tokenTxs : list Tx)
    (evs : list Event) (unit : option Z) : Prop :=
  (exists d, In (EvDecimals tokenAddress (Return d)) evs /\ unit = Some d) \/
  (exists message, In (EvDecimals tokenAddress (Throw message)) evs /\
     unit = first_decimals tokenTxs).

(** The entry reported for a group, given the events of the check. *)
Definition reported `{U : Units} (signerAddress : string) (evs : list Event)
    (group : string * list Tx) (result : string * Balance.t) : Prop :=
  let '(tokenAddress, tokenTxs) := group in
  let '(key, entry) := result in
  key = tokenAddress /\
  In (Shared (EvBalanceOf tokenAddress signerAddress
                (Return (Balance.balance entry)))) evs /\
  exists unit, unit_of tokenAddress tokenTxs evs unit /\
    entry_of tokenAddress tokenTxs (Balance.balance entry) unit entry.

(** From any state and whatever the network answers, [m] only adds to the
    trace, and every event it adds satisfies [P]. *)
Definition only {W A} (P : Event -> Prop) (m : St W -> Result A * St W) : Prop :=
  forall s, exists evs, trace (snd (m s)) = trace s ++ evs /\ Forall P evs.

End Checker.

(** ** More concrete collaborators *)

Module Scenarios.

Import Client.
Local Open Scope Z_scope.

(** The node of [Mock.network], except that its simulation of the native
    multi-send reverts. *)
Definition reverting_simulation : Network Mock.World :=
  {| hasWindowEthereum := hasWindowEthereum (Network:=Mock.network);
     provider_getSigner := provider_getSigner (Network:=Mock.network);
     new_Wallet := new_Wallet (Network:=Mock.network);
     provider_getFeeData := provider_getFeeData (Network:=Mock.network);
     signer_getAddress := signer_getAddress (Network:=Mock.network);
     contract_getAddress := contract_getAddress (Network:=Mock.network);
     token_balanceOf := token_balanceOf (Network:=Mock.network);
     token_allowance := token_allowance (Network:=Mock.network);
     token_approve := token_approve (Network:=Mock.network);
     tx_wait := tx_wait (Network:=Mock.network);
     multiSendETH_estimateGas := fun _ _ _ w => (Throw "execution reverted", w);
     multiSendETH_send := multiSendETH_send (Network:=Mock.network);
     multiSendToken_estimateGas := multiSendToken_estimateGas (Network:=Mock.network);
     multiSendToken_send := multiSendToken_send (Network:=Mock.network) |}.

(** A browser with an injected wallet, and a configuration that names the
    executor and nothing else. *)
Definition browser : Mock.World :=
  {| Mock.injectedWallet := true; Mock.tokenBalance := 1000000000;
     Mock.tokenAllowance := 0; Mock.simulatedGas := 96394;
     Mock.receiptGas := 90000; Mock.blockHeight := 10;
     Mock.refusedTokens := [] |}.

Definition config_for_browser : Config :=
  {| providerUrl := None; privateKey := None;
     multiSendContractAddress := Some Mock.executorAddress |}.

(** [formatUnits] through the decimal syntax of [FixedNumber]; without a
    unit, 18 decimals. *)
Definition units : Checker.Units :=
  {| Checker.formatUnits := fun v unit =>
       Return (EthersModel.format_units v (Z.to_nat (default 18 unit))) |}.

(** Every token answers 6 to [decimals()], except the tokens the node
    refuses, whose [decimals()] reverts. *)
Definition metadata : Checker.TokenMetadata Mock.World :=
  {| Checker.token_decimals := fun token w =>
       if Mock.refuses w token then (Throw "execution reverted", w)
       else (Return 6, w) |}.

Definition start (w : Mock.World) : Checker.St Mock.World :=
  {| Checker.world := w; Checker.trace := []; Checker.connection := None |}.

End Scenarios.

(** ** Proofs: the executor *)

Module ExecutorProofs.
Import Executor ExecutorSpec.
Local Open Scope N_scope.

Section Contract.
Context {T : Type} `{Tok : IERC20 T}.
Variable this : address.
Variable accepts : address -> N -> bool.

Local Abbreviation state := (@State T).

Lemma sum_from_spec (rest : list N) : forall (pre : list N) (acc : N) (st : state),
  acc <= MAX_UINT256 ->
  sum_from (length pre) (length rest) (pre ++ rest) acc st =
  if acc + sum_amounts rest <=? MAX_UINT256
  then Success (acc + sum_amounts rest, st)
  else Reverted (Panic 17).
Proof.
  induction rest as [|a rest IH]; intros pre acc st Hacc; simpl.
  - rewrite N.add_0_r. apply N.leb_le in Hacc. by rewrite Hacc.
  - unfold bind, index. rewrite lookup_app_r by lia.
    replace (length pre - length pre)%nat with 0%nat by lia. simpl.
    unfold checked_add.
    destruct (acc + a <=? MAX_UINT256) eqn:Hle; simpl.
    + specialize (IH (pre ++ [a]) (acc + a) st).
      rewrite length_app in IH. simpl in IH.
      replace (length pre + 1)%nat with (S (length pre)) in IH by lia.
      rewrite <- app_assoc in IH. simpl in IH.
      rewrite IH by (by apply N.leb_le).
      by rewrite N.add_assoc.
    + apply N.leb_gt in Hle.
      destruct (acc + (a + sum_amounts rest) <=? MAX_UINT256) eqn:Hle'; [|done].
      apply N.leb_le in Hle'. lia.
Qed.

Lemma sum_loop_spec (amounts : list N) (st : state) :
  sum_from 0 (length amounts) amounts 0 st =
  if sum_amounts amounts <=? MAX_UINT256
  then Success (sum_amounts amounts, st)
  else Reverted (Panic 17).
Proof.
  apply (sum_from_spec amounts [] 0 st). unfold MAX_UINT256. lia.
Qed.

Lemma for_range_drop {A B} (xs : list A) (ys : list B) (body : nat -> M (T:=T) unit)
    (step : A -> B -> M (T:=T) unit) :
  (forall i x y st, xs !! i = Some x -> ys !! i = Some y ->
     body i st = step x y st) ->
  length xs = length ys ->
  forall n i st, (i + n = length xs)%nat ->
    for_range i n body st = each step (drop i (zip xs ys)) st.
Proof.
  intros Hbody Hlen n. induction n as [|n IH]; intros i st Hi; simpl.
  - rewrite drop_ge; [done|]. rewrite length_zip_with. lia.
  - destruct (lookup_lt_is_Some_2 xs i) as [x Hx]; [lia|].
    destruct (lookup_lt_is_Some_2 ys i) as [y Hy]; [lia|].
    assert (Hz : zip xs ys !! i = Some (x, y)).
    { rewrite lookup_zip_with, Hx. simpl. by rewrite Hy. }
    rewrite (drop_S _ _ _ Hz). simpl. unfold bind.
    rewrite (Hbody i x y st Hx Hy).
    destruct (step x y st) as [[[] st']|r]; [|done].
    apply IH. lia.
Qed.

Lemma for_range_zip {A B} (xs : list A) (ys : list B) (body : nat -> M (T:=T) unit)
    (step : A -> B -> M (T:=T) unit) (st : state) :
  (forall i x y st, xs !! i = Some x -> ys !! i = Some y ->
     body i st = step x y st) ->
  length xs = length ys ->
  for_range 0 (length xs) body st = each step (zip xs ys) st.
Proof.
  intros Hbody Hlen.
  rewrite (for_range_drop xs ys body step Hbody Hlen (length xs) 0%nat st); [done|lia].
Qed.


Lemma balance_set_balance (st : state) (a x : address) (v : N) :
  balance (set_balance a v st) x = if x =? a then v else balance st x.
Proof.
  unfold balance, set_balance. simpl.
  destruct (N.eqb_spec x a) as [->|Hne].
  - by rewrite lookup_insert_eq.
  - by rewrite lookup_insert_ne.
Qed.

Lemma eth_step_inv (r : address) (a : N) (st st' : state) :
  eth_step this accepts r a st = Success (tt, st') ->
  r <> zero_address /\ r <> this /\ accepts r a = true /\ a <= balance st this /\
  st' = credit r a (debit this a st).
Proof.
  unfold eth_step, bind, require, call_value, ret, revert.
  destruct (N.eqb_spec r zero_address) as [|Hz]; simpl; [done|].
  destruct (N.ltb_spec (balance st this) a); simpl; [done|].
  destruct (N.eqb_spec r this); simpl; [done|].
  destruct (accepts r a); simpl; [|done].
  intros [= <-]. done.
Qed.

Lemma eth_step_ok (r : address) (a : N) (st : state) :
  r <> zero_address -> r <> this -> accepts r a = true -> a <= balance st this ->
  eth_step this accepts r a st = Success (tt, credit r a (debit this a st)).
Proof.
  intros Hz Ht Ha Hb.
  unfold eth_step, bind, require, call_value, ret, revert.
  destruct (N.eqb_spec r zero_address); [done|]. simpl.
  destruct (N.ltb_spec (balance st this) a); [lia|].
  destruct (N.eqb_spec r this); [done|].
  by rewrite Ha.
Qed.

Lemma each_eth_inv (entries : list (address * N)) : forall (st st' : state),
  each (eth_step this accepts) entries st = Success (tt, st') ->
  Forall (fun '(r, a) => r <> zero_address /\ ~ transfer_fails this accepts r a) entries.
Proof.
  induction entries as [|[r a] entries IH]; intros st st' Hrun; [constructor|].
  simpl in Hrun. unfold bind in Hrun.
  destruct (eth_step this accepts r a st) as [[[] st1]|rv] eqn:Hstep; [|done].
  apply eth_step_inv in Hstep as (Hz & Ht & Ha & _ & _).
  constructor; [|by eapply IH].
  split; [done|]. intros [?|?]; congruence.
Qed.

Lemma each_eth_ok (entries : list (address * N)) : forall (st : state),
  Forall (fun '(r, a) => r <> zero_address /\ ~ transfer_fails this accepts r a) entries ->
  sum_amounts (map snd entries) <= balance st this ->
  exists st', each (eth_step this accepts) entries st = Success (tt, st') /\
    tokens st' = tokens st /\ logs st' = logs st /\
    forall x, balance st' x + (if x =? this then sum_amounts (map snd entries) else 0)
              = balance st x + received x entries.
Proof.
  induction entries as [|[r a] entries IH]; intros st Hall Hbal; simpl in *.
  - exists st. repeat split; try done. intros x. destruct (x =? this); lia.
  - apply Forall_cons in Hall as [[Hz Hnf] Hall'].
    assert (Ht : r <> this) by (intros ->; apply Hnf; by left).
    assert (Ha : accepts r a = true).
    { destruct (accepts r a) eqn:Ha; [done|]. exfalso. apply Hnf. by right. }
    unfold bind. rewrite eth_step_ok by (try done; lia).
    set (st1 := credit r a (debit this a st)).
    assert (Hb1 : forall x, balance st1 x =
              if x =? r then balance st r + a
              else if x =? this then balance st this - a else balance st x).
    { intros x. unfold st1, credit, debit. rewrite !balance_set_balance.
      destruct (N.eqb_spec x r) as [->|]; [|done].
      destruct (N.eqb_spec r this); done. }
    assert (Hrest : sum_amounts (map snd entries) <= balance st1 this).
    { rewrite Hb1. destruct (N.eqb_spec this r); [congruence|].
      rewrite N.eqb_refl. lia. }
    destruct (IH st1 Hall' Hrest) as (st' & Hrun & Htok & Hlog & Hbal').
    exists st'. repeat split; try done.
    intros x. specialize (Hbal' x). rewrite Hb1 in Hbal'.
    rewrite (N.eqb_sym r x). revert Hbal'.
    destruct (N.eqb_spec x r) as [Hxr|Hxr].
    + destruct (N.eqb_spec x this); [congruence|]. rewrite Hxr. lia.
    + destruct (N.eqb_spec x this) as [Hxt|Hxt]; [rewrite Hxt|]; lia.
Qed.


(** [multiSendETH] with its two loops replaced by what they compute. *)
Lemma multiSendETH_body (msg_sender : address) (msg_value : N)
    (recipients : list address) (amounts : list N) (st : state) :
  multiSendETH this accepts msg_sender msg_value recipients amounts st =
  if negb (length recipients =? length amounts)%nat then
    Reverted (Require_failed "Recipients and amounts arrays must be the same length")
  else if negb (0 <? length recipients)%nat then
    Reverted (Require_failed "Must provide at least one recipient")
  else if negb (sum_amounts amounts <=? MAX_UINT256) then Reverted (Panic 17)
  else if negb (msg_value =? sum_amounts amounts) then
    Reverted (Require_failed "Sent ETH value must match total amount")
  else
    match each (eth_step this accepts) (zip recipients amounts) st with
    | Success (_, st') =>
        emit (MultiSendExecuted msg_sender zero_address (sum_amounts amounts)
                (N.of_nat (length recipients))) st'
    | Reverted r => Reverted r
    end.
Proof.
  unfold multiSendETH, bind at 1, require at 1.
  destruct (Nat.eqb_spec (length recipients) (length amounts)) as [Hlen|]; simpl; [|done].
  unfold bind at 1, require at 1.
  destruct (0 <? length recipients)%nat; simpl; [|done].
  unfold bind at 1. rewrite sum_loop_spec.
  destruct (sum_amounts amounts <=? MAX_UINT256); simpl; [|done].
  unfold bind at 1, require at 1.
  destruct (msg_value =? sum_amounts amounts); simpl; [|done].
  unfold bind at 1.
  rewrite (for_range_zip recipients amounts _ (eth_step this accepts)); [|clear st|done].
  - by destruct (each _ _ st) as [[[] st']|r].
  - intros i r a st Hr Ha. unfold eth_step, bind, index. rewrite Hr. simpl.
    destruct (require _ _ st) as [[[] st1]|rv]; [|done].
    by rewrite Ha.
Qed.

Lemma zip_elem_of_l {A B} (xs : list A) (ys : list B) (x : A) :
  length xs = length ys -> x ∈ xs -> exists y, (x, y) ∈ zip xs ys.
Proof.
  intros Hlen Hx. apply list_elem_of_lookup in Hx as [i Hi].
  destruct (lookup_lt_is_Some_2 ys i) as [y Hy].
  { rewrite <- Hlen. by eapply lookup_lt_Some. }
  exists y. apply list_elem_of_lookup. exists i.
  rewrite lookup_zip_with, Hi. simpl. by rewrite Hy.
Qed.

Lemma sum_amounts_zip (recipients : list address) (amounts : list N) :
  length recipients = length amounts ->
  sum_amounts (map snd (zip recipients amounts)) = sum_amounts amounts.
Proof.
  intros Hlen. by rewrite <- (snd_zip recipients amounts) at 2 by lia.
Qed.

Lemma balance_fund (st : state) (msg_sender : address) (msg_value : N) (x : address) :
  msg_value <= balance st msg_sender ->
  balance (credit this msg_value (debit msg_sender msg_value st)) x
    + (if x =? msg_sender then msg_value else 0)
  = balance st x + (if x =? this then msg_value else 0).
Proof.
  intros Hfund. unfold credit, debit. rewrite !balance_set_balance.
  destruct (N.eqb_spec x this) as [->|Hxt].
  - destruct (N.eqb_spec this msg_sender) as [<-|]; lia.
  - destruct (N.eqb_spec x msg_sender) as [->|]; lia.
Qed.

(** A call of [multiSendETH] that is to revert does, and the state is the
    one before the call. *)
Lemma multiSendETH_reverts (st : state) (msg_sender : address)
    (msg_value : N) (recipients : list address) (amounts : list N) :
  msg_value <= balance st msg_sender ->
  must_revert this accepts msg_value recipients amounts ->
  exists r, call_multiSendETH this accepts st msg_sender msg_value recipients amounts
            = (Reverted r, st).
Proof.
  intros Hfund Hbad.
  unfold call_multiSendETH, transact.
  destruct (N.ltb_spec (balance st msg_sender) msg_value) as [|_]; [lia|].
  rewrite multiSendETH_body.
  set (st1 := credit this msg_value (debit msg_sender msg_value st)).
  destruct (Nat.eqb_spec (length recipients) (length amounts)) as [Hlen|]; simpl; [|eauto].
  destruct (Nat.ltb_spec 0 (length recipients)) as [Hpos|]; simpl; [|eauto].
  destruct (N.leb_spec (sum_amounts amounts) MAX_UINT256); simpl; [|eauto].
  destruct (N.eqb_spec msg_value (sum_amounts amounts)) as [Hval|]; simpl; [|eauto].
  destruct (each _ _ st1) as [[[] st']|r] eqn:Hrun; [|eauto].
  exfalso. apply each_eth_inv in Hrun.
  destruct Hbad as [?|[?|[?|[Hzero|Hfail]]]]; [done|lia|done| |].
  - destruct (zip_elem_of_l recipients amounts _ Hlen Hzero) as [a Ha].
    rewrite Forall_forall in Hrun. by destruct (Hrun _ Ha).
  - apply Exists_exists in Hfail as ([r a] & Hin & Hf).
    rewrite Forall_forall in Hrun. by destruct (Hrun _ Hin).
Qed.

(** Every other call pays every entry and announces it once. *)
Lemma multiSendETH_pays (st : state) (msg_sender : address)
    (msg_value : N) (recipients : list address) (amounts : list N) :
  msg_value <= MAX_UINT256 ->
  msg_value <= balance st msg_sender ->
  ~ must_revert this accepts msg_value recipients amounts ->
  exists st',
    call_multiSendETH this accepts st msg_sender msg_value recipients amounts
      = (Success tt, st') /\
    (forall x, balance st' x + (if x =? msg_sender then msg_value else 0)
               = balance st x + received x (zip recipients amounts)) /\
    logs st' = logs st ++ [MultiSendExecuted msg_sender zero_address
                             (sum_amounts amounts) (N.of_nat (length recipients))] /\
    tokens st' = tokens st.
Proof.
  intros Hmax Hfund Hgood.
  unfold call_multiSendETH, transact.
  destruct (N.ltb_spec (balance st msg_sender) msg_value) as [|_]; [lia|].
  rewrite multiSendETH_body.
  set (st1 := credit this msg_value (debit msg_sender msg_value st)).
  assert (Hlen : length recipients = length amounts).
  { destruct (decide (length recipients = length amounts)); [done|].
    exfalso. apply Hgood. by left. }
  assert (Hpos : length recipients <> 0%nat).
  { intros ?. apply Hgood. right. by left. }
  assert (Hval : msg_value = sum_amounts amounts).
  { destruct (decide (msg_value = sum_amounts amounts)); [done|].
    exfalso. apply Hgood. do 2 right. by left. }
  assert (Hall : Forall (fun '(r, a) =>
             r <> zero_address /\ ~ transfer_fails this accepts r a)
             (zip recipients amounts)).
  { apply Forall_forall. intros [r a] Hin. split.
    - intros ->. apply Hgood. do 3 right. left. by eapply elem_of_zip_l.
    - intros Hf. apply Hgood. do 4 right. apply Exists_exists. by exists (r, a). }
  destruct (Nat.eqb_spec (length recipients) (length amounts)); [|done]. simpl.
  destruct (Nat.ltb_spec 0 (length recipients)); [|lia]. simpl.
  destruct (N.leb_spec (sum_amounts amounts) MAX_UINT256); [|lia]. simpl.
  destruct (N.eqb_spec msg_value (sum_amounts amounts)); [|done]. simpl.
  destruct (each_eth_ok (zip recipients amounts) st1 Hall)
    as (st' & Hrun & Htok & Hlog & Hbal).
  { rewrite sum_amounts_zip by done. unfold st1, credit.
    rewrite balance_set_balance, N.eqb_refl. lia. }
  rewrite Hrun. unfold emit. eexists. split; [reflexivity|]. simpl.
  split; [|split].
  - intros x. specialize (Hbal x). rewrite sum_amounts_zip in Hbal by done.
    pose proof (balance_fund st msg_sender msg_value x Hfund) as Hf.
    fold st1 in Hf. unfold balance in *. simpl.
    destruct (x =? msg_sender), (x =? this); lia.
  - by rewrite Hlog.
  - by rewrite Htok.
Qed.

(** C2: a call of [multiSendETH] by a caller that can pay the attached value
    reverts, leaving the state as it was, when the two arrays differ in
    length, when they are empty, when the attached value is not the exact sum
    of the amounts, when a recipient is the zero address or when a transfer
    fails.  Otherwise it succeeds: every account gains what the entries
    addressed to it add up to (the caller paid the attached value) and
    exactly one event is appended, carrying the sum and the number of
    recipients. *)
Theorem multiSendETH_all_or_nothing (st : state) (msg_sender : address)
    (msg_value : N) (recipients : list address) (amounts : list N) :
  msg_value <= MAX_UINT256 ->
  msg_value <= balance st msg_sender ->
  (must_revert this accepts msg_value recipients amounts ->
   exists r, call_multiSendETH this accepts st msg_sender msg_value recipients amounts
             = (Reverted r, st)) /\
  (~ must_revert this accepts msg_value recipients amounts ->
   exists st',
     call_multiSendETH this accepts st msg_sender msg_value recipients amounts
       = (Success tt, st') /\
     (forall x, balance st' x + (if x =? msg_sender then msg_value else 0)
                = balance st x + received x (zip recipients amounts)) /\
     logs st' = logs st ++ [MultiSendExecuted msg_sender zero_address
                              (sum_amounts amounts) (N.of_nat (length recipients))] /\
     tokens st' = tokens st).
Proof.
  intros Hmax Hfund. split.
  - intros Hbad. by apply multiSendETH_reverts.
  - intros Hgood. by apply multiSendETH_pays.
Qed.

(** *** The token entry points *)

Lemma token_step_spec (msg_sender token r : address) (a : N) (st : state) :
  token_step this msg_sender token r a st =
  if negb (r =? zero_address) && (0 <? a) then
    match transferFrom (tokens st) token this msg_sender r a with
    | Some t' => Success (tt, {| balances := balances st; tokens := t'; logs := logs st |})
    | None => Reverted Token_call_failed
    end
  else Reverted (Require_failed
         (if r =? zero_address then "Invalid recipient address"
          else "Amount must be greater than 0")).
Proof.
  unfold token_step, bind, require, ret, revert, safeTransferFrom.
  destruct (r =? zero_address); simpl; [done|].
  by destruct (0 <? a).
Qed.

Lemma each_token_spec (msg_sender token : address) (entries : list (address * N)) :
  forall (st st' : state),
  each (token_step this msg_sender token) entries st = Success (tt, st') <->
  Forall (fun '(r, a) => r <> zero_address /\ 0 < a) entries /\
  exists t', transfer_all this token msg_sender entries (tokens st) = Some t' /\
    st' = {| balances := balances st; tokens := t'; logs := logs st |}.
Proof.
  induction entries as [|[r a] entries IH]; intros st st'; simpl.
  - unfold ret. split.
    + intros [= <-]. split; [constructor|]. exists (tokens st). by destruct st.
    + intros (_ & t' & [= <-] & ->). by destruct st.
  - unfold bind. rewrite token_step_spec.
    destruct (N.eqb_spec r zero_address) as [Hz|Hz]; simpl.
    { split; [done|]. intros (Hall & _). apply Forall_cons in Hall as [[? _] _]. done. }
    destruct (N.ltb_spec 0 a) as [Hpos|Hpos]; simpl.
    2:{ split; [done|]. intros (Hall & _). apply Forall_cons in Hall as [[_ ?] _]. lia. }
    destruct (transferFrom (tokens st) token this msg_sender r a) as [t1|] eqn:Htr.
    2:{ split; [done|]. by intros (_ & t' & ? & _). }
    rewrite IH. simpl. split.
    + intros (Hall & t' & Ht' & ->). split; [by constructor|]. by exists t'.
    + intros (Hall & t' & Ht' & ->). apply Forall_cons in Hall as [_ Hall].
      split; [done|]. by exists t'.
Qed.

(** [multiSendToken] with its two loops replaced by what they compute. *)
Lemma multiSendToken_body (msg_sender token : address)
    (recipients : list address) (amounts : list N) (st : state) :
  multiSendToken this msg_sender token recipients amounts st =
  if token =? zero_address then Reverted (Require_failed "Invalid token address")
  else if negb (length recipients =? length amounts)%nat then
    Reverted (Require_failed "Recipients and amounts arrays must be the same length")
  else if negb (0 <? length recipients)%nat then
    Reverted (Require_failed "Must provide at least one recipient")
  else if negb (sum_amounts amounts <=? MAX_UINT256) then Reverted (Panic 17)
  else
    match allowance (tokens st) token msg_sender this with
    | None => Reverted Token_call_failed
    | Some allowed =>
        if negb (sum_amounts amounts <=? allowed) then
          Reverted (Require_failed "Insufficient token allowance")
        else
          match each (token_step this msg_sender token) (zip recipients amounts) st with
          | Success (_, st') =>
              emit (MultiSendExecuted msg_sender token (sum_amounts amounts)
                      (N.of_nat (length recipients))) st'
          | Reverted r => Reverted r
          end
    end.
Proof.
  unfold multiSendToken, bind at 1, require at 1.
  destruct (token =? zero_address); simpl; [done|].
  unfold bind at 1, require at 1.
  destruct (Nat.eqb_spec (length recipients) (length amounts)) as [Hlen|]; simpl; [|done].
  unfold bind at 1, require at 1.
  destruct (0 <? length recipients)%nat; simpl; [|done].
  unfold bind at 1. rewrite sum_loop_spec.
  destruct (sum_amounts amounts <=? MAX_UINT256); simpl; [|done].
  unfold bind at 1, erc20_allowance.
  destruct (allowance (tokens st) token msg_sender this) as [allowed|]; [|done].
  unfold bind at 1, require at 1.
  destruct (sum_amounts amounts <=? allowed); simpl; [|done].
  unfold bind at 1.
  rewrite (for_range_zip recipients amounts _ (token_step this msg_sender token));
    [|clear st|done].
  - by destruct (each _ _ st) as [[[] st']|r].
  - intros i r a st Hr Ha. unfold token_step, bind, index. rewrite Hr. simpl.
    destruct (require _ _ st) as [[[] st1]|rv]; [|done].
    by rewrite Ha.
Qed.

Lemma call_nonpayable_reverts (body : M (T:=T) unit) (st : state) (r : Revert) :
  body st = Reverted r -> call_nonpayable body st = (Reverted r, st).
Proof. unfold call_nonpayable. by intros ->. Qed.

Lemma call_nonpayable_outcome (body : M (T:=T) unit) (st : state) :
  (exists st', body st = Success (tt, st') /\ call_nonpayable body st = (Success tt, st')) \/
  (exists r, body st = Reverted r /\ call_nonpayable body st = (Reverted r, st)).
Proof.
  unfold call_nonpayable. destruct (body st) as [[[] st']|r]; eauto.
Qed.

Lemma call_nonpayable_success (body : M (T:=T) unit) (st st' : state) :
  call_nonpayable body st = (Success tt, st') <-> body st = Success (tt, st').
Proof.
  unfold call_nonpayable. destruct (body st) as [[[] st1]|r]; split; congruence.
Qed.

Lemma zip_elem_of_r {A B} (xs : list A) (ys : list B) (y : B) :
  length xs = length ys -> y ∈ ys -> exists x, (x, y) ∈ zip xs ys.
Proof.
  intros Hlen Hy. apply list_elem_of_lookup in Hy as [i Hi].
  destruct (lookup_lt_is_Some_2 xs i) as [x Hx].
  { rewrite Hlen. by eapply lookup_lt_Some. }
  exists x. apply list_elem_of_lookup. exists i.
  rewrite lookup_zip_with, Hx. simpl. by rewrite Hi.
Qed.

Lemma multiSendToken_success (st st' : state) (msg_sender token : address)
    (recipients : list address) (amounts : list N) :
  call_multiSendToken this st msg_sender token recipients amounts = (Success tt, st') <->
  token <> zero_address /\
  length recipients = length amounts /\
  length recipients <> 0%nat /\
  sum_amounts amounts <= MAX_UINT256 /\
  (exists allowed, allowance (tokens st) token msg_sender this = Some allowed /\
                   sum_amounts amounts <= allowed) /\
  Forall (fun '(r, a) => r <> zero_address /\ 0 < a) (zip recipients amounts) /\
  exists t', transfer_all this token msg_sender (zip recipients amounts) (tokens st) = Some t' /\
    st' = {| balances := balances st; tokens := t';
             logs := logs st ++ [MultiSendExecuted msg_sender token (sum_amounts amounts)
                                   (N.of_nat (length recipients))] |}.
Proof.
  unfold call_multiSendToken. rewrite call_nonpayable_success, multiSendToken_body.
  destruct (N.eqb_spec token zero_address); [by split; [|intros (? & _)]|].
  destruct (Nat.eqb_spec (length recipients) (length amounts)); simpl;
    [|by split; [|intros (_ & ? & _)]].
  destruct (Nat.ltb_spec 0 (length recipients)); simpl;
    [|split; [done|intros (_ & _ & ? & _); lia]].
  destruct (N.leb_spec (sum_amounts amounts) MAX_UINT256); simpl;
    [|split; [done|intros (_ & _ & _ & ? & _); lia]].
  destruct (allowance (tokens st) token msg_sender this) as [allowed|];
    [|split; [done|by intros (_ & _ & _ & _ & (? & ? & _) & _)]].
  destruct (N.leb_spec (sum_amounts amounts) allowed); simpl;
    [|split; [done|intros (_ & _ & _ & _ & (? & [= <-] & ?) & _); lia]].
  destruct (each _ _ st) as [[[] st1]|r] eqn:Hrun.
  - apply each_token_spec in Hrun as (Hall & t' & Ht' & ->).
    unfold emit. simpl. split.
    + intros [= <-]. repeat split; try done; try lia; eauto.
    + intros (_ & _ & _ & _ & _ & _ & t2 & Ht2 & ->). congruence.
  - split; [done|]. intros (_ & _ & _ & _ & _ & Hall & t' & Ht' & _).
    assert (Hok : each (token_step this msg_sender token) (zip recipients amounts) st
                  = Success (tt, {| balances := balances st; tokens := t'; logs := logs st |})).
    { apply each_token_spec. split; [done|]. by exists t'. }
    congruence.
Qed.

Lemma multiSendToken_reverts_or_succeeds (st : state) (msg_sender token : address)
    (recipients : list address) (amounts : list N) :
  (exists st', call_multiSendToken this st msg_sender token recipients amounts = (Success tt, st')) \/
  (exists r, call_multiSendToken this st msg_sender token recipients amounts = (Reverted r, st)).
Proof.
  unfold call_multiSendToken.
  destruct (call_nonpayable_outcome (multiSendToken this msg_sender token recipients amounts) st)
    as [(st' & _ & H)|(r & _ & H)]; eauto.
Qed.

Lemma multiSendToken_zero_amount (st : state) (msg_sender token : address)
    (recipients : list address) (amounts : list N) :
  0 ∈ amounts ->
  exists r, call_multiSendToken this st msg_sender token recipients amounts = (Reverted r, st).
Proof.
  intros Hzero.
  destruct (multiSendToken_reverts_or_succeeds st msg_sender token recipients amounts)
    as [[st' Hok]|Hrev]; [|done].
  apply multiSendToken_success in Hok as (_ & Hlen & _ & _ & _ & Hall & _).
  destruct (zip_elem_of_r recipients amounts 0 Hlen Hzero) as [r Hin].
  rewrite Forall_forall in Hall. destruct (Hall _ Hin). lia.
Qed.

(** C7: [multiSendToken] reads the caller's allowance to the executor once,
    before any transfer, and reverts when it is below the exact sum of the
    amounts; an entry with amount zero reverts the whole call.  A call
    succeeds exactly when the token and the arrays are well formed, the sum
    fits [uint256], that one allowance covers the sum, every entry has a
    non-zero recipient and a positive amount, and the token performs every
    transfer. *)
Theorem multiSendToken_allowance_and_zero_amounts (st : state)
    (msg_sender token : address) (recipients : list address) (amounts : list N) :
  (forall allowed,
     allowance (tokens st) token msg_sender this = Some allowed ->
     allowed < sum_amounts amounts ->
     exists r, call_multiSendToken this st msg_sender token recipients amounts
               = (Reverted r, st)) /\
  (0 ∈ amounts ->
   exists r, call_multiSendToken this st msg_sender token recipients amounts
             = (Reverted r, st)) /\
  (forall st',
     call_multiSendToken this st msg_sender token recipients amounts = (Success tt, st') <->
     token <> zero_address /\
     length recipients = length amounts /\
     length recipients <> 0%nat /\
     sum_amounts amounts <= MAX_UINT256 /\
     (exists allowed, allowance (tokens st) token msg_sender this = Some allowed /\
                      sum_amounts amounts <= allowed) /\
     Forall (fun '(r, a) => r <> zero_address /\ 0 < a) (zip recipients amounts) /\
     exists t', transfer_all this token msg_sender (zip recipients amounts) (tokens st)
                = Some t' /\
       st' = {| balances := balances st; tokens := t';
                logs := logs st ++ [MultiSendExecuted msg_sender token
                                      (sum_amounts amounts)
                                      (N.of_nat (length recipients))] |}).
Proof.
  split; [|split].
  - intros allowed Hal Hlt.
    destruct (multiSendToken_reverts_or_succeeds st msg_sender token recipients amounts)
      as [[st' Hok]|Hrev]; [|done].
    apply multiSendToken_success in Hok as (_ & _ & _ & _ & (al & Hal' & Hle) & _).
    rewrite Hal in Hal'. injection Hal' as <-. lia.
  - apply multiSendToken_zero_amount.
  - intros st'. apply multiSendToken_success.
Qed.


Lemma multi_step_success (msg_sender recipient tk : address) (a : N) (st st' : state) :
  multi_step this msg_sender recipient tk a st = Success (tt, st') <->
  tk <> zero_address /\ 0 < a /\
  exists allowed t1,
    allowance (tokens st) tk msg_sender this = Some allowed /\ a <= allowed /\
    transferFrom (tokens st) tk this msg_sender recipient a = Some t1 /\
    st' = {| balances := balances st; tokens := t1;
             logs := logs st ++ [MultiSendExecuted msg_sender tk a 1] |}.
Proof.
  unfold multi_step, bind, require, ret, revert, erc20_allowance, safeTransferFrom, emit.
  destruct (N.eqb_spec tk zero_address); simpl; [by split; [|intros (? & _)]|].
  destruct (N.ltb_spec 0 a); simpl; [|split; [done|intros (_ & ? & _); lia]].
  destruct (allowance (tokens st) tk msg_sender this) as [allowed|];
    [|split; [done|by intros (_ & _ & ? & ? & ? & _)]].
  destruct (N.leb_spec a allowed); simpl;
    [|split; [done|intros (_ & _ & ? & ? & [= <-] & ? & _); lia]].
  destruct (transferFrom (tokens st) tk this msg_sender recipient a) as [t1|];
    [|split; [done|by intros (_ & _ & ? & ? & _ & _ & ? & _)]].
  simpl. split.
  - intros [= <-]. repeat split; try done. by exists allowed, t1.
  - by intros (_ & _ & ? & ? & _ & _ & [= <-] & ->).
Qed.

Lemma each_multi_spec (msg_sender recipient : address) (entries : list (address * N)) :
  forall (st st' : state),
  each (multi_step this msg_sender recipient) entries st = Success (tt, st') <->
  token_steps this msg_sender recipient entries (tokens st) (logs st) (tokens st') (logs st') /\
  balances st' = balances st.
Proof.
  induction entries as [|[tk a] entries IH]; intros st st'; simpl.
  - unfold ret. split.
    + intros [= <-]. split; [constructor|done].
    + intros (Hs & Hb). inversion Hs; subst. destruct st, st'; simpl in *. congruence.
  - unfold bind.
    destruct (multi_step this msg_sender recipient tk a st) as [[[] st1]|r] eqn:Hstep.
    + apply multi_step_success in Hstep as (Hz & Hpos & allowed & t1 & Hal & Hle & Htr & ->).
      rewrite IH. simpl. split.
      * intros (Hs & Hb). split; [|done]. by econstructor.
      * intros (Hs & Hb). split; [|done]. inversion Hs; subst. congruence.
    + split; [done|]. intros (Hs & Hb). inversion Hs; subst.
      assert (Hok : multi_step this msg_sender recipient tk a st =
                Success (tt, {| balances := balances st; tokens := t1;
                                logs := logs st ++ [MultiSendExecuted msg_sender tk a 1] |})).
      { apply multi_step_success. repeat split; try done. by exists allowed, t1. }
      congruence.
Qed.

(** [multiTokenTransfer] with its loop replaced by what it computes. *)
Lemma multiTokenTransfer_body (msg_sender : address) (tokens_ : list address)
    (recipient : address) (amounts : list N) (st : state) :
  multiTokenTransfer this msg_sender tokens_ recipient amounts st =
  if negb (length tokens_ =? length amounts)%nat then
    Reverted (Require_failed "Tokens and amounts arrays must be the same length")
  else if negb (0 <? length tokens_)%nat then
    Reverted (Require_failed "Must provide at least one token")
  else if recipient =? zero_address then
    Reverted (Require_failed "Invalid recipient address")
  else each (multi_step this msg_sender recipient) (zip tokens_ amounts) st.
Proof.
  unfold multiTokenTransfer, bind at 1, require at 1.
  destruct (Nat.eqb_spec (length tokens_) (length amounts)) as [Hlen|]; simpl; [|done].
  unfold bind at 1, require at 1.
  destruct (0 <? length tokens_)%nat; simpl; [|done].
  unfold bind at 1, require at 1.
  destruct (recipient =? zero_address); simpl; [done|].
  rewrite (for_range_zip tokens_ amounts _ (multi_step this msg_sender recipient));
    [done|clear st|done].
  intros i tk a st Htk Ha. unfold multi_step, bind, index. rewrite Htk. simpl.
  destruct (require _ _ st) as [[[] st1]|rv]; [|done].
  by rewrite Ha.
Qed.

Lemma multiTokenTransfer_success (st st' : state) (msg_sender : address)
    (tokens_ : list address) (recipient : address) (amounts : list N) :
  call_multiTokenTransfer this st msg_sender tokens_ recipient amounts = (Success tt, st') <->
  length tokens_ = length amounts /\
  length tokens_ <> 0%nat /\
  recipient <> zero_address /\
  token_steps this msg_sender recipient (zip tokens_ amounts)
    (tokens st) (logs st) (tokens st') (logs st') /\
  balances st' = balances st.
Proof.
  unfold call_multiTokenTransfer.
  rewrite call_nonpayable_success, multiTokenTransfer_body.
  destruct (Nat.eqb_spec (length tokens_) (length amounts)); simpl;
    [|by split; [|intros (? & _)]].
  destruct (Nat.ltb_spec 0 (length tokens_)); simpl;
    [|split; [done|intros (_ & ? & _); lia]].
  destruct (N.eqb_spec recipient zero_address); [by split; [|intros (_ & _ & ? & _)]|].
  rewrite each_multi_spec. split.
  - intros (? & ?). repeat split; try done. lia.
  - by intros (_ & _ & _ & ? & ?).
Qed.

Lemma multiTokenTransfer_reverts_or_succeeds (st : state) (msg_sender : address)
    (tokens_ : list address) (recipient : address) (amounts : list N) :
  (exists st', call_multiTokenTransfer this st msg_sender tokens_ recipient amounts
               = (Success tt, st')) \/
  (exists r, call_multiTokenTransfer this st msg_sender tokens_ recipient amounts
             = (Reverted r, st)).
Proof.
  unfold call_multiTokenTransfer.
  destruct (call_nonpayable_outcome
              (multiTokenTransfer this msg_sender tokens_ recipient amounts) st)
    as [(st' & _ & H)|(r & _ & H)]; eauto.
Qed.

Lemma token_steps_events (from recipient : address) (entries : list (address * N))
    (t t' : T) (evs evs' : list Event) :
  token_steps this from recipient entries t evs t' evs' ->
  evs' = evs ++ map (fun '(tk, a) => MultiSendExecuted from tk a 1) entries.
Proof.
  induction 1 as [|tk a entries t evs allowed t1 t' evs' _ _ _ _ _ _ IH]; simpl.
  - by rewrite app_nil_r.
  - by rewrite IH, <- app_assoc.
Qed.

Lemma token_steps_split (from recipient : address) (pre post : list (address * N)) :
  forall (t t1 t' : T) (evs evs1 evs' : list Event),
  token_steps this from recipient pre t evs t1 evs1 ->
  token_steps this from recipient (pre ++ post) t evs t' evs' ->
  token_steps this from recipient post t1 evs1 t' evs'.
Proof.
  induction pre as [|[tk a] pre IH]; intros t t1 t' evs evs1 evs' Hpre Hall; simpl in *.
  - by inversion Hpre; subst.
  - inversion Hpre; subst. inversion Hall; subst.
    eapply IH; [eassumption|]. congruence.
Qed.

Lemma token_steps_head_ok (from recipient tk : address) (a : N)
    (post : list (address * N)) (t t' : T) (evs evs' : list Event) :
  token_steps this from recipient ((tk, a) :: post) t evs t' evs' ->
  ~ entry_fails this from recipient t tk a.
Proof.
  intros Hs. inversion Hs; subst.
  intros [?|[?|[?|[(al & ? & ?)|?]]]]; try congruence; try lia.
  assert (al = allowed) by congruence. lia.
Qed.

(** C8: [multiTokenTransfer] succeeds exactly when the arrays are well
    formed, the recipient is not zero, and every entry in turn has a non-zero
    token and a positive amount, is covered on its own by the allowance its
    token reports at that moment, and is transferred; it then has emitted one
    event with recipient count 1 per entry, in order.  When the entries
    before one ran and that one fails, the whole call reverts and the state
    is as before the call. *)
Theorem multiTokenTransfer_per_entry (st : state) (msg_sender : address)
    (tokens_ : list address) (recipient : address) (amounts : list N) :
  (forall st',
     call_multiTokenTransfer this st msg_sender tokens_ recipient amounts
       = (Success tt, st') <->
     length tokens_ = length amounts /\
     length tokens_ <> 0%nat /\
     recipient <> zero_address /\
     token_steps this msg_sender recipient (zip tokens_ amounts)
       (tokens st) (logs st) (tokens st') (logs st') /\
     balances st' = balances st) /\
  (forall st',
     call_multiTokenTransfer this st msg_sender tokens_ recipient amounts
       = (Success tt, st') ->
     logs st' = logs st ++
       map (fun '(tk, a) => MultiSendExecuted msg_sender tk a 1) (zip tokens_ amounts)) /\
  (forall pre tk a post t1 evs1,
     zip tokens_ amounts = pre ++ (tk, a) :: post ->
     token_steps this msg_sender recipient pre (tokens st) (logs st) t1 evs1 ->
     entry_fails this msg_sender recipient t1 tk a ->
     exists r, call_multiTokenTransfer this st msg_sender tokens_ recipient amounts
               = (Reverted r, st)).
Proof.
  split; [|split].
  - intros st'. apply multiTokenTransfer_success.
  - intros st' Hok. apply multiTokenTransfer_success in Hok as (_ & _ & _ & Hs & _).
    by apply token_steps_events in Hs.
  - intros pre tk a post t1 evs1 Hzip Hpre Hfail.
    destruct (multiTokenTransfer_reverts_or_succeeds st msg_sender tokens_ recipient amounts)
      as [[st' Hok]|Hrev]; [|done].
    apply multiTokenTransfer_success in Hok as (_ & _ & _ & Hs & _).
    rewrite Hzip in Hs.
    pose proof (token_steps_split _ _ _ _ _ _ _ _ _ _ Hpre Hs) as Hpost.
    by apply token_steps_head_ok in Hpost.
Qed.

Lemma multiTokenTransfer_zero_amount (st : state) (msg_sender : address)
    (tokens_ : list address) (recipient : address) (amounts : list N) :
  0 ∈ amounts ->
  exists r, call_multiTokenTransfer this st msg_sender tokens_ recipient amounts
            = (Reverted r, st).
Proof.
  intros Hzero.
  destruct (multiTokenTransfer_reverts_or_succeeds st msg_sender tokens_ recipient amounts)
    as [[st' Hok]|Hrev]; [|done].
  apply multiTokenTransfer_success in Hok as (Hlen & _ & _ & Hs & _).
  destruct (zip_elem_of_r tokens_ amounts 0 Hlen Hzero) as [tk Hin].
  exfalso. clear Hlen Hzero.
  induction Hs as [|tk' a entries t evs allowed t1 t' evs' _ Hpos _ _ _ _ IH].
  - by apply elem_of_nil in Hin.
  - apply elem_of_cons in Hin as [[= -> <-]|Hin]; [lia|by apply IH].
Qed.

(** C10: with arrays of equal non-zero length, no zero recipient and the
    attached value equal to the sum, a zero amount among the entries does not
    make [multiSendETH] revert: the call succeeds when every transfer is
    accepted, and the zero-value transfer is really made, since its refusal
    reverts the call.  The two token entry points revert on the same
    amounts. *)
Theorem multiSendETH_accepts_zero_amounts (st : state) (msg_sender : address)
    (msg_value : N) (recipients : list address) (amounts : list N) :
  msg_value <= MAX_UINT256 ->
  msg_value <= balance st msg_sender ->
  length recipients = length amounts ->
  length recipients <> 0%nat ->
  zero_address ∉ recipients ->
  msg_value = sum_amounts amounts ->
  0 ∈ amounts ->
  ((forall r a, (r, a) ∈ zip recipients amounts -> ~ transfer_fails this accepts r a) ->
   exists st',
     call_multiSendETH this accepts st msg_sender msg_value recipients amounts
       = (Success tt, st')) /\
  (forall r, (r, 0) ∈ zip recipients amounts -> transfer_fails this accepts r 0 ->
   exists rv,
     call_multiSendETH this accepts st msg_sender msg_value recipients amounts
       = (Reverted rv, st)) /\
  (forall token, exists rv,
     call_multiSendToken this st msg_sender token recipients amounts = (Reverted rv, st)) /\
  (forall tokens_ recipient, exists rv,
     call_multiTokenTransfer this st msg_sender tokens_ recipient amounts
       = (Reverted rv, st)).
Proof.
  intros Hmax Hfund Hlen Hpos Hnz Hval Hzero.
  split; [|split; [|split]].
  - intros Hacc.
    destruct (multiSendETH_pays st msg_sender msg_value recipients amounts Hmax Hfund)
      as (st' & Hrun & _); [|by exists st'].
    intros [?|[?|[?|[?|Hf]]]]; try done.
    apply Exists_exists in Hf as ([r a] & Hin & Hf). by apply (Hacc r a).
  - intros r Hin Hf. apply multiSendETH_reverts; [done|]. do 4 right.
    apply Exists_exists. by exists (r, 0).
  - intros token. by apply multiSendToken_zero_amount.
  - intros tokens_ recipient. by apply multiTokenTransfer_zero_amount.
Qed.

End Contract.

(** *** The theorems at concrete inputs *)

(** Account 1 sends 30 wei to account 2 and nothing to account 3. *)
Lemma multiSendETH_all_or_nothing_witness :
  exists st',
    call_multiSendETH Examples.executor Examples.everyone_accepts
      Examples.chain 1 30 [2; 3] [30; 0] = (Success tt, st') /\
    (forall x, balance st' x + (if x =? 1 then 30 else 0)
               = balance Examples.chain x + received x (zip [2; 3] [30; 0])) /\
    logs st' = logs Examples.chain ++ [MultiSendExecuted 1 zero_address 30 2] /\
    tokens st' = tokens Examples.chain.
Proof.
  apply (multiSendETH_all_or_nothing Examples.executor
           Examples.everyone_accepts Examples.chain 1 30 [2; 3] [30; 0]).
  - by vm_compute.
  - by vm_compute.
  - intros [H|[H|[H|[H|H]]]].
    + by apply H.
    + discriminate H.
    + by apply H.
    + apply elem_of_cons in H as [H|H]; [discriminate H|].
      apply elem_of_cons in H as [H|H]; [discriminate H|].
      by apply elem_of_nil in H.
    + apply Exists_cons in H as [[H|H]|H]; [discriminate H..|].
      apply Exists_cons in H as [[H|H]|H]; [discriminate H..|].
      by apply Exists_nil in H.
Defined.

(** The same call: the entry of amount zero does not revert it, while
    [multiSendToken] reverts on these amounts. *)
Lemma multiSendETH_accepts_zero_amounts_witness :
  (exists st',
     call_multiSendETH Examples.executor Examples.everyone_accepts
       Examples.chain 1 30 [2; 3] [30; 0] = (Success tt, st')) /\
  (forall token, exists rv,
     call_multiSendToken (Tok:=Ledger.erc20) Examples.executor Examples.chain 1 token
       [2; 3] [30; 0] = (Reverted rv, Examples.chain)).
Proof.
  destruct (multiSendETH_accepts_zero_amounts (Tok:=Ledger.erc20) Examples.executor
              Examples.everyone_accepts Examples.chain 1 30 [2; 3] [30; 0])
    as (Hok & _ & Htoken & _).
  - by vm_compute.
  - by vm_compute.
  - reflexivity.
  - discriminate.
  - intros H.
    apply elem_of_cons in H as [H|H]; [discriminate H|].
    apply elem_of_cons in H as [H|H]; [discriminate H|].
    by apply elem_of_nil in H.
  - reflexivity.
  - apply elem_of_cons. right. apply elem_of_cons. by left.
  - split; [|exact Htoken].
    apply Hok. intros r a Hin [H|H]; [|discriminate H].
    rewrite H in Hin. simpl in Hin.
    apply elem_of_cons in Hin as [Hin|Hin]; [discriminate Hin|].
    apply elem_of_cons in Hin as [Hin|Hin]; [discriminate Hin|].
    by apply elem_of_nil in Hin.
Defined.

(** The caller approved 30 units and asks for 20 + 20. *)
Lemma multiSendToken_allowance_and_zero_amounts_witness :
  exists r,
    call_multiSendToken (Tok:=Ledger.erc20) Examples.executor Examples.chain 1 77
      [2; 3] [20; 20] = (Reverted r, Examples.chain).
Proof.
  apply (proj1 (multiSendToken_allowance_and_zero_amounts (Tok:=Ledger.erc20)
                  Examples.executor Examples.chain 1 77 [2; 3] [20; 20])) with (allowed := 30).
  - reflexivity.
  - by vm_compute.
Defined.

(** The same token twice, 20 units each, with 30 approved: the first entry
    passes its own check and lowers the allowance to 10, the second fails
    its own check, and nothing is left of the first. *)
Lemma multiTokenTransfer_per_entry_witness :
  exists r,
    call_multiTokenTransfer (Tok:=Ledger.erc20) Examples.executor Examples.chain 1
      [77; 77] 2 [20; 20] = (Reverted r, Examples.chain).
Proof.
  destruct (multiTokenTransfer_per_entry (Tok:=Ledger.erc20) Examples.executor
              Examples.chain 1 [77; 77] 2 [20; 20]) as (_ & _ & Hfail).
  eapply (Hfail [(77, 20)] 77 20 []).
  - reflexivity.
  - eapply (token_steps_cons (Tok:=Ledger.erc20)) with (allowed := 30).
    + discriminate.
    + by vm_compute.
    + reflexivity.
    + by vm_compute.
    + reflexivity.
    + apply token_steps_nil.
  - do 3 right. left. exists 10. split; [by vm_compute|by vm_compute].
Defined.

End ExecutorProofs.

(** ** Proofs: the batch manager *)

Module ClientProofs.

Import Client ClientSpec.
Local Open Scope Z_scope.

Section Manager.
Context `{E : Ethers}.

(** *** The accumulator *)

Lemma foldl_union_singletons (txs : list Tx) (s : gset string) :
  foldl (fun s tx => s ∪ {[ to tx ]}) s txs = s ∪ list_to_set (map to txs).
Proof.
  revert s. induction txs as [|tx txs IH]; intros s; simpl.
  - set_solver.
  - rewrite IH. set_solver.
Qed.

Lemma status_eth_loop_recipients (txs : list Tx) (s : gset string) (v : Z) :
  fst (status_eth_loop txs (s, v)) = s ∪ list_to_set (map to txs).
Proof.
  unfold status_eth_loop. revert s v.
  induction txs as [|tx txs IH]; intros s v; simpl.
  - set_solver.
  - rewrite IH. set_solver.
Qed.

Lemma status_erc20_loop_recipients (groups : JsObject (list Tx)) (n : nat)
    (s : gset string) :
  snd (status_erc20_loop groups (n, s)) =
  s ∪ list_to_set (concat (map (fun '(_, tokenTxs) => map to tokenTxs) groups)).
Proof.
  unfold status_erc20_loop. revert n s.
  induction groups as [|[tokenAddress tokenTxs] groups IH]; intros n s; simpl.
  - set_solver.
  - rewrite IH, foldl_union_singletons, list_to_set_app_L. set_solver.
Qed.

(** C6, as the code has it: [getBatchStatus] reports as [uniqueRecipients]
    the number of distinct recipient strings among the native and the token
    entries, compared exactly as they were given, without any normalization
    of letter case. *)
Theorem uniqueRecipients_counts_exact_strings (g : TransactionGroups) :
  Status.uniqueRecipients (getBatchStatus g) = Spec.unique_recipients_exact g.
Proof.
  unfold getBatchStatus, Spec.unique_recipients_exact, Spec.all_recipients.
  pose proof (status_eth_loop_recipients (eth g) ∅ 0) as Heth.
  destruct (status_eth_loop (eth g) (∅, 0)) as [s1 v] eqn:H1. simpl in Heth.
  pose proof (status_erc20_loop_recipients (erc20 g) 0%nat s1) as Herc.
  destruct (status_erc20_loop (erc20 g) (0%nat, s1)) as [n s2] eqn:H2. simpl in *.
  rewrite Herc, Heth, list_to_set_app_L. f_equal. set_solver.
Qed.


(** *** Adding entries *)

Lemma obj_set_fresh {V} (k : string) (v : V) (o : JsObject V) :
  obj_get k o = None -> obj_set k v o = o ++ [(k, v)].
Proof.
  induction o as [|[k' v'] o IH]; simpl; [done|].
  destruct (String.eqb k k'); [done|]. intros Hget. by rewrite IH.
Qed.

Lemma addEthTransaction_failure_keeps_state (to_ value_ : string)
    (g g' : TransactionGroups) (message : string) :
  addEthTransaction to_ value_ g = (Throw message, g') -> g' = g.
Proof.
  unfold addEthTransaction. repeat case_match; congruence.
Qed.

Lemma addErc20Transaction_failure_keeps_state (tokenAddress to_ value_ : string)
    (decimals_ : option Z) (g g' : TransactionGroups) (message : string) :
  addErc20Transaction tokenAddress to_ value_ decimals_ g = (Throw message, g') ->
  isAddress tokenAddress = false \/ isAddress to_ = false \/
    is_Some (obj_get tokenAddress (erc20 g)) ->
  g' = g.
Proof.
  unfold addErc20Transaction. intros Hrun Hcase.
  destruct (isAddress tokenAddress); simpl in Hrun; [|congruence].
  destruct (isAddress to_); simpl in Hrun; [|congruence].
  destruct Hcase as [?|[?|[group Hgroup]]]; try done.
  rewrite Hgroup in Hrun. destruct (parseUnits _ _); congruence.
Qed.

(** C5: when [addErc20Transaction] gets two valid addresses, a token that
    has no group yet and an amount [parseUnits] rejects, it throws and leaves
    behind an empty group for the token: the state differs from the one
    before the call, the token is a new key, and [getBatchStatus] counts one
    more token while the number of transactions is unchanged. *)
Theorem addErc20Transaction_malformed_amount_creates_group
    (tokenAddress to_ value_ : string) (decimals_ : option Z)
    (g : TransactionGroups) (message : string) :
  isAddress tokenAddress = true ->
  isAddress to_ = true ->
  obj_get tokenAddress (erc20 g) = None ->
  parseUnits value_ (default 18 decimals_) = Throw message ->
  let g' := {| eth := eth g; erc20 := erc20 g ++ [(tokenAddress, [])] |} in
  addErc20Transaction tokenAddress to_ value_ decimals_ g
    = (Throw ("Error adding ERC-20 transaction: " +:+ message), g') /\
  g' <> g /\
  obj_keys (erc20 g') = obj_keys (erc20 g) ++ [tokenAddress] /\
  Status.erc20TokenCount (getBatchStatus g')
    = S (Status.erc20TokenCount (getBatchStatus g)) /\
  Status.totalTransactions (getBatchStatus g')
    = Status.totalTransactions (getBatchStatus g).
Proof.
  intros Htoken Hto Hnew Hparse g'.
  assert (Hkeys : obj_keys (erc20 g') = obj_keys (erc20 g) ++ [tokenAddress]).
  { unfold g', obj_keys. simpl. by rewrite map_app. }
  split; [|split; [|split; [done|split]]].
  - unfold addErc20Transaction. rewrite Htoken, Hto, Hnew, Hparse. simpl.
    by rewrite obj_set_fresh.
  - intros Heq. rewrite Heq in Hkeys.
    apply (f_equal length) in Hkeys. rewrite length_app in Hkeys. simpl in Hkeys. lia.
  - unfold getBatchStatus. rewrite Hkeys.
    destruct (status_eth_loop (eth g') (∅, 0)) as [s1 v1] eqn:H1.
    destruct (status_erc20_loop (erc20 g') (0%nat, s1)) as [n1 s1'] eqn:H1'.
    destruct (status_eth_loop (eth g) (∅, 0)) as [s2 v2] eqn:H2.
    destruct (status_erc20_loop (erc20 g) (0%nat, s2)) as [n2 s2'] eqn:H2'.
    simpl. rewrite length_app. simpl. lia.
  - unfold getBatchStatus. simpl.
    destruct (status_eth_loop (eth g) (∅, 0)) as [s1 v1] eqn:H1.
    unfold status_erc20_loop. rewrite foldl_app. fold (status_erc20_loop (erc20 g) (0%nat, s1)).
    destruct (status_erc20_loop (erc20 g) (0%nat, s1)) as [n1 s1'] eqn:H1'.
    simpl. lia.
Qed.

(** *** The safety margin *)

Lemma add_buffer_floor (g : Z) :
  0 <= g -> add_buffer g = Spec.floor_with_margin g.
Proof.
  intros Hg. unfold add_buffer, Spec.floor_with_margin. simpl.
  rewrite Z.quot_div_nonneg by lia. f_equal; lia.
Qed.

Lemma add_buffer_ceiling (g : Z) :
  0 <= g ->
  add_buffer g <= Spec.ceil_with_margin g /\
  (add_buffer g = Spec.ceil_with_margin g <-> g `mod` 10 = 0).
Proof.
  intros Hg. unfold add_buffer, Spec.ceil_with_margin, Qceiling. simpl.
  rewrite Z.quot_div_nonneg by lia.
  replace (g * 110 * 1) with (g * 110) by lia.
  replace (- (g * 110) * 1) with (- (g * 110)) by lia.
  Z.to_euclidean_division_equations. lia.
Qed.

End Manager.

Lemma precedes_head (e1 e2 : Event) (evs : list Event) :
  In e2 evs -> precedes e1 e2 (e1 :: evs).
Proof.
  intros Hin. apply in_split in Hin as (l2 & l3 & ->). by exists [], l2, l3.
Qed.

Lemma precedes_skip (e1 e2 x : Event) (evs : list Event) :
  precedes e1 e2 evs -> precedes e1 e2 (x :: evs).
Proof. intros (l1 & l2 & l3 & ->). by exists (x :: l1), l2, l3. Qed.

Lemma precedes_app_r (e1 e2 : Event) (evs0 evs : list Event) :
  precedes e1 e2 evs -> precedes e1 e2 (evs0 ++ evs).
Proof.
  intros (l1 & l2 & l3 & ->). exists (evs0 ++ l1), l2, l3. by rewrite <- app_assoc.
Qed.

Lemma connection_event_in (ev : Event) (evs : list Event) :
  Forall connection_event evs -> In ev evs -> connection_event ev.
Proof. rewrite Forall_forall. intros H Hin. apply H. by apply list_elem_of_In. Qed.

Section Async.
Context `{E : Ethers} {W : Type} `{Net : Network W}.
Variable config : Config.

Lemma getConnection_trace (s s' : St W) (r : Result Connection) :
  getConnection config s = (r, s') ->
  exists evs, trace s' = trace s ++ evs /\ Forall connection_event evs.
Proof.
  unfold getConnection, initializeConnection, bind, io, ret, throw.
  intros Hrun. repeat case_match; simplify_eq; simpl;
    first [ by exists []; rewrite app_nil_r
          | eexists [_]; split; [reflexivity|by repeat constructor] ].
Qed.

Lemma getConnection_stored (s : St W) (c : Connection) :
  connection s = Some c -> getConnection config s = (Return c, s).
Proof. intros Hc. unfold getConnection. by rewrite Hc. Qed.

Lemma getConnection_stores (s s' : St W) (c : Connection) :
  getConnection config s = (Return c, s') -> connection s' = Some c.
Proof.
  unfold getConnection.
  destruct (connection s) as [c0|] eqn:Hc; [by intros [= <- <-]|].
  destruct (initializeConnection config s) as [[c1|m] s1]; by intros [= <- <-].
Qed.

(** *** The empty batch *)

Lemma erc20_count_from (groups : JsObject (list Tx)) (n : nat) :
  foldl (fun erc20Count '(_, tokenTxs) => (erc20Count + length tokenTxs)%nat) n groups
  = (n + erc20_count groups)%nat.
Proof.
  unfold erc20_count. revert n.
  induction groups as [|[tk txs] groups IH]; intros n; simpl; [lia|].
  rewrite IH, (IH (length txs)). lia.
Qed.

Lemma erc20_count_app (l1 l2 : JsObject (list Tx)) :
  erc20_count (l1 ++ l2) = (erc20_count l1 + erc20_count l2)%nat.
Proof.
  unfold erc20_count at 1. rewrite foldl_app. fold (erc20_count l1).
  apply erc20_count_from.
Qed.

Lemma erc20_count_cons (tk : string) (txs : list Tx) (l : JsObject (list Tx)) :
  erc20_count ((tk, txs) :: l) = (length txs + erc20_count l)%nat.
Proof. unfold erc20_count at 1. simpl. apply erc20_count_from. Qed.

(** C9, as the code has it: with nothing queued, [estimateGas] and
    [sendBatchTransaction] never return a result; once the connection is
    there they throw their empty-batch error, and when the connection cannot
    be made they throw its error instead.  With something queued the
    empty-batch branch is not taken: each function is the connection followed
    by the rest of its body. *)
Theorem empty_batch_fails_once_connected (options : Options.t)
    (g : TransactionGroups) (s : St W) :
  let count := (length (eth g) + erc20_count (erc20 g))%nat in
  (count = 0%nat ->
   (forall c s1, getConnection config s = (Return c, s1) ->
      estimateGas config options g s
        = (Throw "No transactions to estimate gas for", s1) /\
      sendBatchTransaction config options g s
        = (Throw "No transactions to send", s1)) /\
   (forall message s1, getConnection config s = (Throw message, s1) ->
      estimateGas config options g s = (Throw message, s1) /\
      sendBatchTransaction config options g s = (Throw message, s1)) /\
   (exists message s1, estimateGas config options g s = (Throw message, s1)) /\
   (exists message s1, sendBatchTransaction config options g s = (Throw message, s1))) /\
  (count <> 0%nat ->
   estimateGas config options g s
     = bind (getConnection config)
         (fun _ => estimateQueued options g (length (eth g))
                     (erc20_count (erc20 g)) count) s /\
   sendBatchTransaction config options g s
     = bind (getConnection config) (fun _ => sendQueued config options g count) s).
Proof.
  intros count. unfold estimateGas, sendBatchTransaction, bind. fold count.
  split.
  - intros ->. simpl. unfold throw.
    destruct (getConnection config s) as [[c|message] s1].
    + split; [|split; [|split]]; [by intros ? ? [= <- <-]|done|eauto..].
    + split; [|split; [|split]]; [done|by intros ? ? [= <- <-]|eauto..].
  - intros Hcount. destruct (Nat.eqb_spec count 0); [done|].
    by destruct (getConnection config s) as [[c|message] s1].
Qed.


(** *** The gas budget *)

Lemma estimateGas_margin (options : Options.t) (g : TransactionGroups)
    (s s' : St W) (res : GasResults.t) (est : Estimate.t) :
  estimateGas config options g s = (Return res, s') ->
  GasResults.gasEstimates res = Some est ->
  Estimate.gasWithBuffer est = add_buffer (Estimate.gasEstimate est) /\
  In (EvEstimateETH (map to (eth g)) (map value (eth g)) (total (map value (eth g)))
        (Return (Estimate.gasEstimate est))) (trace s').
Proof.
  unfold estimateGas, estimateQueued, bind at 1.
  destruct (getConnection config s) as [[c|m] s0]; [|done].
  unfold try_catch, bind, io, ret, throw.
  intros Hrun Hest. repeat case_match; simplify_eq; simpl in *; simplify_eq; simpl.
  all: split; [done|].
  all: apply in_or_app; right; by left.
Qed.

Lemma sendEthGroup_budget (options : Options.t) (ethTxs : list Tx)
    (s s' : St W) (r : Result Info.t) :
  truthy_number (Options.ethGasLimit options) = false ->
  sendEthGroup options ethTxs s = (r, s') ->
  exists evs, trace s' = trace s ++ evs /\
    forall rc am txo res,
      In (EvSendETH rc am txo res) evs ->
      exists cost,
        precedes (EvEstimateETH rc am (total am) (Return cost))
                 (EvSendETH rc am txo res) evs /\
        TxOptions.gasLimit txo = add_buffer cost.
Proof.
  intros Hno. unfold sendEthGroup. rewrite Hno.
  unfold bind, io, log, ret, throw. simpl. intros Hrun.
  repeat case_match; simplify_eq; simpl.
  all: rewrite <- ?app_assoc; simpl.
  all: eexists; split; [reflexivity|].
  all: intros rc am txo res Hin; split_in connection_event_in Hin; simplify_eq.
  all: eexists; split; [find_precedes precedes_app_r precedes_head precedes_skip|done].
Qed.

Lemma sendTokenGroup_budget (options : Options.t) (tokenAddress : string)
    (tokenTxs : list Tx) (s s' : St W) (r : Result Info.t) :
  truthy_number (token_gas_override options tokenAddress) = false ->
  sendTokenGroup config options tokenAddress tokenTxs s = (r, s') ->
  exists evs, trace s' = trace s ++ evs /\
    forall tk rc am txo res,
      In (EvSendToken tk rc am txo res) evs ->
      exists cost,
        precedes (EvEstimateToken tk rc am (Return cost))
                 (EvSendToken tk rc am txo res) evs /\
        TxOptions.gasLimit txo = add_buffer cost.
Proof.
  intros Hno. unfold sendTokenGroup, checkAndApproveToken. rewrite Hno.
  unfold bind at 1. unfold bind at 1.
  destruct (getConnection config s) as [[c|m] s0] eqn:Hc;
    apply getConnection_trace in Hc as (evs0 & Htr0 & Hconn).
  2:{ intros [= <- <-]. exists evs0. split; [done|].
      intros; exfalso; by eapply connection_event_in in Hconn; [|eassumption]. }
  unfold bind, io, log, ret, throw. simpl. intros Hrun.
  repeat case_match; simplify_eq; simpl in *.
  all: rewrite ?Htr0, <- ?app_assoc; simpl.
  all: eexists; split; [reflexivity|].
  all: intros tk rc am txo res Hin; split_in connection_event_in Hin; simplify_eq.
  all: eexists; split; [find_precedes precedes_app_r precedes_head precedes_skip|done].
Qed.


(** C4, as the code has it: the figure with margin is the floor, not the
    ceiling, of the simulated cost times 1.10, and reaches the ceiling only
    for costs that are multiples of 10.  [estimateGas] reports it for the
    cost it was given, and without an override [sendBatchTransaction] submits
    the native and the token transfers with it as their gas limit. *)
Theorem gas_budget_is_floor_with_margin :
  (forall cost, 0 <= cost ->
     add_buffer cost = Spec.floor_with_margin cost /\
     add_buffer cost <= Spec.ceil_with_margin cost /\
     (add_buffer cost = Spec.ceil_with_margin cost <-> cost `mod` 10 = 0)) /\
  (forall options g (s s' : St W) res est,
     estimateGas config options g s = (Return res, s') ->
     GasResults.gasEstimates res = Some est ->
     Estimate.gasWithBuffer est = add_buffer (Estimate.gasEstimate est) /\
     In (EvEstimateETH (map to (eth g)) (map value (eth g)) (total (map value (eth g)))
           (Return (Estimate.gasEstimate est))) (trace s')) /\
  (forall options ethTxs (s s' : St W) r,
     truthy_number (Options.ethGasLimit options) = false ->
     sendEthGroup options ethTxs s = (r, s') ->
     exists evs, trace s' = trace s ++ evs /\
       forall rc am txo res,
         In (EvSendETH rc am txo res) evs ->
         exists cost,
           precedes (EvEstimateETH rc am (total am) (Return cost))
                    (EvSendETH rc am txo res) evs /\
           TxOptions.gasLimit txo = add_buffer cost) /\
  (forall options tokenAddress tokenTxs (s s' : St W) r,
     truthy_number (token_gas_override options tokenAddress) = false ->
     sendTokenGroup config options tokenAddress tokenTxs s = (r, s') ->
     exists evs, trace s' = trace s ++ evs /\
       forall tk rc am txo res,
         In (EvSendToken tk rc am txo res) evs ->
         exists cost,
           precedes (EvEstimateToken tk rc am (Return cost))
                    (EvSendToken tk rc am txo res) evs /\
           TxOptions.gasLimit txo = add_buffer cost).
Proof.
  split; [|split; [|split]].
  - intros cost Hcost. split; [by apply add_buffer_floor|by apply add_buffer_ceiling].
  - intros. by eapply estimateGas_margin.
  - intros. by eapply sendEthGroup_budget.
  - intros. by eapply sendTokenGroup_budget.
Qed.

(** *** The order of approval and transfer *)

(** The operations of one token group obey the protocol, whatever the
    network answers. *)
Lemma sendTokenGroup_protocol (options : Options.t)
    (tokenAddress : string) (tokenTxs : list Tx) (s s' : St W) (r : Result Info.t) :
  sendTokenGroup config options tokenAddress tokenTxs s = (r, s') ->
  exists evs, trace s' = trace s ++ evs /\ group_protocol tokenAddress tokenTxs r evs.
Proof.
  unfold group_protocol. set (required := total (map value tokenTxs)).
  unfold sendTokenGroup, checkAndApproveToken. fold required.
  unfold bind at 1. unfold bind at 1.
  destruct (getConnection config s) as [[c|m] s0] eqn:Hc;
    apply getConnection_trace in Hc as (evs0 & Htr0 & Hconn).
  2:{ intros [= <- <-]. exists evs0. split; [done|].
      repeat split; intros; exfalso; by eapply connection_event_in in Hconn; [|eassumption]. }
  unfold bind, io, log, ret, throw. simpl.
  intros Hrun.
  repeat case_match; simplify_eq; simpl in *.
  all: rewrite ?Htr0, <- ?app_assoc; simpl.
  all: eexists; split; [reflexivity|].
  all: repeat match goal with H : (_ <? _) = _ |- _ =>
         first [apply Z.ltb_lt in H | apply Z.ltb_ge in H] end.
  all: split; [|split];
       [ intros owner b Hin Hlt; split_in connection_event_in Hin; simplify_eq; try lia;
         (split; [reflexivity|eexists (evs0 ++ [_]); by rewrite <- app_assoc])
       | intros tk spender amount res Hin; split_in connection_event_in Hin; simplify_eq;
         (split; [done|split; [done|]]); do 4 eexists;
         ((split; [|split; [|split; find_precedes precedes_app_r precedes_head precedes_skip]]); lia)
       | intros tk rc am txo res Hin; split_in connection_event_in Hin; simplify_eq;
         (split; [done|split; [done|split; [done|]]]); do 4 eexists;
         (split; [|split; [find_precedes precedes_app_r precedes_head precedes_skip|split; [find_precedes precedes_app_r precedes_head precedes_skip|]]];
          [lia
          |match goal with |- context [if ?a <? ?b then _ else _] =>
             destruct (Z.ltb_spec a b); try lia end;
           first [ solve [do 3 eexists; split; [|split]; find_precedes precedes_app_r precedes_head precedes_skip]
                 | intros tk' sp' am' res' Hin; split_in connection_event_in Hin ] ]) ].
Qed.


(** The operations of one token group are a run of the group, whatever
    the network answers. *)
Lemma sendTokenGroup_run (options : Options.t) (tokenAddress : string)
    (tokenTxs : list Tx) (s s' : St W) (r : Result Info.t) (c : Connection) :
  connection s = Some c ->
  sendTokenGroup config options tokenAddress tokenTxs s = (r, s') ->
  exists evs, trace s' = trace s ++ evs /\ connection s' = Some c /\
    group_run options tokenAddress tokenTxs evs r.
Proof.
  intros Hc. unfold group_run.
  set (required := total (map value tokenTxs)).
  unfold sendTokenGroup, checkAndApproveToken. fold required.
  unfold bind at 1. unfold bind at 1. rewrite (getConnection_stored _ _ Hc).
  unfold bind, io, log, ret, throw. simpl. intros Hrun.
  repeat case_match; simplify_eq; simpl in *.
  all: rewrite <- ?app_assoc; simpl.
  all: eexists; split; [reflexivity|]; split; [done|].
  all: repeat match goal with H : (_ <? _) = _ |- _ =>
         first [apply Z.ltb_lt in H | apply Z.ltb_ge in H] end.
  all: unshelve derive_run; first [lia | assumption | done].
Qed.


Lemma sendTokenGroups_runs (options : Options.t) (c : Connection)
    (groups : JsObject (list Tx)) :
  forall (acc : JsObject Info.t) (s s' : St W) (r : Result (JsObject Info.t)),
  connection s = Some c ->
  sendTokenGroups config options groups acc s = (r, s') ->
  exists segments : list Segment,
    trace s' = trace s ++ concat (map events segments) /\
    Forall (obeys options) segments /\
    match r with
    | Return _ =>
        map group segments = groups_with_entries groups /\
        Forall completed segments
    | Throw cause =>
        exists finished last rest,
          segments = finished ++ [last] /\
          Forall completed finished /\
          outcome last = Throw cause /\
          groups_with_entries groups = map group finished ++ group last :: rest
    end.
Proof.
  induction groups as [|[tk txs] groups IH]; intros acc s s' r Hc; simpl.
  - intros [= <- <-]. exists []. simpl. by rewrite app_nil_r.
  - destruct (0 <? length txs)%nat; [|by apply IH].
    unfold bind.
    destruct (sendTokenGroup config options tk txs s) as [r1 s1] eqn:Hgroup.
    destruct (sendTokenGroup_run _ _ _ _ _ _ _ Hc Hgroup) as (evs1 & Htr1 & Hc1 & Hrun1).
    destruct (sendTokenGroup_protocol _ _ _ _ _ _ Hgroup) as (evs1' & Htr1' & Hp1).
    assert (evs1' = evs1) as -> by (rewrite Htr1 in Htr1'; by apply app_inv_head in Htr1').
    pose (first := {| group := (tk, txs); events := evs1; outcome := r1 |}).
    assert (Hfirst : obeys options first) by done.
    destruct r1 as [info|m].
    + intros Hrest. apply (IH _ _ _ _ Hc1) in Hrest as (segments & Htr & Hall & Hout).
      exists (first :: segments). simpl.
      rewrite Htr, Htr1, <- app_assoc. split; [done|]. split; [by constructor|].
      assert (Hdone : completed first) by (by exists info).
      destruct r as [infos|cause].
      * destruct Hout as [Hmap Hcompleted]. split; [by rewrite Hmap|by constructor].
      * destruct Hout as (finished & last & rest & -> & Hfin & Hlast & Hmap).
        exists (first :: finished), last, rest. simpl.
        split; [done|]. split; [by constructor|]. split; [done|]. by rewrite Hmap.
    + intros [= <- <-]. exists [first]. simpl. rewrite app_nil_r.
      split; [done|]. split; [by constructor|].
      exists [], first, (groups_with_entries groups). by repeat split.
Qed.


(** *** Partial completion *)

Lemma sendTokenGroups_app (options : Options.t) (l1 l2 : JsObject (list Tx)) :
  forall (acc : JsObject Info.t) (s : St W),
  sendTokenGroups config options (l1 ++ l2) acc s =
  match sendTokenGroups config options l1 acc s with
  | (Return acc', s') => sendTokenGroups config options l2 acc' s'
  | (Throw message, s') => (Throw message, s')
  end.
Proof.
  induction l1 as [|[tk txs] l1 IH]; intros acc s; simpl; [done|].
  destruct (0 <? length txs)%nat; [|apply IH].
  unfold bind. destruct (sendTokenGroup config options tk txs s) as [[info|m] s1]; [|done].
  apply IH.
Qed.

Lemma sendTokenGroup_trace (options : Options.t) (tokenAddress : string)
    (tokenTxs : list Tx) (s s' : St W) (r : Result Info.t) :
  sendTokenGroup config options tokenAddress tokenTxs s = (r, s') ->
  exists evs, trace s' = trace s ++ evs /\
    forall ev, In ev evs ->
      match ev with
      | EvSendETH _ _ _ _ | EvEstimateETH _ _ _ _ => False
      | EvBalanceOf tk _ _ | EvAllowance tk _ _ _ | EvApprove tk _ _ _
      | EvEstimateToken tk _ _ _ | EvSendToken tk _ _ _ _ => tk = tokenAddress
      | _ => True
      end.
Proof.
  unfold sendTokenGroup, checkAndApproveToken.
  unfold bind at 1. unfold bind at 1.
  destruct (getConnection config s) as [[c|m] s0] eqn:Hc;
    apply getConnection_trace in Hc as (evs0 & Htr0 & Hconn).
  2:{ intros [= <- <-]. exists evs0. split; [done|].
      intros ev Hin. eapply connection_event_in in Hconn; [|eassumption].
      by destruct ev. }
  unfold bind, io, log, ret, throw. simpl. intros Hrun.
  repeat case_match; simplify_eq; simpl in *.
  all: rewrite ?Htr0, <- ?app_assoc; simpl.
  all: eexists; split; [reflexivity|].
  all: intros ev Hin; apply in_app_or in Hin as [Hin|Hin];
       [ eapply connection_event_in in Hconn; [|eassumption]; by destruct ev | ].
  all: simpl in Hin; repeat (destruct Hin as [<-|Hin]; [done|]); done.
Qed.

(** C1, as the code has it: when the native group and the token groups
    before one have been finalized and that one throws, the caller gets only
    an error whose message is the failing step's, prefixed; the receipts
    recorded so far ([ethTransaction], [erc20Transactions]) are in nothing
    that is returned or thrown.  Nothing is rolled back: the run ends in the
    state the failing group left, whose trace extends the trace of the
    finalized groups by operations on the failing token only. *)
Theorem failure_discards_completed_receipts (options : Options.t)
    (g : TransactionGroups) (s s0 s1 s2 s3 : St W) (c : Connection)
    (ethTransaction : option Info.t) (completed : JsObject (list Tx))
    (tokenAddress : string) (tokenTxs : list Tx) (rest : JsObject (list Tx))
    (erc20Transactions : JsObject Info.t) (message : string) :
  erc20 g = completed ++ (tokenAddress, tokenTxs) :: rest ->
  tokenTxs <> [] ->
  getConnection config s = (Return c, s0) ->
  sendEthPart options (eth g) s0 = (Return ethTransaction, s1) ->
  sendTokenGroups config options completed [] s1 = (Return erc20Transactions, s2) ->
  sendTokenGroup config options tokenAddress tokenTxs s2 = (Throw message, s3) ->
  sendBatchTransaction config options g s
    = (Throw ("Failed to send batch transaction: " +:+ message), s3) /\
  exists evs, trace s3 = trace s2 ++ evs /\
    forall ev, In ev evs ->
      match ev with
      | EvSendETH _ _ _ _ | EvEstimateETH _ _ _ _ => False
      | EvBalanceOf tk _ _ | EvAllowance tk _ _ _ | EvApprove tk _ _ _
      | EvEstimateToken tk _ _ _ | EvSendToken tk _ _ _ _ => tk = tokenAddress
      | _ => True
      end.
Proof.
  intros Hgroups Hne Hconn Heth Hdone Hfail.
  split; [|by eapply sendTokenGroup_trace].
  unfold sendBatchTransaction, bind at 1. rewrite Hconn.
  assert (Hcount : (length (eth g) + erc20_count (erc20 g))%nat <> 0%nat).
  { rewrite Hgroups, erc20_count_app, erc20_count_cons.
    destruct tokenTxs; [done|simpl; lia]. }
  destruct (Nat.eqb_spec (length (eth g) + erc20_count (erc20 g)) 0); [done|].
  unfold sendQueued, try_catch, bind at 1. rewrite Heth.
  unfold bind at 1. rewrite Hgroups, sendTokenGroups_app, Hdone. simpl.
  destruct tokenTxs as [|tx tokenTxs]; [done|]. simpl.
  unfold bind at 1. by rewrite Hfail.
Qed.

End Async.

(** *** The theorems and their failures at concrete inputs *)

(** C6, as the specification words it, fails: the same address in lower and
    in upper case is counted twice, where the case-normalized set has one
    element. *)
Lemma uniqueRecipients_not_case_normalized :
  Status.uniqueRecipients
    (getBatchStatus (E:=EthersModel.ethers) Examples.same_recipient_twice)
    <> Spec.unique_recipients_normalized Examples.same_recipient_twice /\
  Status.uniqueRecipients
    (getBatchStatus (E:=EthersModel.ethers) Examples.same_recipient_twice) = 2%nat /\
  Spec.unique_recipients_normalized Examples.same_recipient_twice = 1%nat /\
  map to (eth Examples.same_recipient_twice) = [Examples.lower_R1; Examples.upper_R1] /\
  Spec.normalize_case Examples.lower_R1 = Spec.normalize_case Examples.upper_R1.
Proof. by vm_compute. Qed.

(** The amount [abc] for a token that has no group yet. *)
Lemma addErc20Transaction_malformed_amount_creates_group_witness :
  addErc20Transaction (E:=EthersModel.ethers) Examples.token_T Examples.R2 "abc" None
    empty_groups
  = (Throw "Error adding ERC-20 transaction: invalid FixedNumber string value",
     {| eth := []; erc20 := [(Examples.token_T, [])] |}) /\
  {| eth := []; erc20 := [(Examples.token_T, [])] |} <> empty_groups.
Proof.
  destruct (addErc20Transaction_malformed_amount_creates_group
              (E:=EthersModel.ethers) Examples.token_T Examples.R2 "abc" None
              empty_groups "invalid FixedNumber string value")
    as (Hrun & Hne & _); [reflexivity..|].
  split; [exact Hrun|exact Hne].
Defined.

(** C4, as the specification words it, fails: for the simulated cost 96394
    of the README the figure with margin is 106033, and the ceiling of
    106033.4 is 106034. *)
Lemma margin_is_not_the_ceiling :
  let run :=
    estimateGas (E:=EthersModel.ethers) (Net:=Mock.network) Examples.config
      Examples.no_options Examples.example_batch (Mock.start (Examples.node 90000)) in
  (exists res est,
     fst run = Return res /\ GasResults.gasEstimates res = Some est /\
     Estimate.gasEstimate est = 96394 /\ Estimate.gasWithBuffer est = 106033) /\
  Spec.ceil_with_margin 96394 = 106034 /\
  add_buffer 96394 <> Spec.ceil_with_margin 96394.
Proof.
  split; [|split]; [|by vm_compute..].
  vm_compute. by do 2 eexists.
Qed.

(** The simulated cost 96394. *)
Lemma gas_budget_is_floor_with_margin_witness :
  add_buffer 96394 = Spec.floor_with_margin 96394 /\
  add_buffer 96394 <= Spec.ceil_with_margin 96394.
Proof.
  destruct (proj1 (gas_budget_is_floor_with_margin (E:=EthersModel.ethers)
                     (Net:=Mock.network) Examples.config) 96394) as (Hfloor & Hle & _).
  - by vm_compute.
  - split; [exact Hfloor|exact Hle].
Defined.

(** C9, as the specification words it, fails: with nothing queued and no
    executor address configured, both functions throw the connection's
    error, not their empty-batch error. *)
Lemma empty_batch_without_connection :
  fst (estimateGas (E:=EthersModel.ethers) (Net:=Mock.network)
         Examples.config_without_executor Examples.no_options empty_groups
         (Mock.start (Examples.node 0)))
    = Throw "MultiSend contract address is required" /\
  fst (sendBatchTransaction (E:=EthersModel.ethers) (Net:=Mock.network)
         Examples.config_without_executor Examples.no_options empty_groups
         (Mock.start (Examples.node 0)))
    = Throw "MultiSend contract address is required" /\
  fst (estimateGas (E:=EthersModel.ethers) (Net:=Mock.network)
         Examples.config_without_executor Examples.no_options empty_groups
         (Mock.start (Examples.node 0)))
    <> Throw "No transactions to estimate gas for" /\
  fst (sendBatchTransaction (E:=EthersModel.ethers) (Net:=Mock.network)
         Examples.config_without_executor Examples.no_options empty_groups
         (Mock.start (Examples.node 0)))
    <> Throw "No transactions to send".
Proof. by vm_compute. Qed.

(** Nothing queued, with a configuration that connects. *)
Lemma empty_batch_fails_once_connected_witness :
  fst (estimateGas (E:=EthersModel.ethers) (Net:=Mock.network) Examples.config
         Examples.no_options empty_groups (Mock.start (Examples.node 0)))
    = Throw "No transactions to estimate gas for" /\
  fst (sendBatchTransaction (E:=EthersModel.ethers) (Net:=Mock.network) Examples.config
         Examples.no_options empty_groups (Mock.start (Examples.node 0)))
    = Throw "No transactions to send".
Proof.
  destruct (empty_batch_fails_once_connected (E:=EthersModel.ethers)
              (Net:=Mock.network) Examples.config Examples.no_options empty_groups
              (Mock.start (Examples.node 0))) as [Hempty _].
  destruct (Hempty eq_refl) as (Hconnected & _).
  edestruct Hconnected as [Hestimate Hsend]; [by vm_compute|].
  rewrite Hestimate, Hsend. by split.
Defined.


(** C1, as the specification words it, fails: two runs that finalize
    different receipts for the native group and for the first token throw
    the same error and print the same lines, so their caller cannot tell
    the receipts apart, let alone recover them. *)
Lemma receipts_not_recoverable_from_failure :
  let run gasUsed :=
    sendBatchTransaction (E:=EthersModel.ethers) (Net:=Mock.network)
      Examples.config Examples.no_options Examples.two_token_batch
      (Mock.start (Examples.node gasUsed)) in
  let receipt gasUsed block hash :=
    {| Receipt.hash := hash; Receipt.blockNumber := block;
       Receipt.gasUsed := gasUsed; Receipt.status := Some 1 |} in
  fst (run 90000) = Throw "Failed to send batch transaction: execution reverted" /\
  fst (run 95000) = fst (run 90000) /\
  console (trace (snd (run 95000))) = console (trace (snd (run 90000))) /\
  In (EvWait {| Response.hash := "0xe1" |} (Return (receipt 90000 11 "0xe1")))
     (trace (snd (run 90000))) /\
  In (EvWait {| Response.hash := "0xf1" |} (Return (receipt 90000 13 "0xf1")))
     (trace (snd (run 90000))) /\
  In (EvWait {| Response.hash := "0xe1" |} (Return (receipt 95000 11 "0xe1")))
     (trace (snd (run 95000))) /\
  In (EvWait {| Response.hash := "0xf1" |} (Return (receipt 95000 13 "0xf1")))
     (trace (snd (run 95000))) /\
  (forall recover : Result Results.t -> Receipt.t,
     ~ (recover (fst (run 90000)) = receipt 90000 11 "0xe1" /\
        recover (fst (run 95000)) = receipt 95000 11 "0xe1")).
Proof.
  vm_compute. repeat split; try (repeat first [left; reflexivity | right]).
  intros recover [H1 H2]. rewrite H1 in H2. discriminate H2.
Qed.

(** The native group and the first token are finalized, the node refuses the
    second token. *)
Lemma failure_discards_completed_receipts_witness :
  exists s3,
    sendBatchTransaction (E:=EthersModel.ethers) (Net:=Mock.network) Examples.config
      Examples.no_options Examples.two_token_batch (Mock.start (Examples.node 90000))
    = (Throw "Failed to send batch transaction: execution reverted", s3).
Proof.
  eexists.
  eapply (failure_discards_completed_receipts (E:=EthersModel.ethers)
            (Net:=Mock.network) Examples.config Examples.no_options
            Examples.two_token_batch (Mock.start (Examples.node 90000))
            _ _ _ _ _ _
            (take 1 (erc20 Examples.two_token_batch))
            Examples.token_U
            (default [] (obj_get Examples.token_U (erc20 Examples.two_token_batch)))
            []).
  - vm_compute. reflexivity.
  - vm_compute. discriminate.
  - vm_compute. reflexivity.
  - vm_compute. reflexivity.
  - vm_compute. reflexivity.
  - vm_compute. reflexivity.
Defined.

End ClientProofs.

(** ** Proofs: the executor as a whole *)

Module ExecutorExtras.

Import Executor ExecutorSpec ExecutorCalls ExecutorProofs.
Local Open Scope N_scope.

Section Contract.

Context {T : Type} `{Tok : IERC20 T}.
Variable this : address.
Variable accepts : address -> N -> bool.

Local Abbreviation state := (@State T).


Lemma received_none (x : address) (entries : list (address * N)) :
  Forall (fun '(r, _) => r <> x) entries -> received x entries = 0.
Proof.
  induction 1 as [|[r a] entries Hr _ IH]; simpl; [done|].
  destruct (N.eqb_spec r x); [done|]. by rewrite IH.
Qed.

Lemma external_call_outcome (st : state) (msg_sender : address) (msg_value : N)
    (c : Call) :
  (exists st', external_call this accepts st msg_sender msg_value c
               = (Ran (Success tt), st')) \/
  (exists o, external_call this accepts st msg_sender msg_value c = (o, st)).
Proof.
  destruct c as [rs ams|tk rs ams|tks r ams| |]; simpl.
  - unfold ran, call_multiSendETH, transact. destruct (_ <? _); [eauto|].
    destruct (multiSendETH _ _ _ _ _ _ _) as [[[] st']|r]; eauto.
  - unfold without_value. destruct (_ <? _); [eauto|]. destruct (_ <? _); [eauto|].
    unfold ran.
    destruct (multiSendToken_reverts_or_succeeds this st msg_sender tk rs ams)
      as [[st' ->]|[r ->]]; eauto.
  - unfold without_value. destruct (_ <? _); [eauto|]. destruct (_ <? _); [eauto|].
    unfold ran.
    destruct (multiTokenTransfer_reverts_or_succeeds this st msg_sender tks r ams)
      as [[st' ->]|[rv ->]]; eauto.
  - unfold ran, transact, receive, revert. destruct (_ <? _); eauto.
  - unfold ran, transact, fallback, revert. destruct (_ <? _); eauto.
Qed.

Lemma ran_success (run : result unit * state) (st' : state) :
  ran run = (Ran (Success tt), st') -> run = (Success tt, st').
Proof. destruct run as [[[]|r] st1]; unfold ran; simpl; congruence. Qed.

Lemma without_value_success (msg_sender : address) (msg_value : N)
    (run : state -> result unit * state) (st st' : state) :
  without_value msg_sender msg_value run st = (Ran (Success tt), st') ->
  run st = (Success tt, st').
Proof.
  unfold without_value. destruct (_ <? _); [done|]. destruct (_ <? _); [done|].
  apply ran_success.
Qed.

(** *** Conservation of native value *)

Lemma total_supply_set_balance (st : state) (a : address) (v : N) :
  total_supply (set_balance a v st) + balance st a = total_supply st + v.
Proof.
  unfold total_supply, set_balance, balance. simpl.
  assert (Hcomm : forall (m : gmap address N) (j1 j2 : address) (z1 z2 y : N),
            j1 <> j2 -> m !! j1 = Some z1 -> m !! j2 = Some z2 ->
            z1 + (z2 + y) = z2 + (z1 + y)) by (intros; lia).
  destruct (balances st !! a) as [y|] eqn:Ha; simpl.
  - rewrite (map_fold_delete_L _ _ a y (balances st)) by (by eauto using Hcomm).
    rewrite <- (insert_delete_eq (balances st)).
    rewrite map_fold_insert_L; [lia|by eauto using Hcomm|apply lookup_delete_eq].
  - rewrite map_fold_insert_L; [lia|by eauto using Hcomm|done].
Qed.

Lemma total_supply_move (st : state) (from to : address) (a : N) :
  a <= balance st from ->
  total_supply (credit to a (debit from a st)) = total_supply st.
Proof.
  intros Hle. unfold credit, debit.
  pose proof (total_supply_set_balance st from (balance st from - a)) as H1.
  pose proof (total_supply_set_balance (set_balance from (balance st from - a) st) to
                (balance (set_balance from (balance st from - a) st) to + a)) as H2.
  lia.
Qed.

Lemma each_eth_total_supply (entries : list (address * N)) :
  forall st st' : state,
  each (eth_step this accepts) entries st = Success (tt, st') ->
  total_supply st' = total_supply st.
Proof.
  induction entries as [|[r a] entries IH]; intros st st'; simpl.
  - by intros [= <-].
  - unfold bind.
    destruct (eth_step this accepts r a st) as [[[] st1]|rv] eqn:Hstep; [|done].
    apply eth_step_inv in Hstep as (_ & _ & _ & Hle & ->).
    intros Hrest. rewrite (IH _ _ Hrest). by apply total_supply_move.
Qed.

Lemma external_call_total_supply (st : state) (msg_sender : address)
    (msg_value : N) (c : Call) :
  total_supply (snd (external_call this accepts st msg_sender msg_value c))
    = total_supply st.
Proof.
  destruct (external_call_outcome st msg_sender msg_value c) as [[st' Hok]|[r Hr]];
    [|by rewrite Hr].
  rewrite Hok. simpl. destruct c as [rs ams|tk rs ams|tks r ams| |]; simpl in Hok.
  - apply ran_success in Hok. revert Hok. unfold call_multiSendETH, transact.
    destruct (N.ltb_spec (balance st msg_sender) msg_value) as [|Hfund]; [done|].
    rewrite multiSendETH_body.
    repeat (destruct (negb _); [done|]).
    destruct (each _ _ _) as [[[] st1]|rv] eqn:Hrun; [|done].
    unfold emit. intros [= <-]. unfold total_supply. simpl.
    change (total_supply st1 = total_supply st).
    rewrite (each_eth_total_supply _ _ _ Hrun). by apply total_supply_move.
  - apply without_value_success in Hok.
    apply multiSendToken_success in Hok as (_ & _ & _ & _ & _ & _ & t' & _ & ->).
    done.
  - apply without_value_success in Hok.
    apply multiTokenTransfer_success in Hok as (_ & _ & _ & _ & Hb).
    unfold total_supply. by rewrite Hb.
  - apply ran_success in Hok. revert Hok. unfold transact, receive, revert.
    by destruct (_ <? _).
  - apply ran_success in Hok. revert Hok. unfold transact, fallback, revert.
    by destruct (_ <? _).
Qed.

(** X2: no sequence of transactions to the executor makes or destroys
    native value: the sum of all balances stays what it was. *)
Theorem native_value_is_conserved (st : state) (calls : list (address * N * Call)) :
  total_supply (run_calls this accepts st calls) = total_supply st.
Proof.
  unfold run_calls. revert st.
  induction calls as [|[[msg_sender msg_value] c] calls IH]; intros st; simpl; [done|].
  rewrite IH. apply external_call_total_supply.
Qed.

(** *** Which error a reverted native multi-send reports *)

Lemma each_app {A B} (step : A -> B -> M (T:=T) unit) (l1 l2 : list (A * B)) (st : state) :
  each step (l1 ++ l2) st =
  match each step l1 st with
  | Success (_, st') => each step l2 st'
  | Reverted r => Reverted r
  end.
Proof.
  revert st. induction l1 as [|[x y] l1 IH]; intros st; simpl; [done|].
  unfold bind. destruct (step x y st) as [[[] st1]|r]; [apply IH|done].
Qed.

Lemma sum_amounts_app (l1 l2 : list N) :
  sum_amounts (l1 ++ l2) = sum_amounts l1 + sum_amounts l2.
Proof. induction l1 as [|a l1 IH]; simpl; [done|]. rewrite IH. lia. Qed.

(** X3: which error a reverted [multiSendETH] reports, for a caller who
    holds the attached value.  The checks fail in the order of the code:
    arrays of different lengths, an empty batch, a sum of the amounts past
    [2^256 - 1] (the arithmetic panic 0x11, not an error string), an attached
    value that is not the sum, and then the first entry that names the zero
    address or whose transfer fails, with the error of that check; each time
    the state is the one before the call. *)
Theorem multiSendETH_revert_reason (st : state) (msg_sender : address)
    (msg_value : N) (recipients : list address) (amounts : list N) :
  msg_value <= balance st msg_sender ->
  let outcome :=
    call_multiSendETH this accepts st msg_sender msg_value recipients amounts in
  (length recipients <> length amounts ->
   outcome = (Reverted (Require_failed
                "Recipients and amounts arrays must be the same length"), st)) /\
  (length recipients = length amounts -> length recipients = 0%nat ->
   outcome = (Reverted (Require_failed "Must provide at least one recipient"), st)) /\
  (length recipients = length amounts -> length recipients <> 0%nat ->
   MAX_UINT256 < sum_amounts amounts ->
   outcome = (Reverted (Panic 17), st)) /\
  (length recipients = length amounts -> length recipients <> 0%nat ->
   sum_amounts amounts <= MAX_UINT256 -> msg_value <> sum_amounts amounts ->
   outcome = (Reverted (Require_failed "Sent ETH value must match total amount"), st)) /\
  (forall paid r a rest,
     length recipients = length amounts ->
     sum_amounts amounts <= MAX_UINT256 -> msg_value = sum_amounts amounts ->
     zip recipients amounts = paid ++ (r, a) :: rest ->
     Forall (fun '(r, a) => r <> zero_address /\ ~ transfer_fails this accepts r a) paid ->
     (r = zero_address ->
      outcome = (Reverted (Require_failed "Invalid recipient address"), st)) /\
     (r <> zero_address -> transfer_fails this accepts r a ->
      outcome = (Reverted (Require_failed "ETH transfer failed"), st))).
Proof.
  intros Hfund outcome. unfold outcome, call_multiSendETH, transact.
  destruct (N.ltb_spec (balance st msg_sender) msg_value) as [|_]; [lia|].
  rewrite multiSendETH_body.
  set (st1 := credit this msg_value (debit msg_sender msg_value st)).
  split; [|split; [|split; [|split]]].
  - intros Hlen. by destruct (Nat.eqb_spec (length recipients) (length amounts)).
  - intros Hlen Hnil. destruct (Nat.eqb_spec (length recipients) (length amounts)); [|done].
    simpl. destruct (Nat.ltb_spec 0 (length recipients)); [lia|done].
  - intros Hlen Hpos Hbig.
    destruct (Nat.eqb_spec (length recipients) (length amounts)); [|done]. simpl.
    destruct (Nat.ltb_spec 0 (length recipients)); [|lia]. simpl.
    destruct (N.leb_spec (sum_amounts amounts) MAX_UINT256); [lia|done].
  - intros Hlen Hpos Hfit Hval.
    destruct (Nat.eqb_spec (length recipients) (length amounts)); [|done]. simpl.
    destruct (Nat.ltb_spec 0 (length recipients)); [|lia]. simpl.
    destruct (N.leb_spec (sum_amounts amounts) MAX_UINT256); [|lia]. simpl.
    by destruct (N.eqb_spec msg_value (sum_amounts amounts)).
  - intros paid r a rest Hlen Hfit Hval Hzip Hpaid.
    assert (Hpos : (0 < length recipients)%nat).
    { apply (f_equal length) in Hzip.
      rewrite length_zip_with, length_app in Hzip. simpl in Hzip. lia. }
    destruct (Nat.eqb_spec (length recipients) (length amounts)); [|done]. simpl.
    destruct (Nat.ltb_spec 0 (length recipients)); [|lia]. simpl.
    destruct (N.leb_spec (sum_amounts amounts) MAX_UINT256); [|lia]. simpl.
    destruct (N.eqb_spec msg_value (sum_amounts amounts)); [|done]. simpl.
    assert (Hsum : sum_amounts (map snd paid) + a <= balance st1 this).
    { pose proof (sum_amounts_zip recipients amounts Hlen) as Hs.
      rewrite Hzip, map_app, sum_amounts_app in Hs. simpl in Hs.
      unfold st1, credit. rewrite balance_set_balance, N.eqb_refl. lia. }
    destruct (each_eth_ok this accepts paid st1 Hpaid) as (st2 & Hrun & _ & _ & Hbal);
      [lia|].
    rewrite Hzip, each_app, Hrun. simpl. unfold bind.
    specialize (Hbal this). rewrite N.eqb_refl in Hbal.
    rewrite (received_none this) in Hbal.
    2:{ eapply Forall_impl; [exact Hpaid|]. intros [r' a'] [_ Hnf] ->. apply Hnf. by left. }
    split.
    + intros ->. unfold eth_step, bind, require. by simpl.
    + intros Hz Hf. unfold eth_step, bind, require, call_value, ret, revert.
      destruct (N.eqb_spec r zero_address); [done|]. simpl.
      destruct (N.ltb_spec (balance st2 this) a); [done|].
      destruct (N.eqb_spec r this); [done|].
      destruct Hf as [?|Hacc]; [done|]. by rewrite Hacc.
Qed.

(** *** One entry through either token entry point *)

(** X4: for one token, one recipient and one amount of 256 bits,
    [multiSendToken] and
    [multiTokenTransfer] succeed on the same states and leave the same
    state, event included. *)
Theorem single_entry_token_calls_agree (st st' : state)
    (msg_sender token recipient : address) (amount : N) :
  amount <= MAX_UINT256 ->
  call_multiSendToken this st msg_sender token [recipient] [amount] = (Success tt, st') <->
  call_multiTokenTransfer this st msg_sender [token] recipient [amount] = (Success tt, st').
Proof.
  intros Hmax.
  rewrite multiSendToken_success, multiTokenTransfer_success. simpl.
  rewrite N.add_0_r. split.
  - intros (Htk & _ & _ & _ & (allowed & Hal & Hle) & Hall & t' & Ht' & ->).
    apply Forall_cons in Hall as [[Hr Hpos] _].
    destruct (transferFrom (tokens st) token this msg_sender recipient amount)
      as [t1|] eqn:Htr; [|done]. injection Ht' as <-.
    repeat split; try done. simpl.
    eapply token_steps_cons; eauto. apply token_steps_nil.
  - intros (_ & _ & Hr & Hs & Hb). inversion Hs as [|? ? ? ? ? allowed t1 ? ? Htk Hpos Hal Hle Htr Hrest]; subst.
    inversion Hrest; subst.
    repeat split; try done; try lia.
    + by exists allowed.
    + by repeat constructor.
    + exists (tokens st'). rewrite Htr. split; [done|].
      destruct st'; simpl in *. change (N.of_nat 1) with 1. congruence.
Qed.

(** *** One batch or two *)



End Contract.

(** The second of two entries names the zero address: the call reverts with
    the error of that check, though the first entry could be paid. *)
Lemma multiSendETH_revert_reason_witness :
  call_multiSendETH (T:=Ledger.t) Examples.executor Examples.everyone_accepts
    Examples.chain 1 30 [2; 0] [10; 20]
  = (Reverted (Require_failed "Invalid recipient address"), Examples.chain).
Proof.
  assert (Hfund : 30 <= balance Examples.chain 1) by (by vm_compute).
  destruct (multiSendETH_revert_reason (T:=Ledger.t) Examples.executor
              Examples.everyone_accepts Examples.chain 1 30 [2; 0] [10; 20] Hfund)
    as (_ & _ & _ & _ & Hentry).
  apply (Hentry [(2, 10)] 0 20 []).
  - reflexivity.
  - by vm_compute.
  - reflexivity.
  - reflexivity.
  - constructor; [|constructor]. split; [discriminate|].
    intros [H|H]; discriminate H.
  - reflexivity.
Defined.

(** Ten units of token 77 to account 2, by either entry point. *)
Lemma single_entry_token_calls_agree_witness :
  exists st',
    call_multiSendToken (Tok:=Ledger.erc20) Examples.executor Examples.chain
      1 77 [2] [10] = (Success tt, st') /\
    call_multiTokenTransfer (Tok:=Ledger.erc20) Examples.executor Examples.chain
      1 [77] 2 [10] = (Success tt, st').
Proof.
  eexists. split; [vm_compute; reflexivity|].
  apply (single_entry_token_calls_agree (Tok:=Ledger.erc20)).
  - by vm_compute.
  - vm_compute. reflexivity.
Defined.


End ExecutorExtras.

(** ** Proofs: the queue of the manager *)

Module ManagerExtras.

Import Client ClientSpec ManagerOps ClientProofs.
Local Open Scope Z_scope.

Section Manager.

Context `{E : Ethers}.

(** *** The JavaScript object *)

Lemma obj_get_set_eq {V} (k : string) (v : V) (o : JsObject V) :
  obj_get k (obj_set k v o) = Some v.
Proof.
  induction o as [|[k' v'] o IH]; simpl.
  - by rewrite String.eqb_refl.
  - destruct (String.eqb k k') eqn:Hk; simpl; [by rewrite String.eqb_refl|].
    by rewrite Hk.
Qed.

Lemma obj_get_set_ne {V} (k k' : string) (v : V) (o : JsObject V) :
  k <> k' -> obj_get k' (obj_set k v o) = obj_get k' o.
Proof.
  intros Hne. induction o as [|[k0 v0] o IH]; simpl.
  - destruct (String.eqb_spec k' k); [congruence|done].
  - destruct (String.eqb_spec k k0) as [<-|]; simpl.
    + destruct (String.eqb_spec k' k); [congruence|done].
    + by destruct (String.eqb_spec k' k0).
Qed.

Lemma obj_keys_set_present {V} (k : string) (v : V) (o : JsObject V) :
  is_Some (obj_get k o) -> obj_keys (obj_set k v o) = obj_keys o.
Proof.
  unfold obj_keys. induction o as [|[k0 v0] o IH]; simpl; [by intros [? ?]|].
  destruct (String.eqb_spec k k0) as [<-|]; simpl; [done|].
  intros Hget. by rewrite IH.
Qed.

Lemma obj_get_None_keys {V} (k : string) (o : JsObject V) :
  obj_get k o = None <-> k ∉ obj_keys o.
Proof.
  unfold obj_keys. induction o as [|[k0 v0] o IH]; simpl.
  - split; [intros _; apply not_elem_of_nil|done].
  - rewrite not_elem_of_cons.
    destruct (String.eqb_spec k k0) as [<-|]; [by split; [|intros [? _]]|].
    rewrite IH. naive_solver.
Qed.

Lemma obj_get_Some_elem {V} (k : string) (v : V) (o : JsObject V) :
  obj_get k o = Some v -> (k, v) ∈ o.
Proof.
  induction o as [|[k0 v0] o IH]; simpl; [done|].
  destruct (String.eqb_spec k k0) as [<-|].
  - intros [= ->]. by left.
  - intros Hget. right. by apply IH.
Qed.

Lemma obj_set_Forall {V} (P : string * V -> Prop) (k : string) (v : V) (o : JsObject V) :
  Forall P o -> P (k, v) -> Forall P (obj_set k v o).
Proof.
  intros Ho Hkv. induction Ho as [|[k0 v0] o Hhd Htl IH]; simpl.
  - by repeat constructor.
  - destruct (String.eqb k k0); by constructor.
Qed.

(** *** What a successful [addErc20Transaction] does *)

(** X6: an [addErc20Transaction] that returns has parsed the amount with
    the decimals given (18 when none), returns [true], leaves the native
    entries alone, puts the entry at the end of the group of its token,
    leaves the group of every other token as it was, and adds a key, the
    last one, only when the token had no group. *)
Theorem addErc20Transaction_appends_to_its_group (tokenAddress to_ value_ : string)
    (decimals_ : option Z) (g g' : TransactionGroups) (b : bool) :
  addErc20Transaction tokenAddress to_ value_ decimals_ g = (Return b, g') ->
  exists v,
    parseUnits value_ (default 18 decimals_) = Return v /\
    isAddress tokenAddress = true /\ isAddress to_ = true /\ b = true /\
    eth g' = eth g /\
    obj_get tokenAddress (erc20 g')
      = Some (default [] (obj_get tokenAddress (erc20 g))
              ++ [{| to := to_; value := v; decimals := Some (default 18 decimals_) |}]) /\
    (forall other, other <> tokenAddress ->
       obj_get other (erc20 g') = obj_get other (erc20 g)) /\
    obj_keys (erc20 g')
      = match obj_get tokenAddress (erc20 g) with
        | Some _ => obj_keys (erc20 g)
        | None => obj_keys (erc20 g) ++ [tokenAddress]
        end.
Proof.
  unfold addErc20Transaction.
  destruct (isAddress tokenAddress); simpl; [|done].
  destruct (isAddress to_); simpl; [|done].
  destruct (parseUnits value_ (default 18 decimals_)) as [v|m]; [|done].
  intros [= <- <-]. exists v. repeat split; try done.
  - destruct (obj_get tokenAddress (erc20 g)); done.
  - simpl. rewrite obj_get_set_eq.
    destruct (obj_get tokenAddress (erc20 g)) as [group|] eqn:Hget; simpl.
    + by rewrite Hget.
    + by rewrite obj_get_set_eq.
  - intros other Hne. simpl. rewrite obj_get_set_ne by done.
    destruct (obj_get tokenAddress (erc20 g)); simpl; [done|].
    by rewrite obj_get_set_ne.
  - simpl.
    destruct (obj_get tokenAddress (erc20 g)) as [group|] eqn:Hget; simpl.
    + by rewrite obj_keys_set_present by (by rewrite Hget).
    + rewrite obj_keys_set_present by (by rewrite obj_get_set_eq).
      rewrite obj_set_fresh by done. unfold obj_keys. by rewrite map_app.
Qed.

(** *** The shape of every state *)

Lemma well_formed_empty : well_formed empty_groups.
Proof. repeat split; constructor. Qed.

Lemma apply_op_well_formed (op : Op) (g : TransactionGroups) :
  well_formed g -> well_formed (apply_op op g).
Proof.
  intros (Hnd & Hkeys & Heth & Htok).
  destruct op as [to_ value_|tokenAddress to_ value_ decimals_|]; simpl.
  - unfold addEthTransaction.
    destruct (isAddress to_) eqn:Hto; simpl; [|done].
    destruct (parseEther value_); simpl; [|done].
    repeat split; try done. apply Forall_app. split; [done|]. by repeat constructor.
  - unfold addErc20Transaction.
    destruct (isAddress tokenAddress) eqn:Htk; simpl; [|done].
    destruct (isAddress to_) eqn:Hto; simpl; [|done].
    set (g1 := match obj_get tokenAddress (erc20 g) with
               | Some _ => g
               | None => {| eth := eth g; erc20 := obj_set tokenAddress [] (erc20 g) |}
               end).
    assert (H1 : well_formed g1).
    { unfold g1. destruct (obj_get tokenAddress (erc20 g)) eqn:Hget; [done|].
      repeat split; simpl; try done.
      - rewrite obj_set_fresh by done. unfold obj_keys. rewrite map_app. simpl.
        apply NoDup_app. repeat split; [done| |apply NoDup_singleton].
        intros k Hk Hk'. apply list_elem_of_singleton in Hk' as ->.
        by apply obj_get_None_keys in Hget.
      - rewrite obj_set_fresh by done. unfold obj_keys. rewrite map_app.
        apply Forall_app. split; [done|]. by repeat constructor.
      - apply obj_set_Forall; [done|constructor]. }
    assert (Hin1 : is_Some (obj_get tokenAddress (erc20 g1))).
    { unfold g1. destruct (obj_get tokenAddress (erc20 g)) eqn:Hget; [by rewrite Hget|].
      simpl. by rewrite obj_get_set_eq. }
    destruct H1 as (Hnd1 & Hkeys1 & Heth1 & Htok1).
    destruct (parseUnits value_ (default 18 decimals_)); simpl; [|done].
    repeat split; simpl; try done.
    + by rewrite obj_keys_set_present.
    + by rewrite obj_keys_set_present.
    + apply obj_set_Forall; [done|].
      apply Forall_app. split; [|by repeat constructor].
      destruct Hin1 as [group Hgroup]. rewrite Hgroup. simpl.
      apply obj_get_Some_elem in Hgroup.
      rewrite Forall_forall in Htok1. apply (Htok1 _ Hgroup).
  - apply well_formed_empty.
Qed.

(** X7: every state a manager reaches from its creation, by any calls of
    [addEthTransaction], [addErc20Transaction] and [clearTransactions],
    returned or thrown, is well formed: the token keys are distinct valid
    addresses, every recipient is a valid address, native entries carry no
    decimals and token entries do. *)
Theorem every_state_is_well_formed (ops : list Op) :
  well_formed (run_ops ops empty_groups).
Proof.
  unfold run_ops. generalize well_formed_empty. generalize empty_groups.
  induction ops as [|op ops IH]; intros g Hg; simpl; [done|].
  apply IH. by apply apply_op_well_formed.
Qed.

(** *** What [getBatchStatus] reports *)

Lemma foldl_add_shift (l : list Z) (a : Z) :
  foldl (fun sum x => sum + x) a l = a + foldl (fun sum x => sum + x) 0 l.
Proof.
  revert a. induction l as [|x l IH]; intros a; simpl; [lia|].
  rewrite (IH (a + x)), (IH (0 + x)). lia.
Qed.

Lemma status_eth_loop_value (txs : list Tx) (s : gset string) (v : Z) :
  snd (status_eth_loop txs (s, v)) = v + total (map value txs).
Proof.
  unfold status_eth_loop, total. revert s v.
  induction txs as [|tx txs IH]; intros s v; simpl; [lia|].
  rewrite IH, (foldl_add_shift _ (value tx)). lia.
Qed.

Lemma status_erc20_loop_count (groups : JsObject (list Tx)) (n : nat) (s : gset string) :
  fst (status_erc20_loop groups (n, s)) = (n + erc20_count groups)%nat.
Proof.
  unfold status_erc20_loop. revert n s.
  induction groups as [|[tk txs] groups IH]; intros n s; simpl.
  - unfold erc20_count. simpl. lia.
  - rewrite IH, erc20_count_cons. lia.
Qed.

Lemma size_list_to_set_le (l : list string) :
  (size (list_to_set l : gset string) <= length l)%nat.
Proof.
  induction l as [|x l IH].
  { rewrite list_to_set_nil, size_empty. simpl. lia. }
  rewrite list_to_set_cons, size_union_alt, size_singleton. simpl.
  assert (Hsub : list_to_set l ∖ {[x]} ⊆ (list_to_set l : gset string)) by set_solver.
  apply subseteq_size in Hsub. lia.
Qed.

Lemma length_all_recipients (g : TransactionGroups) :
  length (Spec.all_recipients g) = (length (eth g) + erc20_count (erc20 g))%nat.
Proof.
  unfold Spec.all_recipients. rewrite length_app, length_map. f_equal.
  induction (erc20 g) as [|[tk txs] groups IH]; simpl; [done|].
  rewrite length_app, length_map, IH, erc20_count_cons. done.
Qed.

(** The six fields of the status, read off the state. *)
Lemma getBatchStatus_fields (g : TransactionGroups) :
  getBatchStatus g =
  {| Status.totalTransactions := (length (eth g) + erc20_count (erc20 g))%nat;
     Status.ethTransactions := length (eth g);
     Status.erc20Transactions := erc20_count (erc20 g);
     Status.erc20TokenCount := length (erc20 g);
     Status.totalEthValue := formatEther (total (map value (eth g)));
     Status.uniqueRecipients :=
       size (list_to_set (Spec.all_recipients g) : gset string) |}.
Proof.
  unfold getBatchStatus, Spec.all_recipients.
  pose proof (status_eth_loop_recipients (eth g) ∅ 0) as Hset.
  pose proof (status_eth_loop_value (eth g) ∅ 0) as Hval.
  destruct (status_eth_loop (eth g) (∅, 0)) as [s1 v] eqn:H1. simpl in Hset, Hval.
  pose proof (status_erc20_loop_recipients (erc20 g) 0%nat s1) as Hset2.
  pose proof (status_erc20_loop_count (erc20 g) 0%nat s1) as Hcount.
  destruct (status_erc20_loop (erc20 g) (0%nat, s1)) as [n s2] eqn:H2.
  simpl in Hset2, Hcount. subst.
  unfold obj_keys. rewrite length_map, list_to_set_app_L. simpl.
  f_equal. f_equal. set_solver.
Qed.

(** X8: in every status [totalTransactions] is [ethTransactions] plus
    [erc20Transactions]; [uniqueRecipients] is at most [totalTransactions],
    and is zero exactly when nothing is queued; [erc20TokenCount] counts the
    token groups without entries too, so it is at least the number of groups
    that have entries, and no group has entries when [erc20Transactions] is
    zero. *)
Theorem status_counts_are_consistent (g : TransactionGroups) :
  let status := getBatchStatus g in
  Status.totalTransactions status
    = (Status.ethTransactions status + Status.erc20Transactions status)%nat /\
  (Status.uniqueRecipients status <= Status.totalTransactions status)%nat /\
  (Status.uniqueRecipients status = 0%nat <-> Status.totalTransactions status = 0%nat) /\
  (length (groups_with_entries (erc20 g)) <= Status.erc20TokenCount status)%nat /\
  (Status.erc20Transactions status = 0%nat -> groups_with_entries (erc20 g) = []).
Proof.
  rewrite getBatchStatus_fields. simpl.
  pose proof (size_list_to_set_le (Spec.all_recipients g)) as Hle.
  rewrite length_all_recipients in Hle.
  split; [done|]. split; [done|]. split; [|split].
  - split; [|lia]. intros Hzero.
    apply size_empty_iff in Hzero.
    rewrite <- length_all_recipients.
    destruct (Spec.all_recipients g) as [|x l]; [done|]. set_solver.
  - unfold groups_with_entries. clear Hle.
    induction (erc20 g) as [|[tk txs] groups IH]; simpl; [done|].
    destruct (0 <? length txs)%nat; simpl; lia.
  - clear Hle.
    induction (erc20 g) as [|[tk txs] groups IH]; simpl; [done|].
    rewrite erc20_count_cons. intros Hzero.
    destruct txs; simpl in *; [apply IH; lia|lia].
Qed.

(** *** Counting the queued entries *)

Lemma apply_op_total (op : Op) (g : TransactionGroups) :
  (length (eth (apply_op op g)) + erc20_count (erc20 (apply_op op g)))%nat =
  match op with
  | Clear => 0%nat
  | _ => if returns op g
         then S (length (eth g) + erc20_count (erc20 g))
         else (length (eth g) + erc20_count (erc20 g))%nat
  end.
Proof.
  destruct op as [to_ value_|tokenAddress to_ value_ decimals_|]; simpl; [| |done].
  - unfold addEthTransaction.
    destruct (isAddress to_); simpl; [|done].
    destruct (parseEther value_); simpl; [|done].
    rewrite length_app. simpl. lia.
  - unfold addErc20Transaction.
    destruct (isAddress tokenAddress); simpl; [|done].
    destruct (isAddress to_); simpl; [|done].
    assert (Hset : forall (o : JsObject (list Tx)) txs,
              erc20_count (obj_set tokenAddress txs o)
              = (erc20_count o + length txs
                 - length (default [] (obj_get tokenAddress o)))%nat).
    { induction o as [|[k0 v0] o IH]; intros txs; simpl.
      - rewrite erc20_count_cons. unfold erc20_count. simpl. lia.
      - destruct (String.eqb tokenAddress k0); simpl.
        + rewrite !erc20_count_cons. lia.
        + rewrite !erc20_count_cons, IH.
          assert (length (default [] (obj_get tokenAddress o)) <= erc20_count o)%nat; [|lia].
          clear. induction o as [|[k1 v1] o IH]; simpl; [lia|].
          rewrite erc20_count_cons. destruct (String.eqb tokenAddress k1); simpl; lia. }
    destruct (obj_get tokenAddress (erc20 g)) as [group|] eqn:Hget; simpl.
    + destruct (parseUnits _ _); simpl; [|done].
      rewrite Hset, Hget, length_app. simpl.
      assert (length group <= erc20_count (erc20 g))%nat; [|lia].
      clear -Hget. revert Hget. induction (erc20 g) as [|[k1 v1] o IH]; simpl; [done|].
      rewrite erc20_count_cons. destruct (String.eqb tokenAddress k1).
      * intros [= ->]. lia.
      * intros Hget. apply IH in Hget. lia.
    + destruct (parseUnits _ _); simpl.
      * rewrite obj_get_set_eq. simpl. rewrite !Hset, obj_get_set_eq, Hget. simpl. lia.
      * rewrite Hset, Hget. simpl. lia.
Qed.

(** X9: after any sequence of calls, [totalTransactions] is the number of
    adds that returned since the last [clearTransactions], on top of what
    was queued at the start when the sequence has none; an add that throws
    does not count. *)
Theorem totalTransactions_counts_returned_adds (ops : list Op) (g : TransactionGroups) :
  Status.totalTransactions (getBatchStatus (run_ops ops g))
    = queued_after ops g (Status.totalTransactions (getBatchStatus g)).
Proof.
  rewrite !getBatchStatus_fields. simpl. unfold run_ops. revert g.
  induction ops as [|op ops IH]; intros g; simpl; [done|].
  rewrite IH. f_equal. rewrite apply_op_total. by destruct op.
Qed.

End Manager.
(** A second entry of the token of [example.js]: it joins the group of the
    first, and no key is added. *)
Lemma addErc20Transaction_appends_to_its_group_witness :
  exists g',
    addErc20Transaction (E:=EthersModel.ethers) Examples.token_T Examples.lower_R1
      "2.5" (Some 6) Examples.example_batch = (Return true, g') /\
    option_map (map value) (obj_get Examples.token_T (erc20 g'))
      = Some [100000000; 2500000] /\
    obj_keys (erc20 g') = [Examples.token_T].
Proof.
  pose (g' := snd (addErc20Transaction (E:=EthersModel.ethers) Examples.token_T
                     Examples.lower_R1 "2.5" (Some 6) Examples.example_batch)).
  assert (Hrun : addErc20Transaction (E:=EthersModel.ethers) Examples.token_T
                   Examples.lower_R1 "2.5" (Some 6) Examples.example_batch
                 = (Return true, g'))
    by (vm_compute; reflexivity).
  destruct (addErc20Transaction_appends_to_its_group (E:=EthersModel.ethers)
              _ _ _ _ _ _ _ Hrun)
    as (v & Hv & _ & _ & _ & _ & Hgroup & _ & Hkeys).
  vm_compute in Hv. injection Hv as <-.
  exists g'. split; [exact Hrun|]. split.
  - rewrite Hgroup. vm_compute. reflexivity.
  - rewrite Hkeys. vm_compute. reflexivity.
Defined.

End ManagerExtras.

(** ** Proofs: the asynchronous operations as a whole *)

Module AsyncExtras.

Import Client ClientSpec AsyncSpec ClientProofs ManagerExtras.
Local Open Scope Z_scope.

Section Async.
Context `{E : Ethers} {W : Type} `{Net : Network W}.
Variable config : Config.

Local Abbreviation Async := (fun A => St W -> Result A * St W).

Lemma only_ret {A} (P : Event -> Prop) (a : A) : only P (ret (W:=W) a).
Proof. intros s. exists []. by rewrite app_nil_r. Qed.

Lemma only_throw {A} (P : Event -> Prop) (message : string) :
  only P (throw (W:=W) (A:=A) message).
Proof. intros s. exists []. by rewrite app_nil_r. Qed.

Lemma only_log (P : Event -> Prop) (line : ConsoleLine) :
  P (EvConsole line) -> only P (log (W:=W) line).
Proof. intros HP s. exists [EvConsole line]. split; [done|by constructor]. Qed.

Lemma only_io {R} (P : Event -> Prop) (op : W -> Result R * W)
    (ev : Result R -> Event) :
  (forall r, P (ev r)) -> only P (io op ev).
Proof.
  intros HP s. unfold io. destruct (op (world s)) as [r w]. simpl.
  exists [ev r]. split; [done|by constructor].
Qed.

Lemma only_bind {A B} (P : Event -> Prop) (m : Async A) (k : A -> Async B) :
  only P m -> (forall a, only P (k a)) -> only P (bind m k).
Proof.
  intros Hm Hk s. unfold bind. destruct (Hm s) as (evs1 & H1 & HP1).
  destruct (m s) as [[a|message] s1]; simpl in *; [|by exists evs1].
  destruct (Hk a s1) as (evs2 & H2 & HP2).
  exists (evs1 ++ evs2). rewrite H2, H1, app_assoc. split; [done|].
  by apply Forall_app.
Qed.

Lemma only_try_catch {A} (P : Event -> Prop) (body : Async A)
    (handler : string -> Async A) :
  only P body -> (forall message, only P (handler message)) ->
  only P (try_catch body handler).
Proof.
  intros Hm Hk s. unfold try_catch. destruct (Hm s) as (evs1 & H1 & HP1).
  destruct (body s) as [[a|message] s1]; simpl in *; [by exists evs1|].
  destruct (Hk message s1) as (evs2 & H2 & HP2).
  exists (evs1 ++ evs2). rewrite H2, H1, app_assoc. split; [done|].
  by apply Forall_app.
Qed.

Lemma only_getConnection (P : Event -> Prop) :
  (forall ev, connection_event ev -> P ev) -> only P (getConnection config).
Proof.
  intros HP s. destruct (getConnection config s) as [r s'] eqn:Hrun.
  apply getConnection_trace in Hrun as (evs & Htr & Hconn).
  exists evs. split; [done|]. eapply Forall_impl; [exact Hconn|exact HP].
Qed.

(** X10: [estimateGas] approves and submits nothing.  Beside making the
    connection, it asks the node for the fee data, and only when no gas
    price is given, and it simulates the native multi-send, and only when
    native entries are queued, with their recipients, their amounts and the
    sum of the amounts; it simulates no token transfer. *)
Theorem estimateGas_only_simulates_the_native_transfer (options : Options.t)
    (g : TransactionGroups) :
  only (estimate_event options g) (estimateGas config options g).
Proof.
  unfold estimateGas, estimateQueued.
  apply only_bind; [apply only_getConnection; by intros []|intros _].
  cbv zeta. only_auto @only_bind @only_try_catch @only_ret @only_throw @only_io
        @only_log; simpl; try done.
  split; [|done]. by destruct (eth g).
Qed.

(** *** What [sendBatchTransaction] submits *)

Lemma only_sendTokenGroups (P : Event -> Prop) (options : Options.t)
    (all : JsObject (list Tx)) :
  (forall tokenAddress tokenTxs,
     In (tokenAddress, tokenTxs) all -> tokenTxs <> [] ->
     only P (sendTokenGroup config options tokenAddress tokenTxs)) ->
  forall groups erc20Transactions,
    (forall x, In x groups -> In x all) ->
    only P (sendTokenGroups config options groups erc20Transactions).
Proof.
  intros Hgroup groups.
  induction groups as [|[tokenAddress tokenTxs] groups IH];
    intros erc20Transactions Hsub; simpl.
  - apply only_ret.
  - assert (Hsub' : forall x, In x groups -> In x all)
      by (intros x Hx; apply Hsub; by right).
    destruct (0 <? length tokenTxs)%nat eqn:Hlen; [|by apply IH].
    apply only_bind; [|intros info; by apply IH].
    apply Hgroup; [apply Hsub; by left|]. by destruct tokenTxs.
Qed.

Lemma only_sendBatchTransaction (P : Event -> Prop) (options : Options.t)
    (g : TransactionGroups) :
  (forall ev, connection_event ev -> P ev) ->
  (eth g <> [] -> only P (sendEthGroup options (eth g))) ->
  (forall tokenAddress tokenTxs,
     In (tokenAddress, tokenTxs) (erc20 g) -> tokenTxs <> [] ->
     only P (sendTokenGroup config options tokenAddress tokenTxs)) ->
  only P (sendBatchTransaction config options g).
Proof.
  intros Hconn Heth Htoken. unfold sendBatchTransaction, sendQueued, sendEthPart.
  apply only_bind; [by apply only_getConnection|intros _].
  cbv zeta. destruct (_ =? 0)%nat; [apply only_throw|].
  apply only_try_catch; [|intros; apply only_throw].
  apply only_bind;
    [|intros ethTransaction; apply only_bind;
        [by eapply only_sendTokenGroups|intros; apply only_ret]].
  destruct (0 <? length (eth g))%nat eqn:Hlen; [|apply only_ret].
  apply only_bind; [|intros; apply only_ret].
  apply Heth. by destruct (eth g).
Qed.

(** X11: all [sendBatchTransaction] simulates, approves and submits comes
    from the queue.  The native multi-send is simulated and submitted only
    when native entries are queued, with their recipients and amounts and
    with the sum of the amounts as the value attached; a token multi-send
    only for a group that has entries, with its recipients and amounts and
    no value attached; an approval is for the total of a group that has
    entries; the gas price of the options, when given, goes with every
    multi-send; the fee data are never asked. *)
Theorem submissions_carry_the_queue (options : Options.t) (g : TransactionGroups) :
  only (send_event options g) (sendBatchTransaction config options g).
Proof.
  apply only_sendBatchTransaction.
  - by intros [].
  - intros Hne. unfold sendEthGroup. cbv zeta. only_auto @only_bind @only_try_catch @only_ret @only_throw @only_io
        @only_log; simpl; done.
  - intros tokenAddress tokenTxs Hin Hne.
    assert (Hcols : token_columns g tokenAddress (map to tokenTxs) (map value tokenTxs))
      by (by exists tokenTxs).
    unfold sendTokenGroup, checkAndApproveToken. cbv zeta.
    apply only_bind; [|intros _].
    { apply only_bind; [apply only_getConnection; by intros []|intros _].
      only_auto @only_bind @only_try_catch @only_ret @only_throw @only_io
        @only_log; simpl; eauto. }
    only_auto @only_bind @only_try_catch @only_ret @only_throw @only_io
        @only_log; simpl; eauto.
Qed.

(** X12: a gas limit given by the caller is the gas limit of the
    submission as it is, with no margin added, and nothing is simulated for
    it; a simulation is requested only when no limit, or the limit 0, is
    given for that transfer. *)
Theorem gas_limit_is_the_override_or_an_estimate (options : Options.t)
    (g : TransactionGroups) :
  only (gas_limit_event options) (sendBatchTransaction config options g).
Proof.
  apply only_sendBatchTransaction.
  - by intros [].
  - intros _. unfold sendEthGroup. cbv zeta.
    destruct (truthy_number (Options.ethGasLimit options)) eqn:Hgas.
    + only_auto @only_bind @only_try_catch @only_ret @only_throw @only_io
        @only_log; unfold gas_limit_event; try done. simpl. intros _.
      by destruct (Options.ethGasLimit options).
    + only_auto @only_bind @only_try_catch @only_ret @only_throw @only_io
        @only_log; unfold gas_limit_event; first [done|by rewrite Hgas].
  - intros tokenAddress tokenTxs _ _.
    unfold sendTokenGroup, checkAndApproveToken. cbv zeta.
    apply only_bind; [|intros _].
    { apply only_bind; [apply only_getConnection; by intros []|intros _].
      only_auto @only_bind @only_try_catch @only_ret @only_throw @only_io
        @only_log; simpl; done. }
    destruct (truthy_number (token_gas_override options tokenAddress)) eqn:Hgas.
    + only_auto @only_bind @only_try_catch @only_ret @only_throw @only_io
        @only_log; unfold gas_limit_event; try done. simpl. intros _.
      by destruct (token_gas_override options tokenAddress).
    + only_auto @only_bind @only_try_catch @only_ret @only_throw @only_io
        @only_log; unfold gas_limit_event; first [done|by rewrite Hgas].
Qed.

(** *** What [estimateGas] returns and throws *)

(** X13: what [estimateGas] returns agrees with [getBatchStatus] on the
    same queue: the three counts are those of the status and the total is
    positive, there is an estimate exactly when native entries are queued
    and its [totalValue] is the [totalEthValue] of the status.  The gas
    price returned is what the node answered to the request for fee data
    made in this call, 0 when it answered no price, and, when this call made
    no such request, the gas price of the options. *)
Theorem estimateGas_agrees_with_the_status (options : Options.t)
    (g : TransactionGroups) (s s' : St W) (results : GasResults.t) :
  estimateGas config options g s = (Return results, s') ->
  let status := getBatchStatus g in
  GasResults.ethTransactions results = Status.ethTransactions status /\
  GasResults.erc20Transactions results = Status.erc20Transactions status /\
  GasResults.totalTransactions results = Status.totalTransactions status /\
  (0 < GasResults.totalTransactions results)%nat /\
  (GasResults.gasEstimates results = None <-> eth g = []) /\
  (forall estimate, GasResults.gasEstimates results = Some estimate ->
     Estimate.totalValue estimate = Status.totalEthValue status) /\
  exists evs, trace s' = trace s ++ evs /\
    ((exists fees, In (EvGetFeeData (Return fees)) evs /\
        GasResults.gasPrice results = default 0 fees) \/
     ((forall answer, ~ In (EvGetFeeData answer) evs) /\
      Some (GasResults.gasPrice results) = Options.gasPrice options)).
Proof.
  rewrite getBatchStatus_fields. simpl.
  unfold estimateGas, estimateQueued, bind at 1.
  destruct (getConnection config s) as [[c|m] s0] eqn:Hconn; [|done].
  apply getConnection_trace in Hconn as (evs0 & Htr0 & Hall0).
  assert (Hquiet : forall answer, ~ In (EvGetFeeData answer) evs0).
  { intros answer Hin. by apply (connection_event_in _ _ Hall0) in Hin. }
  destruct (Nat.eqb_spec (length (eth g) + erc20_count (erc20 g)) 0) as [|Hcount];
    [done|].
  unfold try_catch, bind, io, ret, throw. intros Hrun.
  assert (Hfees : forall fees, truthy_number fees = false -> 0 = default 0 fees).
  { intros [fee|] Hfee; [|done]. simpl in *. by destruct (Z.eqb_spec fee 0). }
  destruct (truthy_number (Options.gasPrice options)) eqn:Hprice.
  all: repeat case_match; simplify_eq; simpl in *.
  all: rewrite ?Htr0, <- ?app_assoc.
  all: split; [done|]; split; [done|]; split; [done|]; split; [lia|].
  all: split; [by destruct (eth g)|].
  all: split; [first [done|by intros estimate [= <-]]|].
  all: eexists; split; [reflexivity|].
  all: first
         [ (* the option *)
           right; split;
           [ intros answer Hin;
             first [ by eapply Hquiet
                   | apply in_app_or in Hin as [Hin|Hin]; [by eapply Hquiet|];
                     simpl in Hin; by repeat destruct Hin as [Hin|Hin] ]
           | by destruct (Options.gasPrice options) ]
         | (* the node *)
           left; eexists; split;
           [ apply in_or_app; right; by left
           | first [done|by apply Hfees] ] ].
Qed.

(** X14: what [estimateGas] throws: the error of the connection as it is,
    its own error on an empty queue, the error of the request for fee data
    as it is (the request stands before the [try] block), or the error of
    the simulation behind the prefix [Gas estimation failed: ]. *)
Theorem estimateGas_wraps_only_the_simulation_error (options : Options.t)
    (g : TransactionGroups) (s s' : St W) (message : string) :
  estimateGas config options g s = (Throw message, s') ->
  (exists s0, getConnection config s = (Throw message, s0)) \/
  (message = "No transactions to estimate gas for" /\
   (length (eth g) + erc20_count (erc20 g))%nat = 0%nat) \/
  (truthy_number (Options.gasPrice options) = false /\
   exists evs, trace s' = evs ++ [EvGetFeeData (Throw message)]) \/
  (exists cause,
     message = "Gas estimation failed: " +:+ cause /\
     exists evs,
       trace s' = evs ++ [EvEstimateETH (map to (eth g)) (map value (eth g))
                            (total (map value (eth g))) (Throw cause)]).
Proof.
  unfold estimateGas, estimateQueued, bind at 1.
  destruct (getConnection config s) as [[c|m] s0]; [|intros [= <- <-]; eauto].
  destruct (Nat.eqb_spec (length (eth g) + erc20_count (erc20 g)) 0) as [Hcount|Hcount].
  { unfold throw. intros [= <- <-]. right; left. done. }
  unfold try_catch, bind, io, ret, throw. intros Hrun.
  repeat case_match; simplify_eq; simpl in *.
  all: first [ by right; right; right; eexists; split; [reflexivity|]; eexists
             | by right; right; left; split; [done|]; eexists ].
Qed.

(** *** A configuration without executor *)

(** X15: a manager configured without executor address cannot connect:
    from a state with no stored connection, [getConnection], [estimateGas], [checkAndApproveToken] and
    [sendBatchTransaction] all throw the error of the missing address,
    whatever is queued, and leave the network and the trace untouched. *)
Theorem missing_executor_address_stops_every_operation (options : Options.t)
    (g : TransactionGroups) (tokenAddress : string) (tokenTxs : list Tx)
    (s : St W) :
  truthy_string (multiSendContractAddress config) = false ->
  connection s = None ->
  let message := "MultiSend contract address is required" in
  getConnection config s = (Throw message, s) /\
  estimateGas config options g s = (Throw message, s) /\
  checkAndApproveToken config tokenAddress tokenTxs s = (Throw message, s) /\
  sendBatchTransaction config options g s = (Throw message, s).
Proof.
  intros Hmissing Hnone message.
  assert (Hconn : getConnection config s = (Throw message, s)).
  { unfold getConnection, initializeConnection. by rewrite Hnone, Hmissing. }
  unfold estimateGas, checkAndApproveToken, sendBatchTransaction, bind.
  by rewrite Hconn.
Qed.

(** *** What a successful [sendBatchTransaction] returns *)

Lemma bind_Return_inv {A B} (m : Async A) (k : A -> Async B) (s s' : St W) (b : B) :
  bind m k s = (Return b, s') ->
  exists a s1, m s = (Return a, s1) /\ k a s1 = (Return b, s').
Proof.
  unfold bind. destruct (m s) as [[a|message] s1]; [|done]. eauto.
Qed.

Lemma sendEthGroup_recipients (options : Options.t) (ethTxs : list Tx)
    (s s' : St W) (info : Info.t) :
  sendEthGroup options ethTxs s = (Return info, s') ->
  Info.recipients info = length ethTxs.
Proof.
  unfold sendEthGroup. cbv zeta. intros Hrun.
  repeat (apply bind_Return_inv in Hrun as (? & ? & _ & Hrun); cbv beta in Hrun).
  unfold ret in Hrun. simplify_eq. simpl. by rewrite length_map.
Qed.

Lemma sendTokenGroup_recipients (options : Options.t) (tokenAddress : string)
    (tokenTxs : list Tx) (s s' : St W) (info : Info.t) :
  sendTokenGroup config options tokenAddress tokenTxs s = (Return info, s') ->
  Info.recipients info = length tokenTxs.
Proof.
  unfold sendTokenGroup. cbv zeta. intros Hrun.
  repeat (apply bind_Return_inv in Hrun as (? & ? & _ & Hrun); cbv beta in Hrun).
  unfold ret in Hrun. simplify_eq. simpl. by rewrite length_map.
Qed.

Lemma sendTokenGroups_recipients (options : Options.t)
    (groups : JsObject (list Tx)) :
  NoDup (obj_keys groups) ->
  forall erc20Transactions (s s' : St W) results,
    (forall k, In k (obj_keys groups) -> obj_get k erc20Transactions = None) ->
    sendTokenGroups config options groups erc20Transactions s = (Return results, s') ->
    recipients_of results =
    recipients_of erc20Transactions ++
    map (fun '(tokenAddress, tokenTxs) => (tokenAddress, length tokenTxs))
        (groups_with_entries groups).
Proof.
  unfold recipients_of.
  induction groups as [|[tokenAddress tokenTxs] groups IH];
    intros Hnodup erc20Transactions s s' results Hfresh; simpl.
  - intros [= <- <-]. by rewrite app_nil_r.
  - apply NoDup_cons in Hnodup as [Hnotin Hnodup].
    destruct (0 <? length tokenTxs)%nat eqn:Hlen.
    + unfold bind.
      destruct (sendTokenGroup _ _ _ _ s) as [[info|m] s1] eqn:Hgroup; [|done].
      apply sendTokenGroup_recipients in Hgroup.
      intros Hrun. apply IH in Hrun; [|done|].
      * rewrite Hrun, obj_set_fresh by (apply Hfresh; by left).
        rewrite map_app. simpl. rewrite Hgroup, <- app_assoc. done.
      * intros k Hk. rewrite obj_get_set_ne.
        -- apply Hfresh. by right.
        -- intros ->. apply Hnotin. by apply list_elem_of_In.
    + intros Hrun. apply IH in Hrun; [done..|].
      intros k Hk. apply Hfresh. by right.
Qed.

Lemma erc20_count_groups_with_entries (groups : JsObject (list Tx)) :
  sum_list (map (fun '(_, tokenTxs) => length tokenTxs) (groups_with_entries groups))
  = erc20_count groups.
Proof.
  induction groups as [|[tokenAddress tokenTxs] groups IH]; simpl; [done|].
  rewrite erc20_count_cons.
  destruct tokenTxs; simpl; [done|]. rewrite IH. done.
Qed.

(** X16: on a queue with distinct token keys, what a successful
    [sendBatchTransaction] returns accounts for every queued entry once: [totalTransactions] is the one of the status,
    there is a native receipt exactly when native entries are queued, with
    their number as its recipients, there is one token receipt per group
    that has entries, in the order of the keys, with the size of the group
    as its recipients, and the recipients of all receipts add up to
    [totalTransactions]. *)
Theorem successful_batch_accounts_for_every_entry (options : Options.t)
    (g : TransactionGroups) (s s' : St W) (results : Results.t) :
  NoDup (obj_keys (erc20 g)) ->
  sendBatchTransaction config options g s = (Return results, s') ->
  Results.totalTransactions results
    = Status.totalTransactions (getBatchStatus g) /\
  option_map Info.recipients (Results.ethTransaction results)
    = match eth g with [] => None | _ => Some (length (eth g)) end /\
  recipients_of (Results.erc20Transactions results)
    = map (fun '(tokenAddress, tokenTxs) => (tokenAddress, length tokenTxs))
          (groups_with_entries (erc20 g)) /\
  recipients_reported results = Results.totalTransactions results.
Proof.
  intros Hnodup. rewrite getBatchStatus_fields. simpl.
  unfold sendBatchTransaction, bind at 1.
  destruct (getConnection config s) as [[c|m] s0]; [|done].
  destruct (_ =? 0)%nat; [done|].
  unfold sendQueued, try_catch.
  match goal with |- context [bind ?m ?k s0] => destruct (bind m k s0) as [[r|m'] s1] eqn:Hrun end;
    [|done].
  intros [= <- <-].
  apply bind_Return_inv in Hrun as (ethTransaction & s2 & Heth & Hrun).
  apply bind_Return_inv in Hrun as (erc20Transactions & s3 & Htokens & Hrun).
  unfold ret in Hrun. simplify_eq. simpl.
  apply sendTokenGroups_recipients in Htokens; [|done|done]. simpl in Htokens.
  assert (Hethr : option_map Info.recipients ethTransaction
                  = match eth g with [] => None | _ => Some (length (eth g)) end).
  { unfold sendEthPart in Heth. destruct (eth g) as [|tx txs] eqn:Hg; simpl in Heth.
    - unfold ret in Heth. by simplify_eq.
    - apply bind_Return_inv in Heth as (info & s4 & Heth & Hret).
      unfold ret in Hret. simplify_eq. simpl.
      apply sendEthGroup_recipients in Heth. by rewrite Heth. }
  split; [done|]. split; [done|]. split; [done|].
  unfold recipients_reported. simpl. rewrite Htokens. f_equal.
  - destruct ethTransaction, (eth g); simpl in *; by simplify_eq.
  - rewrite <- erc20_count_groups_with_entries, map_map. f_equal.
    apply map_ext. by intros [].
Qed.

(** *** The memoized connection *)

Lemma connected_ret {A} (c : Connection) (P : Event -> Prop) (a : A) :
  while_connected c P (ret (W:=W) a).
Proof. intros s Hc. exists []. by rewrite app_nil_r. Qed.

Lemma connected_throw {A} (c : Connection) (P : Event -> Prop) (message : string) :
  while_connected c P (throw (W:=W) (A:=A) message).
Proof. intros s Hc. exists []. by rewrite app_nil_r. Qed.

Lemma connected_log (c : Connection) (P : Event -> Prop) (line : ConsoleLine) :
  P (EvConsole line) -> while_connected c P (log (W:=W) line).
Proof.
  intros HP s Hc. exists [EvConsole line].
  split; [done|]. split; [by constructor|done].
Qed.

Lemma connected_io {R} (c : Connection) (P : Event -> Prop)
    (op : W -> Result R * W) (ev : Result R -> Event) :
  (forall r, P (ev r)) -> while_connected c P (io op ev).
Proof.
  intros HP s Hc. unfold io. destruct (op (world s)) as [r w]. simpl.
  exists [ev r]. split; [done|]. split; [by constructor|done].
Qed.

Lemma connected_bind {A B} (c : Connection) (P : Event -> Prop)
    (m : Async A) (k : A -> Async B) :
  while_connected c P m -> (forall a, while_connected c P (k a)) ->
  while_connected c P (bind m k).
Proof.
  intros Hm Hk s Hc. unfold bind. destruct (Hm s Hc) as (evs1 & H1 & HP1 & Hc1).
  destruct (m s) as [[a|message] s1]; simpl in *; [|by exists evs1].
  destruct (Hk a s1 Hc1) as (evs2 & H2 & HP2 & Hc2).
  exists (evs1 ++ evs2). rewrite H2, H1, app_assoc. split; [done|].
  split; [by apply Forall_app|done].
Qed.

Lemma connected_try_catch {A} (c : Connection) (P : Event -> Prop)
    (body : Async A) (handler : string -> Async A) :
  while_connected c P body -> (forall message, while_connected c P (handler message)) ->
  while_connected c P (try_catch body handler).
Proof.
  intros Hm Hk s Hc. unfold try_catch. destruct (Hm s Hc) as (evs1 & H1 & HP1 & Hc1).
  destruct (body s) as [[a|message] s1]; simpl in *; [by exists evs1|].
  destruct (Hk message s1 Hc1) as (evs2 & H2 & HP2 & Hc2).
  exists (evs1 ++ evs2). rewrite H2, H1, app_assoc. split; [done|].
  split; [by apply Forall_app|done].
Qed.

Lemma connected_getConnection (c : Connection) (P : Event -> Prop) :
  while_connected c P (getConnection config).
Proof.
  intros s Hc. unfold getConnection. rewrite Hc. simpl.
  exists []. by rewrite app_nil_r.
Qed.

Lemma connected_checkAndApproveToken (c : Connection) (P : Event -> Prop)
    (tokenAddress : string) (tokenTxs : list Tx) :
  (forall ev, token_event ev -> P ev) ->
  while_connected c P (checkAndApproveToken config tokenAddress tokenTxs).
Proof.
  intros HP. unfold checkAndApproveToken. cbv zeta.
  apply connected_bind; [apply connected_getConnection|intros _].
  connected_auto @connected_bind @connected_try_catch @connected_ret
        @connected_throw @connected_io @connected_log; by apply HP.
Qed.

Lemma connected_sendTokenGroups (c : Connection) (P : Event -> Prop)
    (options : Options.t) (groups : JsObject (list Tx)) :
  (forall ev, token_event ev -> P ev) ->
  forall erc20Transactions,
    while_connected c P (sendTokenGroups config options groups erc20Transactions).
Proof.
  intros HP.
  induction groups as [|[tokenAddress tokenTxs] groups IH];
    intros erc20Transactions; simpl.
  - apply connected_ret.
  - destruct (0 <? length tokenTxs)%nat; [|apply IH].
    apply connected_bind; [|intros info; apply IH].
    unfold sendTokenGroup. cbv zeta.
    apply connected_bind; [by apply connected_checkAndApproveToken|intros _].
    connected_auto @connected_bind @connected_try_catch @connected_ret
        @connected_throw @connected_io @connected_log; by apply HP.
Qed.

Lemma token_event_quiet (ev : Event) : token_event ev -> ~ connection_event ev.
Proof. destruct ev; simpl; tauto. Qed.

(** X17: the connection is made once.  A [getConnection] that returns has
    stored what it returns, one that throws stores nothing, and from a state
    with a stored connection none of [getConnection], [estimateGas],
    [checkAndApproveToken] and [sendBatchTransaction] asks for a signer or
    builds a wallet again, or changes what is stored. *)
Theorem connection_is_made_once (options : Options.t) (g : TransactionGroups)
    (tokenAddress : string) (tokenTxs : list Tx) :
  (forall (s s' : St W) c, getConnection config s = (Return c, s') ->
     connection s' = Some c) /\
  (forall (s s' : St W) message, getConnection config s = (Throw message, s') ->
     connection s' = None) /\
  (forall c,
     let quiet := fun ev => ~ connection_event ev in
     while_connected c quiet (getConnection config) /\
     while_connected c quiet (estimateGas config options g) /\
     while_connected c quiet (checkAndApproveToken config tokenAddress tokenTxs) /\
     while_connected c quiet (sendBatchTransaction config options g)).
Proof.
  split; [|split].
  - intros s s' c. apply getConnection_stores.
  - intros s s' message. unfold getConnection.
    destruct (connection s) as [c0|] eqn:Hc; [done|].
    destruct (initializeConnection config s) as [[c1|m] s1] eqn:Hinit; [done|].
    intros [= <- <-]. revert Hinit.
    unfold initializeConnection, bind, io, ret, throw.
    intros Hrun. repeat case_match; simplify_eq; simpl; done.
  - intros c quiet. subst quiet. split; [apply connected_getConnection|].
    split; [|split; [apply connected_checkAndApproveToken, token_event_quiet|]].
    + unfold estimateGas, estimateQueued. cbv zeta.
      apply connected_bind; [apply connected_getConnection|intros _].
      connected_auto @connected_bind @connected_try_catch @connected_ret
        @connected_throw @connected_io @connected_log; simpl; tauto.
    + unfold sendBatchTransaction, sendQueued, sendEthPart, sendEthGroup. cbv zeta.
      apply connected_bind; [apply connected_getConnection|intros _].
      destruct (_ =? 0)%nat; [apply connected_throw|].
      apply connected_try_catch; [|intros; apply connected_throw].
      apply connected_bind;
        [|intros ethTransaction; apply connected_bind;
            [apply connected_sendTokenGroups, token_event_quiet
            |intros; apply connected_ret]].
      connected_auto @connected_bind @connected_try_catch @connected_ret
        @connected_throw @connected_io @connected_log; simpl; tauto.
Qed.

(** *** The order of the batch *)

Lemma sendEthPart_native (options : Options.t) (ethTxs : list Tx) (s s' : St W)
    (r : Result (option Info.t)) :
  sendEthPart options ethTxs s = (r, s') ->
  exists evs, trace s' = trace s ++ evs /\ Forall native_event evs /\
    connection s' = connection s /\
    (Exists native_failure evs -> exists message, r = Throw message).
Proof.
  unfold sendEthPart, sendEthGroup, bind, io, log, ret, throw. simpl. intros Hrun.
  repeat case_match; simplify_eq; simpl.
  all: rewrite <- ?app_assoc; simpl.
  all: first [ exists []; rewrite app_nil_r; split; [done|]; split; [done|];
               split; [done|]; by intros ?%Exists_nil
             | eexists; split; [reflexivity|]; split; [by repeat constructor|];
               split; [done|];
               first [ by eauto
                     | intros Hex; exfalso;
                       repeat (apply Exists_cons in Hex as [Hex|Hex]; [done|]);
                       by apply Exists_nil in Hex ] ].
Qed.

Lemma stops_ret {A} (a : A) : stops_at_failure (ret (W:=W) a).
Proof. intros s. exists []. rewrite app_nil_r. split; [done|by left]. Qed.

Lemma stops_throw {A} (message : string) :
  stops_at_failure (throw (W:=W) (A:=A) message).
Proof. intros s. exists []. rewrite app_nil_r. split; [done|by left]. Qed.

Lemma stops_log (line : ConsoleLine) : stops_at_failure (log (W:=W) line).
Proof.
  intros s. exists [EvConsole line]. split; [done|]. left.
  constructor; [by intros []|constructor].
Qed.

Lemma stops_io {R} (op : W -> Result R * W) (ev : Result R -> Event) :
  (forall r, threw (ev r) <-> exists message, r = Throw message) ->
  stops_at_failure (io op ev).
Proof.
  intros Hev s. unfold io. destruct (op (world s)) as [[a|message] w]; simpl.
  - exists [ev (Return a)]. split; [done|]. left.
    constructor; [|constructor]. intros [m Hm]%Hev. discriminate Hm.
  - exists [ev (Throw message)]. split; [done|]. right.
    exists [], (ev (Throw message)), message.
    split; [done|]. split; [constructor|]. split; [|done]. apply Hev. by eexists.
Qed.

Lemma stops_bind {A B} (m : Async A) (k : A -> Async B) :
  stops_at_failure m -> (forall a, stops_at_failure (k a)) ->
  stops_at_failure (bind m k).
Proof.
  intros Hm Hk s. unfold bind. destruct (Hm s) as (evs1 & H1 & Hend1).
  destruct (m s) as [[a|message] s1]; simpl in *.
  - destruct Hend1 as [Hclean|(pre & ev & msg & _ & _ & _ & Hr)]; [|done].
    destruct (Hk a s1) as (evs2 & H2 & Hend2).
    exists (evs1 ++ evs2). rewrite H2, H1, app_assoc. split; [done|].
    destruct Hend2 as [Hclean2|(pre & ev & msg & -> & Hpre & Hev & Hr)].
    + left. by apply Forall_app.
    + right. exists (evs1 ++ pre), ev, msg. rewrite app_assoc.
      split; [done|]. split; [by apply Forall_app|done].
  - exists evs1. split; [exact H1|].
    destruct Hend1 as [Hclean|(pre & ev & msg & -> & Hpre & Hev & _)]; [by left|].
    right. by exists pre, ev, message.
Qed.

Lemma stops_rethrow {A} (body : Async A) (f : string -> string) :
  stops_at_failure body ->
  stops_at_failure (try_catch body (fun message => throw (f message))).
Proof.
  intros Hm s. unfold try_catch, throw. destruct (Hm s) as (evs1 & H1 & Hend1).
  destruct (body s) as [[a|message] s1]; simpl in *; [by exists evs1|].
  exists evs1. split; [done|].
  destruct Hend1 as [Hclean|(pre & ev & msg & -> & Hpre & Hev & Hr)]; [by left|].
  right. by exists pre, ev, (f message).
Qed.

Lemma stops_getConnection : stops_at_failure (getConnection config).
Proof.
  intros s. unfold getConnection, initializeConnection, bind, io, ret, throw.
  repeat case_match; simplify_eq; simpl.
  all: first [ exists []; rewrite app_nil_r; split; [done|by left]
             | eexists [_]; split; [reflexivity|];
               first [ left; constructor; [by intros []|constructor]
                     | right; eexists [], _, _;
                       split; [reflexivity|]; split; [constructor|];
                       split; [exact I|reflexivity] ] ].
Qed.

Lemma stops_sendTokenGroups (options : Options.t) (groups : JsObject (list Tx)) :
  forall erc20Transactions,
    stops_at_failure (sendTokenGroups config options groups erc20Transactions).
Proof.
  induction groups as [|[tokenAddress tokenTxs] groups IH];
    intros erc20Transactions; simpl.
  - apply stops_ret.
  - destruct (0 <? length tokenTxs)%nat; [|apply IH].
    apply stops_bind; [|intros info; apply IH].
    unfold sendTokenGroup, checkAndApproveToken. cbv zeta.
    apply stops_bind; [|intros _].
    { apply stops_bind; [apply stops_getConnection|intros _].
      stops_auto @stops_bind @stops_rethrow @stops_ret @stops_throw @stops_io
        @stops_log. }
    stops_auto @stops_bind @stops_rethrow @stops_ret @stops_throw @stops_io
      @stops_log.
Qed.

Lemma stops_sendBatchTransaction (options : Options.t) (g : TransactionGroups) :
  stops_at_failure (sendBatchTransaction config options g).
Proof.
  unfold sendBatchTransaction, sendQueued, sendEthPart, sendEthGroup. cbv zeta.
  apply stops_bind; [apply stops_getConnection|intros _].
  destruct (_ =? 0)%nat; [apply stops_throw|].
  apply stops_rethrow.
  apply stops_bind;
    [|intros ethTransaction; apply stops_bind;
        [apply stops_sendTokenGroups|intros; apply stops_ret]].
  stops_auto @stops_bind @stops_rethrow @stops_ret @stops_throw @stops_io
    @stops_log.
Qed.

Lemma failure_is_last {A} (evs pre post : list Event) (ev : Event) (r : Result A) :
  ends_at_failure evs r -> evs = pre ++ ev :: post -> threw ev -> post = [].
Proof.
  intros [Hclean|(pre0 & ev0 & message & -> & Hpre & _)] Hsplit Hev.
  - exfalso. subst evs. apply Forall_app in Hclean as [_ Hclean].
    apply Forall_cons in Hclean as [Hclean _]. by apply Hclean.
  - destruct (decide (post = [])) as [|Hne]; [done|]. exfalso.
    destruct (exists_last Hne) as (post' & x & ->).
    change (pre0 ++ [ev0] = pre ++ (ev :: post') ++ [x]) in Hsplit.
    rewrite app_assoc in Hsplit. apply app_inj_tail in Hsplit as [-> _].
    apply Forall_app in Hpre as [_ Hpre].
    apply Forall_cons in Hpre as [Hpre _]. by apply Hpre.
Qed.

Lemma group_run_starts (options : Options.t) (tokenAddress : string)
    (tokenTxs : list Tx) (evs : list Event) (r : Result Info.t) :
  group_run options tokenAddress tokenTxs evs r ->
  exists answer rest, evs = EvSignerAddress answer :: rest.
Proof.
  unfold group_run, followed_by at 1. intros (evs1 & r1 & Hcheck & Hnext).
  destruct Hcheck; simpl in Hnext.
  1-3: destruct Hnext as [-> _]; by eexists _, _.
  destruct Hnext as (evs2 & _ & ->). by eexists _, _.
Qed.

(** X21: [sendBatchTransaction] works in this order: the connection, the
    native multi-send, the token groups.  What it adds to the trace is the
    events of the connection, then events of the native multi-send only,
    then events of the token groups only, which begin with the request for
    the signer's address; the first operation that throws is the last
    operation of the run, so that when an operation of the native
    multi-send throws, its simulation, its submission or the wait for its
    finalization, no token is looked at, approved or sent. *)
Theorem native_transfer_comes_first (options : Options.t) (g : TransactionGroups)
    (s : St W) :
  exists evs1 evs2 evs3,
    trace (snd (sendBatchTransaction config options g s))
      = trace s ++ evs1 ++ evs2 ++ evs3 /\
    Forall connection_event evs1 /\
    Forall native_event evs2 /\
    Forall token_event evs3 /\
    (evs3 = [] \/ exists answer rest, evs3 = EvSignerAddress answer :: rest) /\
    (Exists native_failure evs2 -> evs3 = []) /\
    (forall pre ev post,
       evs1 ++ evs2 ++ evs3 = pre ++ ev :: post -> threw ev -> post = []).
Proof.
  destruct (stops_sendBatchTransaction options g s) as (evs & Hevs & Hend).
  destruct (sendBatchTransaction config options g s) as [r s'] eqn:Hrun.
  simpl in *.
  assert (Hlast : forall evs1 evs2 evs3,
            trace s' = trace s ++ evs1 ++ evs2 ++ evs3 ->
            forall pre ev post,
              evs1 ++ evs2 ++ evs3 = pre ++ ev :: post -> threw ev -> post = []).
  { intros evs1 evs2 evs3 Htr pre ev post Hsplit Hev.
    rewrite Hevs in Htr. apply app_inv_head in Htr. subst evs.
    by eapply failure_is_last. }
  clear evs Hevs Hend. revert Hrun.
  unfold sendBatchTransaction, bind at 1.
  destruct (getConnection config s) as [[c|m] s0] eqn:Hconn.
  2:{ apply getConnection_trace in Hconn as (evs1 & Htr & Hall). intros [= <- <-].
      exists evs1, [], [].
      assert (Htrace : trace s0 = trace s ++ evs1 ++ [] ++ [])
        by (simpl; by rewrite app_nil_r).
      split; [done|]. split; [done|]. split; [done|]. split; [done|].
      split; [by left|]. split; [done|]. by apply Hlast. }
  pose proof (getConnection_stores config _ _ _ Hconn) as Hstored.
  apply getConnection_trace in Hconn as (evs1 & Htr1 & Hall1).
  destruct (_ =? 0)%nat.
  { intros [= <- <-]. exists evs1, [], [].
    assert (Htrace : trace s0 = trace s ++ evs1 ++ [] ++ [])
      by (simpl; by rewrite app_nil_r).
    split; [done|]. split; [done|]. split; [done|]. split; [done|].
    split; [by left|]. split; [done|]. by apply Hlast. }
  unfold sendQueued, try_catch, bind.
  destruct (sendEthPart options (eth g) s0) as [[ethTransaction|m] s1] eqn:Heth;
    apply sendEthPart_native in Heth as (evs2 & Htr2 & Hall2 & Hsame & Hfail).
  2:{ intros [= <- <-]. exists evs1, evs2, [].
      assert (Htrace : trace s1 = trace s ++ evs1 ++ evs2 ++ [])
        by (by rewrite Htr2, Htr1, app_nil_r, app_assoc).
      split; [done|]. split; [done|]. split; [done|]. split; [done|].
      split; [by left|]. split; [done|]. by apply Hlast. }
  assert (Hstored1 : connection s1 = Some c) by congruence.
  destruct (connected_sendTokenGroups c token_event options (erc20 g)
              (fun ev H => H) [] s1 Hstored1) as (evs3 & Htr3 & Hall3 & _).
  destruct (sendTokenGroups config options (erc20 g) [] s1) as [rt s2] eqn:Htok.
  simpl in Htr3.
  assert (Hhead : evs3 = [] \/ exists answer rest, evs3 = EvSignerAddress answer :: rest).
  { apply (sendTokenGroups_runs config _ c) in Htok as (segments & Htr & Hobey & _); [|done].
    rewrite Htr3 in Htr. apply app_inv_head in Htr. subst evs3.
    destruct Hobey as [|segment segments [Hrun _] _]; [by left|]. right.
    apply group_run_starts in Hrun as (answer & rest & Hrun).
    simpl. rewrite Hrun. by eexists _, _. }
  assert (Htrace : trace s2 = trace s ++ evs1 ++ evs2 ++ evs3).
  { rewrite Htr3, Htr2, Htr1, <- !app_assoc. done. }
  intros Hrun. assert (s' = s2) as ->.
  { destruct rt; revert Hrun; unfold ret, throw; by intros [= <- <-]. }
  exists evs1, evs2, evs3.
  split; [done|]. split; [done|]. split; [done|]. split; [done|]. split; [done|].
  split; [intros Hex; by destruct (Hfail Hex)|]. by apply Hlast.
Qed.

End Async.

(** X18: where [window.ethereum] is present, the provider URL and the
    private key of the configuration play no part: two configurations with
    the same executor address connect and estimate alike, and a new
    connection is the browser provider with the signer of the wallet, asked
    for once. *)
Theorem injected_wallet_ignores_the_configured_key `{E : Ethers} {W : Type}
    `{Net : Network W} (config1 config2 : Config) (options : Options.t)
    (g : TransactionGroups) (s : St W) :
  hasWindowEthereum (world s) = true ->
  multiSendContractAddress config1 = multiSendContractAddress config2 ->
  getConnection config1 s = getConnection config2 s /\
  estimateGas config1 options g s = estimateGas config2 options g s /\
  (forall c s', getConnection config1 s = (Return c, s') ->
     connection s = None ->
     provider c = BrowserProvider /\ signer c = InjectedSigner /\
     Some (multiSendContract c) = multiSendContractAddress config1 /\
     trace s' = trace s ++ [EvGetSigner (Return tt)]).
Proof.
  intros Hwallet Haddress.
  assert (Hconn : getConnection config1 s = getConnection config2 s).
  { unfold getConnection, initializeConnection. rewrite Haddress.
    destruct (connection s); [done|].
    destruct (negb (truthy_string _)); [done|]. cbv beta. by rewrite Hwallet. }
  split; [done|]. split.
  - unfold estimateGas, bind. by rewrite Hconn.
  - intros c s' Hrun Hnone. revert Hrun.
    unfold getConnection, initializeConnection. rewrite Hnone.
    destruct (multiSendContractAddress config1) as [address|] eqn:Hconfig; [|done].
    simpl. destruct (negb _); [done|]. cbv beta. rewrite Hwallet.
    unfold bind, io, ret. destruct (provider_getSigner (world s)) as [[[]|m] w]; [|done].
    simpl. by intros [= <- <-].
Qed.

(** The batch of [example.js]: three entries, and the gas price of the
    node. *)
Lemma estimateGas_agrees_with_the_status_witness :
  exists results s',
    estimateGas (E:=EthersModel.ethers) (Net:=Mock.network) Examples.config
      Examples.no_options Examples.example_batch (Mock.start (Examples.node 90000))
    = (Return results, s') /\
    GasResults.totalTransactions results
      = Status.totalTransactions
          (getBatchStatus (E:=EthersModel.ethers) Examples.example_batch) /\
    (0 < GasResults.totalTransactions results)%nat.
Proof.
  destruct (estimateGas (E:=EthersModel.ethers) (Net:=Mock.network) Examples.config
              Examples.no_options Examples.example_batch
              (Mock.start (Examples.node 90000))) as [[results|message] s'] eqn:Hrun;
    [|vm_compute in Hrun; discriminate Hrun].
  pose proof (estimateGas_agrees_with_the_status _ _ _ _ _ _ Hrun) as Hreport.
  cbv zeta in Hreport. destruct Hreport as (_ & _ & Htotal & Hpositive & _).
  exists results, s'. split; [reflexivity|]. split; [exact Htotal|exact Hpositive].
Defined.

(** The same batch on a node whose simulation reverts. *)
Lemma estimateGas_wraps_only_the_simulation_error_witness :
  exists message s',
    estimateGas (E:=EthersModel.ethers) (Net:=Scenarios.reverting_simulation)
      Examples.config Examples.no_options Examples.example_batch
      (Mock.start (Examples.node 90000))
    = (Throw message, s') /\
    ((exists s0, getConnection (Net:=Scenarios.reverting_simulation) Examples.config
                   (Mock.start (Examples.node 90000)) = (Throw message, s0)) \/
     (message = "No transactions to estimate gas for" /\
      (length (eth Examples.example_batch)
       + erc20_count (erc20 Examples.example_batch))%nat = 0%nat) \/
     (truthy_number (Options.gasPrice Examples.no_options) = false /\
      exists evs, trace s' = evs ++ [EvGetFeeData (Throw message)]) \/
     (exists cause,
        message = "Gas estimation failed: " +:+ cause /\
        exists evs,
          trace s' = evs ++ [EvEstimateETH (map to (eth Examples.example_batch))
                               (map value (eth Examples.example_batch))
                               (total (map value (eth Examples.example_batch)))
                               (Throw cause)])).
Proof.
  destruct (estimateGas (E:=EthersModel.ethers) (Net:=Scenarios.reverting_simulation)
              Examples.config Examples.no_options Examples.example_batch
              (Mock.start (Examples.node 90000))) as [[results|message] s'] eqn:Hrun;
    [vm_compute in Hrun; discriminate Hrun|].
  exists message, s'. split; [reflexivity|].
  exact (estimateGas_wraps_only_the_simulation_error _ _ _ _ _ _ Hrun).
Defined.

(** The configuration without executor address. *)
Lemma missing_executor_address_stops_every_operation_witness :
  sendBatchTransaction (E:=EthersModel.ethers) (Net:=Mock.network)
    Examples.config_without_executor Examples.no_options Examples.example_batch
    (Mock.start (Examples.node 90000))
  = (Throw "MultiSend contract address is required",
     Mock.start (Examples.node 90000)).
Proof.
  apply (missing_executor_address_stops_every_operation (E:=EthersModel.ethers)
           (Net:=Mock.network) Examples.config_without_executor Examples.no_options
           Examples.example_batch Examples.token_T []
           (Mock.start (Examples.node 90000))).
  - vm_compute. reflexivity.
  - vm_compute. reflexivity.
Defined.

(** The batch of [example.js] on a node that refuses nothing in it. *)
Lemma successful_batch_accounts_for_every_entry_witness :
  exists results s',
    sendBatchTransaction (E:=EthersModel.ethers) (Net:=Mock.network) Examples.config
      Examples.no_options Examples.example_batch (Mock.start (Examples.node 90000))
    = (Return results, s') /\
    recipients_reported results = Results.totalTransactions results /\
    Results.totalTransactions results
      = Status.totalTransactions
          (getBatchStatus (E:=EthersModel.ethers) Examples.example_batch).
Proof.
  destruct (sendBatchTransaction (E:=EthersModel.ethers) (Net:=Mock.network)
              Examples.config Examples.no_options Examples.example_batch
              (Mock.start (Examples.node 90000))) as [[results|message] s'] eqn:Hrun;
    [|vm_compute in Hrun; discriminate Hrun].
  assert (Hkeys : NoDup (obj_keys (erc20 Examples.example_batch))).
  { apply (bool_decide_unpack _). vm_compute. exact I. }
  destruct (successful_batch_accounts_for_every_entry _ _ _ _ _ _ Hkeys Hrun)
    as (Htotal & _ & _ & Hsum).
  exists results, s'. split; [reflexivity|]. split; [exact Hsum|exact Htotal].
Defined.

(** In a browser with a wallet, a configuration without key or URL connects
    as the configuration of the examples does. *)
Lemma injected_wallet_ignores_the_configured_key_witness :
  getConnection (Net:=Mock.network) Scenarios.config_for_browser
    (Mock.start Scenarios.browser)
  = getConnection (Net:=Mock.network) Examples.config (Mock.start Scenarios.browser).
Proof.
  apply (injected_wallet_ignores_the_configured_key (E:=EthersModel.ethers)
           (Net:=Mock.network) Scenarios.config_for_browser Examples.config
           Examples.no_options Examples.example_batch (Mock.start Scenarios.browser)).
  - vm_compute. reflexivity.
  - vm_compute. reflexivity.
Defined.

End AsyncExtras.

(** ** Proofs: the balance check *)

Module CheckerExtras.

Import Client ClientSpec ClientProofs ManagerExtras AsyncExtras Checker.
Local Open Scope Z_scope.

Section Async.
Context `{E : Ethers} `{U : Units} {W : Type} `{Net : Network W}
        `{Meta : TokenMetadata W}.
Variable config : Config.

Local Abbreviation Check := (fun A => St W -> Result A * St W).

Lemma check_only_ret {A} (P : Event -> Prop) (a : A) : only P (ret (W:=W) a).
Proof. intros s. exists []. by rewrite app_nil_r. Qed.

Lemma check_only_lift {A} (P : Event -> Prop) (r : Result A) :
  only P (lift (W:=W) r).
Proof. intros s. exists []. by rewrite app_nil_r. Qed.

Lemma check_only_bind {A B} (P : Event -> Prop) (m : Check A) (k : A -> Check B) :
  only P m -> (forall a, only P (k a)) -> only P (bind m k).
Proof.
  intros Hm Hk s. unfold bind. destruct (Hm s) as (evs1 & H1 & HP1).
  destruct (m s) as [[a|message] s1]; simpl in *; [|by exists evs1].
  destruct (Hk a s1) as (evs2 & H2 & HP2).
  exists (evs1 ++ evs2). rewrite H2, H1, app_assoc. split; [done|].
  by apply Forall_app.
Qed.

Lemma check_only_try_catch {A} (P : Event -> Prop) (body : Check A)
    (handler : string -> Check A) :
  only P body -> (forall message, only P (handler message)) ->
  only P (try_catch body handler).
Proof.
  intros Hm Hk s. unfold try_catch. destruct (Hm s) as (evs1 & H1 & HP1).
  destruct (body s) as [[a|message] s1]; simpl in *; [by exists evs1|].
  destruct (Hk message s1) as (evs2 & H2 & HP2).
  exists (evs1 ++ evs2). rewrite H2, H1, app_assoc. split; [done|].
  by apply Forall_app.
Qed.

Lemma check_only_decimals_io (P : Event -> Prop) (tokenAddress : string) :
  (forall r, P (EvDecimals tokenAddress r)) -> only P (decimals_io tokenAddress).
Proof.
  intros HP s. unfold decimals_io.
  destruct (token_decimals tokenAddress (world s)) as [r w]. simpl.
  exists [EvDecimals tokenAddress r]. split; [done|by constructor].
Qed.

Lemma check_only_shared {A} (P : Event -> Prop) (Q : Client.Event -> Prop)
    (m : Client.St W -> Result A * Client.St W) :
  AsyncSpec.only Q m -> (forall ev, Q ev -> P (Shared ev)) -> only P (shared m).
Proof.
  intros Hm HP s. unfold shared.
  destruct (Hm {| Client.world := world s; Client.trace := [];
                  Client.connection := connection s |}) as (evs & Htr & HQ).
  destruct (m _) as [r s1]. simpl in *. subst.
  eexists. split; [reflexivity|].
  apply Forall_map. eapply Forall_impl; [exact HQ|exact HP].
Qed.

(** X19: [checkErc20Balances] approves and submits nothing.  Beside making
    the connection and asking the signer for its address, it asks
    [decimals()] and [balanceOf] of the tokens whose group has entries, and
    of no other token. *)
Theorem checkErc20Balances_only_reads (g : TransactionGroups) :
  only (check_event g) (checkErc20Balances config g).
Proof.
  unfold checkErc20Balances.
  apply check_only_bind; [|intros _].
  { eapply check_only_shared; [apply only_getConnection; intros ev Hev; exact Hev|].
    by intros []. }
  apply check_only_bind; [|intros signerAddress].
  { eapply (check_only_shared _ (fun ev => exists r, ev = EvSignerAddress r)).
    - apply only_io. eauto.
    - by intros ev [r ->]. }
  assert (Hgroups : forall groups results,
            (forall x, In x groups -> In x (erc20 g)) ->
            only (check_event g) (checkGroups signerAddress groups results)).
  { induction groups as [|[tokenAddress tokenTxs] groups IH]; intros results Hsub; simpl.
    - apply check_only_ret.
    - assert (Hsub' : forall x, In x groups -> In x (erc20 g))
        by (intros x Hx; apply Hsub; by right).
      destruct (0 <? length tokenTxs)%nat eqn:Hlen; [|by apply IH].
      assert (Hgroup : exists txs, In (tokenAddress, txs) (erc20 g) /\ txs <> []).
      { exists tokenTxs. split; [apply Hsub; by left|]. by destruct tokenTxs. }
      apply check_only_bind; [|intros entry; by apply IH].
      unfold checkGroup. cbv zeta.
      apply check_only_bind; [|intros unit].
      { apply check_only_try_catch; [|intros; apply check_only_ret].
        apply check_only_bind; [|intros; apply check_only_ret].
        by apply check_only_decimals_io. }
      apply check_only_bind; [|intros b].
      { eapply (check_only_shared _
                  (fun ev => exists r, ev = EvBalanceOf tokenAddress signerAddress r)).
        - apply only_io. eauto.
        - by intros ev [r ->]. }
      apply check_only_bind; [apply check_only_lift|intros ?].
      apply check_only_bind; [apply check_only_lift|intros ?].
      apply check_only_ret. }
  by apply Hgroups.
Qed.

(** *** What the balance check reports *)

Lemma check_bind_Return_inv {A B} (m : Check A) (k : A -> Check B)
    (s s' : St W) (b : B) :
  bind m k s = (Return b, s') ->
  exists a s1, m s = (Return a, s1) /\ k a s1 = (Return b, s').
Proof.
  unfold bind. destruct (m s) as [[a|message] s1]; [|done]. eauto.
Qed.

Lemma checkGroup_reported (signerAddress tokenAddress : string)
    (tokenTxs : list Tx) (s s' : St W) (entry : Balance.t) :
  checkGroup signerAddress tokenAddress tokenTxs s = (Return entry, s') ->
  exists evs, trace s' = trace s ++ evs /\
    reported signerAddress evs (tokenAddress, tokenTxs) (tokenAddress, entry).
Proof.
  unfold checkGroup. cbv zeta. intros Hrun.
  apply check_bind_Return_inv in Hrun as (unit & s1 & Hunit & Hrun).
  apply check_bind_Return_inv in Hrun as (b & s2 & Hbalance & Hrun).
  apply check_bind_Return_inv in Hrun as (bf & s3 & Hbf & Hrun).
  apply check_bind_Return_inv in Hrun as (rf & s4 & Hrf & Hrun).
  unfold ret in Hrun. unfold lift in Hbf, Hrf. simplify_eq.
  unfold shared, io in Hbalance. simpl in Hbalance.
  destruct (token_balanceOf _ _ _) as [rb w2]. simplify_eq. simpl.
  unfold try_catch, bind, decimals_io, ret in Hunit.
  destruct (token_decimals _ _) as [[d|message] w1]; simplify_eq; simpl.
  all: rewrite <- app_assoc; eexists; split; [reflexivity|].
  all: split; [done|]. all: split; [simpl; by right; left|].
  - exists (Some d). split; [left; exists d; split; [by left|done]|].
    repeat split; try done. simpl. rewrite Z.geb_leb, Z.leb_antisym. done.
  - exists (first_decimals tokenTxs).
    split; [right; exists message; split; [by left|done]|].
    repeat split; try done. simpl. rewrite Z.geb_leb, Z.leb_antisym. done.
Qed.

Lemma reported_app (signerAddress : string) (evs1 evs2 evs3 : list Event)
    (group : string * list Tx) (result : string * Balance.t) :
  reported signerAddress evs2 group result ->
  reported signerAddress (evs1 ++ evs2 ++ evs3) group result.
Proof.
  destruct group as [tokenAddress tokenTxs], result as [key entry].
  intros (Hkey & Hin & unit & Hunit & Hentry).
  assert (Hmono : forall ev, In ev evs2 -> In ev (evs1 ++ evs2 ++ evs3)).
  { intros ev Hev. apply in_or_app. right. apply in_or_app. by left. }
  split; [done|]. split; [by apply Hmono|].
  exists unit. split; [|done].
  destruct Hunit as [(d & Hd & ->)|(message & Hm & ->)].
  - left. exists d. split; [by apply Hmono|done].
  - right. exists message. split; [by apply Hmono|done].
Qed.

Lemma checkGroups_reported (signerAddress : string) (groups : JsObject (list Tx)) :
  NoDup (obj_keys groups) ->
  forall results (s s' : St W) final,
    (forall k, In k (obj_keys groups) -> obj_get k results = None) ->
    checkGroups signerAddress groups results s = (Return final, s') ->
    exists evs entries,
      trace s' = trace s ++ evs /\ final = results ++ entries /\
      Forall2 (reported signerAddress evs) (groups_with_entries groups) entries.
Proof.
  induction groups as [|[tokenAddress tokenTxs] groups IH];
    intros Hnodup results s s' final Hfresh; simpl.
  - intros [= <- <-]. exists [], []. by rewrite !app_nil_r.
  - apply NoDup_cons in Hnodup as [Hnotin Hnodup].
    destruct (0 <? length tokenTxs)%nat eqn:Hlen.
    + intros Hrun.
      apply check_bind_Return_inv in Hrun as (entry & s1 & Hgroup & Hrun).
      apply checkGroup_reported in Hgroup as (evs1 & Htr1 & Hentry).
      apply IH in Hrun as (evs2 & entries & Htr2 & Hfinal & Hall); [|done|].
      * exists (evs1 ++ evs2), ((tokenAddress, entry) :: entries).
        rewrite Htr2, Htr1, app_assoc. split; [done|].
        rewrite Hfinal, obj_set_fresh by (apply Hfresh; by left).
        rewrite <- app_assoc. split; [done|].
        constructor.
        -- apply (reported_app _ [] evs1 evs2) in Hentry. exact Hentry.
        -- eapply Forall2_impl; [exact Hall|].
           intros group result Hr.
           apply (reported_app _ evs1 evs2 []) in Hr. by rewrite app_nil_r in Hr.
      * intros k Hk. rewrite obj_get_set_ne.
        -- apply Hfresh. by right.
        -- intros ->. apply Hnotin. by apply list_elem_of_In.
    + intros Hrun. apply IH in Hrun; [done..|].
      intros k Hk. apply Hfresh. by right.
Qed.

(** X20: what a [checkErc20Balances] that returns reports, on a queue with
    distinct token keys: one entry per
    token group that has entries, in the order of the keys and under the
    key of the group, with the balance the token answered for the signer's
    address, the total of the group as [required], the size of the group as
    [recipients], [sufficient] exactly when the balance is not below the
    total (the test of [checkAndApproveToken]), and both amounts formatted
    with the decimals the token answered or, when [decimals()] threw, with
    the decimals of the first entry of the group. *)
Theorem checkErc20Balances_reports_every_group (g : TransactionGroups)
    (s s' : St W) (results : JsObject Balance.t) :
  NoDup (obj_keys (erc20 g)) ->
  checkErc20Balances config g s = (Return results, s') ->
  exists signerAddress evs,
    trace s' = trace s ++ evs /\
    In (Shared (EvSignerAddress (Return signerAddress))) evs /\
    Forall2 (reported signerAddress evs) (groups_with_entries (erc20 g)) results.
Proof.
  intros Hnodup. unfold checkErc20Balances. intros Hrun.
  apply check_bind_Return_inv in Hrun as (c & s1 & Hconn & Hrun).
  apply check_bind_Return_inv in Hrun as (signerAddress & s2 & Hsigner & Hrun).
  apply checkGroups_reported in Hrun as (evs3 & entries & Htr3 & -> & Hall);
    [|done|done].
  unfold shared in Hconn, Hsigner.
  destruct (getConnection config _) as [rc sc]. simplify_eq. simpl in *.
  unfold io in Hsigner. simpl in Hsigner.
  destruct (signer_getAddress _) as [ra wa]. simplify_eq. simpl in *.
  exists signerAddress. eexists. rewrite Htr3. simpl. rewrite <- !app_assoc.
  split; [reflexivity|]. split.
  - apply in_or_app. right. by left.
  - eapply Forall2_impl; [exact Hall|]. intros group result Hr.
    apply (reported_app _ (map Shared (Client.trace sc)
                           ++ [Shared (EvSignerAddress (Return signerAddress))])
             evs3 []) in Hr.
    by rewrite app_nil_r, <- app_assoc in Hr.
Qed.

End Async.
(** The batch with two tokens, the second of which does not answer
    [decimals()]: both are reported. *)
Lemma checkErc20Balances_reports_every_group_witness :
  exists results s',
    checkErc20Balances (U:=Scenarios.units) (Net:=Mock.network)
      (Meta:=Scenarios.metadata) Examples.config Examples.two_token_batch
      (Scenarios.start (Examples.node 90000))
    = (Return results, s') /\
    exists signerAddress evs,
      trace s' = trace (Scenarios.start (Examples.node 90000)) ++ evs /\
      In (Shared (EvSignerAddress (Return signerAddress))) evs /\
      Forall2 (reported (U:=Scenarios.units) signerAddress evs)
        (groups_with_entries (erc20 Examples.two_token_batch)) results.
Proof.
  destruct (checkErc20Balances (U:=Scenarios.units) (Net:=Mock.network)
              (Meta:=Scenarios.metadata) Examples.config Examples.two_token_batch
              (Scenarios.start (Examples.node 90000)))
    as [[results|message] s'] eqn:Hrun;
    [|vm_compute in Hrun; discriminate Hrun].
  assert (Hkeys : NoDup (obj_keys (erc20 Examples.two_token_batch))).
  { apply (bool_decide_unpack _). vm_compute. exact I. }
  exists results, s'. split; [reflexivity|].
  exact (checkErc20Balances_reports_every_group _ _ _ _ _ Hkeys Hrun).
Defined.

End CheckerExtras.
